(** * jsc_hashtable: a chained hash table with byte-string keys

    A shallow embedding of [hashtable.c] and [hash_seed.c] together with the
    properties of the table's specification that the code does, and does
    not, satisfy.

    Conventions of the embedding.
    - [size_t] is a [Z] wrapped modulo [2^64], [uint32_t] a [Z] wrapped
      modulo [2^32]; [void *] values are addresses in [Z], [NULL] being 0.
    - A key argument [(key, keylen)] is the [string] of its [keylen] bytes.
      A stored key is the copy made by [_internal_strdup]: the same bytes
      followed by a NUL terminator, which is the end of the [string].
    - [hash_item_t] objects live in a heap ([gmap loc hash_item_t]) because
      [head], [tail] and [next] alias them; freeing an item deletes it from
      the heap and any later access through a stale pointer is undefined
      behaviour.  A [bucket_t] is only ever reached through its slot and the
      table only through the caller's handle, so both are plain records.
    - [malloc] may fail: the state carries the outcomes of the coming
      allocation requests.
    - The frees of objects that were linked into a table and the calls of a
      deallocator are recorded as events.
    - Loops over [next] pointers take fuel; a call that runs out of fuel
      whatever the fuel does not return.
    - NULL checks on the key pointer are left out: a key is a buffer. *)

From stdpp Require Import base numbers option list strings gmap.
From Stdlib Require Import Ascii String ZArith Lia.

Local Open Scope Z_scope.

(** ** C strings *)

Definition NUL : ascii := Ascii.zero.

Definition char_code (c : ascii) : Z := Z.of_N (N_of_ascii c).

(** The byte a [char *] points at; the end of the string is its terminator. *)
Definition first_char (s : string) : ascii :=
  match s with
  | EmptyString => NUL
  | String c _ => c
  end.

Definition next_chars (s : string) : string :=
  match s with
  | EmptyString => EmptyString
  | String _ r => r
  end.

(** [strncmp(s1, s2, n)]: compares at most [n] bytes and stops at the first
    difference or at a NUL. *)
Fixpoint strncmp (s1 s2 : string) (n : nat) : Z :=
  match n with
  | O => 0
  | S n' =>
      let c1 := first_char s1 in
      let c2 := first_char s2 in
      if Ascii.eqb c1 c2
      then if Ascii.eqb c1 NUL then 0 else strncmp (next_chars s1) (next_chars s2) n'
      else char_code c1 - char_code c2
  end.

Definition keylen_of (key : string) : Z := Z.of_nat (String.length key).

(** ** Integer types *)

Definition size_max : Z := 2 ^ 64.
Definition uint32_max : Z := 2 ^ 32.
Definition wrap_size (z : Z) : Z := z mod size_max.
Definition wrap_u32 (z : Z) : Z := z mod uint32_max.

Definition HASHTABLE_GROWTH_FACTOR : Z := 2.

(** ** Data model (hashtable.h) *)

Definition loc := nat.

Record hash_item_t := Item {
  item_next : option loc;
  item_key : string;
  item_value : Z;
  item_keylen : Z
}.

Record bucket_t := Bucket {
  bucket_head : option loc;
  bucket_tail : option loc;
  bucket_size : Z;
  had_collision : bool
}.

(** The [deallocator] field of the C struct is never written nor read. *)
Record hashtable_t := Table {
  table_size : Z;
  num_items : Z;
  max_load_factor : Z;
  buckets : list (option bucket_t)
}.

(** ** Program state and effects *)

Inductive event :=
  | Ev_deallocator (v : Z)
  | Ev_free_key (l : loc)
  | Ev_free_item (l : loc)
  | Ev_free_bucket (i : nat)
  | Ev_free_buckets
  | Ev_free_table.

Record state := State {
  items : gmap loc hash_item_t;
  next_loc : loc;
  alloc_plan : list bool;
  events : list event
}.

Inductive outcome (A : Type) :=
  | Ok (a : A) (s : state)
  | Undefined
  | OutOfFuel.
Arguments Ok {A} a s.
Arguments Undefined {A}.
Arguments OutOfFuel {A}.

Definition M (A : Type) : Type := state → outcome A.

Definition ret {A} (a : A) : M A := λ s, Ok a s.

Definition bind {A B} (m : M A) (f : A → M B) : M B :=
  λ s, match m s with
       | Ok a s' => f a s'
       | Undefined => Undefined
       | OutOfFuel => OutOfFuel
       end.

Declare Scope M_scope.
Delimit Scope M_scope with M.
Notation "x ← y ; z" := (bind y (λ x : _, z))
  (at level 20, y at level 100, z at level 200, only parsing) : M_scope.
Notation "' x ← y ; z" := (bind y (λ x : _, z))
  (at level 20, x pattern, y at level 100, z at level 200, only parsing) : M_scope.
Local Open Scope M_scope.

Definition undefined {A} : M A := λ _, Undefined.
Definition out_of_fuel {A} : M A := λ _, OutOfFuel.

(** [malloc]/[calloc]: succeeds unless the plan says the request fails. *)
Definition malloc : M bool :=
  λ s, match alloc_plan s with
       | [] => Ok true s
       | b :: plan => Ok b (State (items s) (next_loc s) plan (events s))
       end.

Definition emit (e : event) : M unit :=
  λ s, Ok tt (State (items s) (next_loc s) (alloc_plan s) (events s ++ [e])).

(** Reading through an item pointer: NULL and freed pointers are undefined. *)
Definition load (p : option loc) : M hash_item_t :=
  λ s, match p with
       | None => Undefined
       | Some l => match items s !! l with
                   | Some it => Ok it s
                   | None => Undefined
                   end
       end.

Definition store (p : option loc) (f : hash_item_t → hash_item_t) : M unit :=
  λ s, match p with
       | None => Undefined
       | Some l => match items s !! l with
                   | Some it => Ok tt (State (<[l := f it]> (items s)) (next_loc s)
                                             (alloc_plan s) (events s))
                   | None => Undefined
                   end
       end.

Definition new_item (it : hash_item_t) : M loc :=
  λ s, Ok (next_loc s)
          (State (<[next_loc s := it]> (items s)) (S (next_loc s))
                 (alloc_plan s) (events s)).

Definition release (l : loc) : M unit :=
  λ s, match items s !! l with
       | Some _ => Ok tt (State (delete l (items s)) (next_loc s)
                                (alloc_plan s) (events s ++ [Ev_free_key l; Ev_free_item l]))
       | None => Undefined
       end.

(** A deallocator argument (a function pointer): [true] when a function is
    supplied, [false] for NULL.  Calling it is recorded as an event. *)
Definition call_deallocator (deallocator : bool) (v : Z) : M unit :=
  if deallocator then emit (Ev_deallocator v) else ret tt.

(** ** hashtable.c *)

Section Hashtable.

(** lookup3's [hashlittle] and the process-wide seed are not part of the
    table's code: every result below holds for any hash function. *)
Variable hashlittle : string → Z → Z → Z.
Variable hashtable_seed : Z.

(** [(uint32_t)(hashlittle(key, keylen, hashtable_seed) % table->table_size)] *)
Definition slot_index (table : hashtable_t) (key : string) : M nat :=
  if table_size table =? 0 then undefined
  else ret (Z.to_nat (wrap_u32 (wrap_u32 (hashlittle key (keylen_of key) hashtable_seed)
                                  mod table_size table))).

Definition _internal_strdup (src : string) : M (option string) :=
  ok ← malloc;
  if ok then ret (Some src) else ret None.

Definition _bucket_init : bucket_t := Bucket None None 0 false.

Definition _bucket_insert (bucket : bucket_t) (item : option loc) : M (Z * bucket_t) :=
  match item with
  | None => ret (-1, bucket)
  | Some _ =>
      _ ← store item (λ it, Item None (item_key it) (item_value it) (item_keylen it));
      _ ← (match bucket_tail bucket with
           | Some _ => store (bucket_tail bucket)
                         (λ it, Item item (item_key it) (item_value it) (item_keylen it))
           | None => ret tt
           end);
      let head' := match bucket_head bucket with
                   | None => item
                   | Some _ => bucket_head bucket
                   end in
      let size' := wrap_size (bucket_size bucket + 1) in
      let had' := if (1 <? size') && negb (had_collision bucket)
                  then true else had_collision bucket in
      ret (0, Bucket head' item size' had')
  end.

(** The [while(temp != NULL)] loop of [_key_in_bucket]. *)
Fixpoint _key_in_bucket_loop (fuel : nat) (temp : option loc) (key : string)
  : M (option loc) :=
  match fuel with
  | O => out_of_fuel
  | S fuel' =>
      match temp with
      | None => ret None
      | Some _ =>
          it ← load temp;
          if strncmp (item_key it) key (String.length key) =? 0
          then ret temp
          else _key_in_bucket_loop fuel' (item_next it) key
      end
  end.

(** Returns [Some pair] for the C result 1 with [*pair] set, [None] for 0.
    The callers pass a bucket and a key that are not NULL. *)
Definition _key_in_bucket (fuel : nat) (bucket : bucket_t) (key : string)
  : M (option loc) :=
  _key_in_bucket_loop fuel (bucket_head bucket) key.

Definition _hash_item_create (key : string) (value : Z) : M (option loc) :=
  ok ← malloc;
  if negb ok then ret None
  else
    key_copy ← _internal_strdup key;
    match key_copy with
    | None => ret None
    | Some kc =>
        new_pair ← new_item (Item None kc value (keylen_of key));
        ret (Some new_pair)
    end.

Definition _hash_item_destroy (item : option loc) : M Z :=
  match item with
  | None => ret (-1)
  | Some l => _ ← release l; ret 0
  end.

Definition hashtable_create (initial_size max_loadfactor : Z) : M (option hashtable_t) :=
  ok ← malloc;
  if negb ok then ret None
  else
    ok ← malloc;
    if negb ok then ret None
    else ret (Some (Table initial_size 0 max_loadfactor
                           (replicate (Z.to_nat initial_size) None))).

Definition set_bucket (table : hashtable_t) (index : nat) (b : bucket_t) : hashtable_t :=
  Table (table_size table) (num_items table) (max_load_factor table)
        (<[index := Some b]> (buckets table)).

Definition _hashtable_insert (fuel : nat) (table : hashtable_t) (key : string)
    (value : Z) (override : Z) (deallocator : bool) : M (Z * hashtable_t) :=
  index ← slot_index table key;
  match buckets table !! index with
  | None => undefined
  | Some (Some bucket) =>
      found ← _key_in_bucket fuel bucket key;
      match found with
      | Some _ =>
          if override =? 0 then ret (-1, table)
          else
            new_pair ← load found;
            _ ← call_deallocator deallocator (item_value new_pair);
            _ ← store found (λ it, Item (item_next it) (item_key it) value (item_keylen it));
            ret (1, table)
      | None =>
          new_pair ← _hash_item_create key value;
          match new_pair with
          | None => ret (-1, table)
          | Some _ =>
              '(r, bucket') ← _bucket_insert bucket new_pair;
              ret (r, set_bucket table index bucket')
          end
      end
  | Some None =>
      ok ← malloc;
      if negb ok then ret (-1, table)
      else
        new_pair ← _hash_item_create key value;
        match new_pair with
        | None => ret (-1, table)
        | Some _ =>
            '(_, new_bucket) ← _bucket_insert _bucket_init new_pair;
            ret (0, set_bucket table index new_bucket)
        end
  end.

(** The [(curr_item->key, curr_item->keylen)] argument of the migration:
    the first [keylen] bytes of the stored, NUL-terminated copy. *)
Definition stored_key_arg (it : hash_item_t) : M string :=
  if (0 <=? item_keylen it) && (item_keylen it <=? keylen_of (item_key it) + 1)
  then ret (substring 0 (Z.to_nat (item_keylen it))
              (item_key it ++ String NUL EmptyString)%string)
  else undefined.

(** The [while(curr_item != NULL)] loop of [_hashtable_grow]; [n] is the
    fuel of this loop, [fuel] the one handed to [_hashtable_insert]. *)
Fixpoint _grow_items (fuel n : nat) (new_table : hashtable_t) (curr_item : option loc)
  : M hashtable_t :=
  match n with
  | O => out_of_fuel
  | S n' =>
      match curr_item with
      | None => ret new_table
      | Some _ =>
          it ← load curr_item;
          let temp_item := item_next it in
          key ← stored_key_arg it;
          '(_, new_table') ← _hashtable_insert fuel new_table key (item_value it) 0 false;
          _ ← _hash_item_destroy curr_item;
          _grow_items fuel n' new_table' temp_item
      end
  end.

(** The [for(i = 0; i < table->table_size; i++)] loop of [_hashtable_grow],
    with [count] slots left to visit from slot [i]. *)
Fixpoint _grow_slots (fuel : nat) (table : hashtable_t) (count i : nat)
    (new_table : hashtable_t) : M hashtable_t :=
  match count with
  | O => ret new_table
  | S count' =>
      match buckets table !! i with
      | None => undefined
      | Some None => _grow_slots fuel table count' (S i) new_table
      | Some (Some curr_bucket) =>
          new_table' ← _grow_items fuel fuel new_table (bucket_head curr_bucket);
          _ ← emit (Ev_free_bucket i);
          _grow_slots fuel table count' (S i) new_table'
      end
  end.

Definition _hashtable_grow (fuel : nat) (table : hashtable_t) : M (option hashtable_t) :=
  new_table ← hashtable_create (wrap_size (table_size table * HASHTABLE_GROWTH_FACTOR))
                               (max_load_factor table);
  match new_table with
  | None => ret None
  | Some new_table =>
      new_table' ← _grow_slots fuel table (Z.to_nat (table_size table)) 0 new_table;
      _ ← emit Ev_free_buckets;
      _ ← emit Ev_free_table;
      ret (Some new_table')
  end.

Definition incr_num_items (table : hashtable_t) : hashtable_t :=
  Table (table_size table) (wrap_size (num_items table + 1))
        (max_load_factor table) (buckets table).

(** What [hashtable_set] does with the result [temp] of the growth of [t]. *)
Definition after_grow (t : hashtable_t) (temp : option hashtable_t)
  : M (Z * option hashtable_t) :=
  match temp with
  | None => ret (-1, Some t)
  | Some t' => ret (0, Some t')
  end.

(** The argument is the handle the caller's [hashtable_t **] points at; the
    result carries the handle as it is when the call returns.  The
    [buckets] array of a created table is never NULL. *)
Definition hashtable_set (fuel : nat) (table : option hashtable_t) (key : string)
    (value : Z) (replace : Z) (deallocator : bool) : M (Z * option hashtable_t) :=
  match table with
  | None => ret (-1, None)
  | Some t =>
      '(r, t) ← _hashtable_insert fuel t key value replace deallocator;
      if r =? 0
      then
        let t := incr_num_items t in
        if max_load_factor t <=? num_items t / table_size t
        then
          temp ← _hashtable_grow fuel t;
          match temp with
          | None => ret (-1, Some t)
          | Some t' => ret (0, Some t')
          end
        else ret (-1, Some t)
      else ret (-1, Some t)
  end.

(** The [while(curr_item != bucket->tail)] loop of [_hashtable_find]. *)
Fixpoint _hashtable_find_loop (fuel : nat) (bucket : bucket_t) (curr_item : option loc)
    (key : string) : M (option loc) :=
  match fuel with
  | O => out_of_fuel
  | S fuel' =>
      if decide (curr_item = bucket_tail bucket) then ret None
      else
        it ← load curr_item;
        let curr_item := item_next it in
        it ← load curr_item;
        if strncmp key (item_key it) (String.length key) =? 0
        then ret curr_item
        else _hashtable_find_loop fuel' bucket curr_item key
  end.

Definition _hashtable_find (fuel : nat) (table : option hashtable_t) (key : string)
  : M (option loc) :=
  match table with
  | None => ret None
  | Some table =>
      index ← slot_index table key;
      match buckets table !! index with
      | None => undefined
      | Some None => ret None
      | Some (Some bucket) =>
          if negb (had_collision bucket) && (bucket_size bucket =? 1)
          then ret (bucket_head bucket)
          else
            it ← load (bucket_head bucket);
            if strncmp (item_key it) key (String.length key) =? 0
            then ret (bucket_head bucket)
            else _hashtable_find_loop fuel bucket (bucket_head bucket) key
      end
  end.

Definition hashtable_get (fuel : nat) (table : option hashtable_t) (key : string) : M Z :=
  pair ← _hashtable_find fuel table key;
  match pair with
  | None => ret 0
  | Some _ => it ← load pair; ret (item_value it)
  end.

Definition hashtable_exists_pair (fuel : nat) (table : option hashtable_t) (key : string)
  : M Z :=
  pair ← _hashtable_find fuel table key;
  match pair with
  | None => ret 0
  | Some _ => ret 1
  end.

Definition decr_num_items (table : hashtable_t) : hashtable_t :=
  Table (table_size table) (wrap_size (num_items table - 1))
        (max_load_factor table) (buckets table).

(** The [while(temp_item != NULL)] loop of [_hashtable_remove].  The source
    has no statement after the [if]: a pass that finds no match starts the
    next one with the same [temp_item] and [prev_item]. *)
Fixpoint _hashtable_remove_loop (fuel : nat) (table : hashtable_t) (index : nat)
    (bucket : bucket_t) (prev_item temp_item : option loc) (key : string)
    (deallocator : bool) : M (Z * hashtable_t) :=
  match fuel with
  | O => out_of_fuel
  | S fuel' =>
      match temp_item with
      | None => ret (-1, table)
      | Some _ =>
          it ← load temp_item;
          if strncmp key (item_key it) (String.length key) =? 0
          then
            bucket' ← (if decide (temp_item = bucket_head bucket)
                       then
                         h ← load (bucket_head bucket);
                         ret (Bucket (item_next h) (bucket_tail bucket)
                                     (bucket_size bucket) (had_collision bucket))
                       else
                         _ ← store prev_item
                               (λ p, Item (item_next it) (item_key p) (item_value p)
                                          (item_keylen p));
                         ret bucket);
            _ ← call_deallocator deallocator (item_value it);
            _ ← _hash_item_destroy temp_item;
            ret (0, decr_num_items (set_bucket table index bucket'))
          else
            _hashtable_remove_loop fuel' table index bucket prev_item temp_item
                                   key deallocator
      end
  end.

Definition _hashtable_remove (fuel : nat) (table : option hashtable_t) (key : string)
    (deallocator : bool) : M (Z * option hashtable_t) :=
  match table with
  | None => ret (-1, None)
  | Some t =>
      if num_items t =? 0 then ret (-1, Some t)
      else
        index ← slot_index t key;
        match buckets t !! index with
        | None => undefined
        | Some None => ret (-1, Some t)
        | Some (Some bucket) =>
            match bucket_head bucket with
            | None => ret (-1, Some t)
            | Some _ =>
                '(r, t') ← _hashtable_remove_loop fuel t index bucket None
                                                  (bucket_head bucket) key deallocator;
                ret (r, Some t')
            end
        end
  end.

(** The [while(curr_item != NULL)] loop of [hashtable_destroy]. *)
Fixpoint _destroy_items (fuel : nat) (curr_item : option loc) (deallocator : bool)
  : M unit :=
  match fuel with
  | O => out_of_fuel
  | S fuel' =>
      match curr_item with
      | None => ret tt
      | Some _ =>
          it ← load curr_item;
          let tmp := item_next it in
          _ ← call_deallocator deallocator (item_value it);
          _ ← _hash_item_destroy curr_item;
          _destroy_items fuel' tmp deallocator
      end
  end.

(** The [for] loop of [hashtable_destroy]. *)
Fixpoint _destroy_slots (fuel : nat) (table : hashtable_t) (count i : nat)
    (deallocator : bool) : M unit :=
  match count with
  | O => ret tt
  | S count' =>
      match buckets table !! i with
      | None => undefined
      | Some None => _destroy_slots fuel table count' (S i) deallocator
      | Some (Some curr_bucket) =>
          _ ← _destroy_items fuel (bucket_head curr_bucket) deallocator;
          _ ← emit (Ev_free_bucket i);
          _destroy_slots fuel table count' (S i) deallocator
      end
  end.

Definition hashtable_destroy (fuel : nat) (table : option hashtable_t)
    (deallocator : bool) : M Z :=
  match table with
  | None => ret (-1)
  | Some t =>
      _ ← (if num_items t =? 0 then ret tt
           else _destroy_slots fuel t (Z.to_nat (table_size t)) 0 deallocator);
      _ ← emit Ev_free_buckets;
      _ ← emit Ev_free_table;
      ret 0
  end.

End Hashtable.

(** ** hash_seed.c *)

(** What [pid_seed_generate] reads: the build configuration and the clock and
    process id of the run. *)
Record seed_env := SeedEnv {
  HAVE_GETTIMEOFDAY : bool;
  HAVE_GETPID : bool;
  _WIN32 : bool;
  tv_sec : Z;
  tv_usec : Z;
  time_now : Z;
  current_pid : Z
}.

(** Returns the value written to [*seed]. *)
Definition pid_seed_generate (env : seed_env) : Z :=
  let seed := if HAVE_GETTIMEOFDAY env
              then Z.lxor (wrap_u32 (tv_sec env)) (wrap_u32 (tv_usec env))
              else wrap_u32 (time_now env) in
  if _WIN32 env then Z.lxor seed (wrap_u32 (current_pid env))
  else if HAVE_GETPID env then Z.lxor seed (wrap_u32 (current_pid env))
  else seed.

(** [hashtable_seed] is the global before the call; the result is the global
    after it. *)
Definition set_hashtable_seed (env : seed_env) (hashtable_seed new_seed : Z) : Z :=
  if hashtable_seed =? 0
  then if new_seed =? 0 then pid_seed_generate env else hashtable_seed
  else hashtable_seed.

(** ** Running the model *)

Definition initial_state : state := State ∅ 0%nat [] [].

Definition with_plan (plan : list bool) (s : state) : state :=
  State (items s) (next_loc s) plan (events s).

(** A stand-in for lookup3's [hashlittle], to run the model on concrete
    inputs: the sum of the key's bytes and the seed. *)
Fixpoint byte_sum (s : string) : Z :=
  match s with
  | EmptyString => 0
  | String c r => char_code c + byte_sum r
  end.

Definition sum_hash (key : string) (len init : Z) : Z :=
  wrap_u32 (byte_sum key + init).

(** ** Notions used in the statements *)

(** The state after [_hashtable_remove] unlinked and destroyed the head
    item [it] at [l]. *)
Definition removed_state (s : state) (l : loc) (it : hash_item_t) (deallocator : bool)
  : state :=
  State (delete l (items s)) (next_loc s) (alloc_plan s)
        (events s ++ (if deallocator then [Ev_deallocator (item_value it)] else [])
                  ++ [Ev_free_key l; Ev_free_item l]).

Definition removed_table (t : hashtable_t) (index : nat) (bucket : bucket_t)
    (it : hash_item_t) : hashtable_t :=
  decr_num_items
    (set_bucket t index
       (Bucket (item_next it) (bucket_tail bucket) (bucket_size bucket)
               (had_collision bucket))).

(** Two tables with the same capacity, item count and load factor. *)
Definition same_shape (t t' : hashtable_t) : Prop :=
  table_size t' = table_size t
  ∧ num_items t' = num_items t
  ∧ max_load_factor t' = max_load_factor t.

(** [chain_reaches h p n l]: following [n] [next] links from the pointer [p]
    through live items of the heap [h] leads to the live item at [l]. *)
Inductive chain_reaches (h : gmap loc hash_item_t) : option loc → nat → loc → Prop :=
  | chain_here l it :
      h !! l = Some it → chain_reaches h (Some l) 0 l
  | chain_step l it n l' :
      h !! l = Some it →
      chain_reaches h (item_next it) n l' →
      chain_reaches h (Some l) (S n) l'.


(** ** Tables used as concrete inputs

    Each is what the calls named in its comment leave behind, starting from
    [initial_state]; the lemmas [*_reached] below replay the calls. *)

(** [hashtable_create(1, 100)]: one slot, so every key falls in slot 0
    whatever the hash function. *)
Definition one_slot_empty : hashtable_t := Table 1 0 100 [None].

(** After [set("a", 111)]. *)
Definition single_a_bucket : bucket_t := Bucket (Some 0%nat) (Some 0%nat) 1 false.
Definition single_a_item : hash_item_t := Item None "a" 111 1.
Definition single_a_table : hashtable_t := Table 1 1 100 [Some single_a_bucket].
Definition single_a_state : state := State {[ 0%nat := single_a_item ]} 1%nat [] [].

(** After [set("abc", 111)]. *)
Definition abc_table : hashtable_t :=
  Table 1 1 100 [Some (Bucket (Some 0%nat) (Some 0%nat) 1 false)].
Definition abc_state : state := State {[ 0%nat := Item None "abc" 111 3 ]} 1%nat [] [].

(** After [set("abc", 111)] and [set("x", 222)]. *)
Definition abc_x_bucket : bucket_t := Bucket (Some 0%nat) (Some 1%nat) 2 true.
Definition abc_item : hash_item_t := Item (Some 1%nat) "abc" 111 3.
Definition x_item : hash_item_t := Item None "x" 222 1.
Definition abc_x_table : hashtable_t := Table 1 2 100 [Some abc_x_bucket].
Definition abc_x_state : state :=
  State {[ 0%nat := abc_item; 1%nat := x_item ]} 2%nat [] [].

(** After [set("a", 111)] and [set("b", 222)]. *)
Definition a_b_table : hashtable_t :=
  Table 1 2 100 [Some (Bucket (Some 0%nat) (Some 1%nat) 2 true)].
Definition a_b_state : state :=
  State {[ 0%nat := Item (Some 1%nat) "a" 111 1; 1%nat := Item None "b" 222 1 ]}
        2%nat [] [].

(** After [set("a", 111)], [set("b", 222)] and [remove("a")]. *)
Definition only_b_bucket : bucket_t := Bucket (Some 1%nat) (Some 1%nat) 2 true.
Definition only_b_item : hash_item_t := Item None "b" 222 1.
Definition only_b_table : hashtable_t := Table 1 1 100 [Some only_b_bucket].
Definition only_b_state : state :=
  State {[ 1%nat := only_b_item ]} 2%nat [] [Ev_free_key 0%nat; Ev_free_item 0%nat].

(** [hashtable_create(2, 1)], run with [sum_hash] and seed 0. *)
Definition two_slot_empty : hashtable_t := Table 2 0 1 [None; None].

(** After [set("a", 111)]: slot 1, below the threshold. *)
Definition two_slot_a_table : hashtable_t :=
  Table 2 1 1 [None; Some (Bucket (Some 0%nat) (Some 0%nat) 1 false)].
Definition two_slot_a_state : state :=
  State {[ 0%nat := Item None "a" 111 1 ]} 1%nat [] [].

(** After [set("a", 111)] and the insert of [set("b", 222)], count
    incremented: 2 items in 2 slots, the threshold is reached. *)
Definition two_slot_full_inserted : hashtable_t :=
  Table 2 1 1 [Some (Bucket (Some 1%nat) (Some 1%nat) 1 false);
               Some (Bucket (Some 0%nat) (Some 0%nat) 1 false)].
Definition two_slot_full_table : hashtable_t := incr_num_items two_slot_full_inserted.
Definition two_slot_full_state : state :=
  State {[ 0%nat := Item None "a" 111 1; 1%nat := Item None "b" 222 1 ]} 2%nat [] [].

(** After [set("a", 111)] and [set("b", 222)], the second of which grew the
    table to 4 slots. *)
Definition grown_table : hashtable_t :=
  Table 4 0 1 [None;
               Some (Bucket (Some 3%nat) (Some 3%nat) 1 false);
               Some (Bucket (Some 2%nat) (Some 2%nat) 1 false);
               None].
Definition grown_state : state :=
  State {[ 2%nat := Item None "b" 222 1; 3%nat := Item None "a" 111 1 ]} 4%nat []
        [Ev_free_key 1%nat; Ev_free_item 1%nat; Ev_free_bucket 0;
         Ev_free_key 0%nat; Ev_free_item 0%nat; Ev_free_bucket 1;
         Ev_free_buckets; Ev_free_table].

(** [hashtable_create(1, 1)] and, under [sum_hash] and seed 0, the table
    after [set("a", 111)], which grew it to 2 slots, and after
    [set("b", 222)], which did not grow it. *)
Definition unit_factor_empty : hashtable_t := Table 1 0 1 [None].
Definition unit_factor_grown_table : hashtable_t :=
  Table 2 0 1 [None; Some (Bucket (Some 1%nat) (Some 1%nat) 1 false)].
Definition unit_factor_grown_state : state :=
  State {[ 1%nat := Item None "a" 111 1 ]} 2%nat []
        [Ev_free_key 0%nat; Ev_free_item 0%nat; Ev_free_bucket 0;
         Ev_free_buckets; Ev_free_table].
Definition unit_factor_full_table : hashtable_t :=
  Table 2 1 1 [Some (Bucket (Some 2%nat) (Some 2%nat) 1 false);
               Some (Bucket (Some 1%nat) (Some 1%nat) 1 false)].
Definition unit_factor_full_state : state :=
  State {[ 1%nat := Item None "a" 111 1; 2%nat := Item None "b" 222 1 ]} 3%nat []
        [Ev_free_key 0%nat; Ev_free_item 0%nat; Ev_free_bucket 0;
         Ev_free_buckets; Ev_free_table].

(** The allocator lets the bucket, the item and the key copy of the next
    insert through and refuses the request after them. *)
Definition growth_refused : list bool := [true; true; true; false].

(** ** Notions used in the further properties *)

(** The next [n] allocation requests succeed. *)
Definition allocations_succeed (n : nat) (s : state) : Prop :=
  Forall (λ b, b = true) (take n (alloc_plan s)).

(** The state once [n] allocation requests were served. *)
Definition after_mallocs (n : nat) (s : state) : state :=
  with_plan (drop n (alloc_plan s)) s.

(** Two states that differ by served allocation requests at most. *)
Definition same_heap (s s' : state) : Prop :=
  items s' = items s ∧ next_loc s' = next_loc s ∧ events s' = events s.

(** [is_chain h p ls]: from the pointer [p] the [next] links run through the
    live items at [ls], in this order, and end with NULL. *)
Fixpoint is_chain (h : gmap loc hash_item_t) (p : option loc) (ls : list loc) : Prop :=
  match ls with
  | [] => p = None
  | l :: ls' => p = Some l ∧ ∃ it, h !! l = Some it ∧ is_chain h (item_next it) ls'
  end.

(** The comparison every scan makes between a stored item and the queried
    key. *)
Definition key_matches (key : string) (it : hash_item_t) : bool :=
  strncmp (item_key it) key (String.length key) =? 0.

(** The first item of the chain [ls] that compares equal to [key]. *)
Fixpoint first_match (h : gmap loc hash_item_t) (key : string) (ls : list loc)
  : option loc :=
  match ls with
  | [] => None
  | l :: ls' =>
      match h !! l with
      | Some it => if key_matches key it then Some l else first_match h key ls'
      | None => None
      end
  end.

(** A bucket as [_hashtable_insert] builds it: [head] starts a chain of at
    least one live item without repetition, [tail] is its last item, [size]
    counts at least one insert, and a bucket that recorded no collision
    holds a single item. *)
Record bucket_wf (h : gmap loc hash_item_t) (b : bucket_t) (ls : list loc) : Prop := {
  wf_chain : is_chain h (bucket_head b) ls;
  wf_nonempty : ls ≠ [];
  wf_tail : bucket_tail b = last ls;
  wf_nodup : NoDup ls;
  wf_size : 1 ≤ bucket_size b;
  wf_single : had_collision b = false → List.length ls = 1%nat
}.

(** Whether [_hashtable_find] takes its shortcut on the bucket. *)
Definition shortcut (b : bucket_t) : bool :=
  negb (had_collision b) && (bucket_size b =? 1).

(** The two field updates the code makes on a stored item. *)
Definition set_next (p : option loc) (it : hash_item_t) : hash_item_t :=
  Item p (item_key it) (item_value it) (item_keylen it).

Definition set_value (v : Z) (it : hash_item_t) : hash_item_t :=
  Item (item_next it) (item_key it) v (item_keylen it).

(** The item [_hash_item_create] builds for a key and a value. *)
Definition created_item (key : string) (v : Z) : hash_item_t :=
  Item None key v (keylen_of key).

(** A slot and the chain of its bucket: an empty slot has no chain; the size
    of a bucket never exceeds the number [n] of items allocated so far. *)
Definition slot_wf (h : gmap loc hash_item_t) (n : loc) (slot : option bucket_t)
    (ls : list loc) : Prop :=
  match slot with
  | None => ls = []
  | Some b => bucket_wf h b ls ∧ bucket_size b ≤ Z.of_nat n
  end.

(** A table as the code builds it, with the chains [cs] of its slots: at
    least one slot, a slot array of [table_size] entries, every bucket well
    formed, no item in two chains, and every live item allocated before
    [next_loc]. *)
Record table_wf (s : state) (t : hashtable_t) (cs : list (list loc)) : Prop := {
  twf_size : 0 < table_size t;
  twf_slots : List.length (buckets t) = Z.to_nat (table_size t);
  twf_chains_len : List.length cs = List.length (buckets t);
  twf_chains : ∀ i slot ls,
      buckets t !! i = Some slot → cs !! i = Some ls →
      slot_wf (items s) (next_loc s) slot ls;
  twf_disjoint : ∀ i j a b l,
      i ≠ j → cs !! i = Some a → cs !! j = Some b → l ∈ a → l ∉ b;
  twf_fresh : ∀ l, is_Some (items s !! l) → (l < next_loc s)%nat
}.

(** Every item of the heap [h] is still in [h'] with its key, value and key
    length. *)
Definition items_kept (h h' : gmap loc hash_item_t) : Prop :=
  ∀ l it, h !! l = Some it →
          ∃ it', h' !! l = Some it'
                 ∧ item_key it' = item_key it
                 ∧ item_value it' = item_value it
                 ∧ item_keylen it' = item_keylen it.

(** The state after [_hashtable_insert] replaced the value of the item [it]
    at [l] by [v]. *)
Definition overwritten_state (s : state) (l : loc) (it : hash_item_t) (v : Z)
    (deallocator : bool) : state :=
  State (<[l := set_value v it]> (items s)) (next_loc s) (alloc_plan s)
        (if deallocator then events s ++ [Ev_deallocator (item_value it)]
         else events s).

(** A key without a NUL byte. *)
Fixpoint nul_free (s : string) : bool :=
  match s with
  | EmptyString => true
  | String c r => negb (Ascii.eqb c NUL) && nul_free r
  end.

(** One call of [set_hashtable_seed] with the clock and process id it would
    read and the candidate it is given. *)
Definition seed_call (seed : Z) (call : seed_env * Z) : Z :=
  set_hashtable_seed (fst call) seed (snd call).

(** What destroying the items of a chain records: for each item, in chain
    order, the deallocator call on its value when one is supplied, then the
    frees of its key copy and of the item. *)
Definition item_release_events (h : gmap loc hash_item_t) (deallocator : bool) (l : loc)
  : list event :=
  match h !! l with
  | Some it => (if deallocator then [Ev_deallocator (item_value it)] else [])
               ++ [Ev_free_key l; Ev_free_item l]
  | None => []
  end.

Definition chain_release_events (h : gmap loc hash_item_t) (deallocator : bool)
    (ls : list loc) : list event :=
  flat_map (item_release_events h deallocator) ls.

(** What destroying the slots from index [i] on records: the items of each
    occupied slot, then the free of its bucket. *)
Fixpoint table_release_events (h : gmap loc hash_item_t) (deallocator : bool) (i : nat)
    (slots : list (option bucket_t)) (cs : list (list loc)) : list event :=
  match slots, cs with
  | slot :: slots', ls :: cs' =>
      match slot with
      | Some _ => chain_release_events h deallocator ls ++ [Ev_free_bucket i]
      | None => []
      end ++ table_release_events h deallocator (S i) slots' cs'
  | _, _ => []
  end.

(** The heap without the items at [ls]. *)
Definition release_all (h : gmap loc hash_item_t) (ls : list loc) : gmap loc hash_item_t :=
  fold_left (λ h l, delete l h) ls h.

(** Every item of the chains is where its own key leads: in the chain of
    its key's slot, as the first match of its key, with the key length it
    was created with. *)
Definition keys_findable (hashlittle : string → Z → Z → Z) (hashtable_seed : Z)
    (s : state) (t : hashtable_t) (cs : list (list loc)) : Prop :=
  ∀ i ls l it,
    cs !! i = Some ls → l ∈ ls → items s !! l = Some it →
    slot_index hashlittle hashtable_seed t (item_key it) s = Ok i s
    ∧ first_match (items s) (item_key it) ls = Some l
    ∧ item_keylen it = keylen_of (item_key it).

(** The state of a growth in progress.  [h0] is the heap when the growth
    started, [P] the items of the old table already migrated and freed, [R]
    the ones still to visit; [nt] is the new table, with chains [ncs], in
    the current state [sc].  The new table is well formed and its items
    findable, the old items still to visit are untouched, each migrated item
    has a copy with its key and value in the new table, and every item of
    the new table is such a copy. *)
Record migrating (hashlittle : string → Z → Z → Z) (hashtable_seed : Z)
    (t : hashtable_t) (h0 : gmap loc hash_item_t) (P R : list loc)
    (nt : hashtable_t) (sc : state) (ncs : list (list loc)) : Prop := {
  mg_wf : table_wf sc nt ncs;
  mg_findable : keys_findable hashlittle hashtable_seed sc nt ncs;
  mg_size : table_size nt = 2 * table_size t;
  mg_rest : ∀ l, l ∈ R → ∃ it, h0 !! l = Some it ∧ items sc !! l = Some it;
  mg_gone : ∀ l, l ∈ P → items sc !! l = None ∧ (l < next_loc sc)%nat;
  mg_apart : ∀ l, l ∈ R → l ∉ List.concat ncs;
  mg_moved : ∀ l it, l ∈ P → h0 !! l = Some it →
      ∃ j ls' l' it', ncs !! j = Some ls' ∧ l' ∈ ls' ∧ items sc !! l' = Some it'
                      ∧ item_key it' = item_key it ∧ item_value it' = item_value it;
  mg_origin : ∀ j ls' l' it', ncs !! j = Some ls' → l' ∈ ls' → items sc !! l' = Some it' →
      ∃ l it, l ∈ P ∧ h0 !! l = Some it ∧ item_key it = item_key it';
  mg_count : List.length (List.concat ncs) = List.length P;
  mg_alloc : allocations_succeed (3 * List.length R) sc;
  mg_bound : Z.of_nat (next_loc sc + List.length R) < size_max - 1
}.


(** ** Basic facts about the monad and the primitives *)

Lemma bind_ok {A B} (m : M A) (f : A → M B) s a s1 :
  m s = Ok a s1 → bind m f s = f a s1.
Proof. intros E. unfold bind. now rewrite E. Qed.

Lemma bind_inv {A B} (m : M A) (f : A → M B) s b s' :
  bind m f s = Ok b s' → ∃ a s1, m s = Ok a s1 ∧ f a s1 = Ok b s'.
Proof.
  unfold bind. destruct (m s) as [a s1| |]; intros E; try discriminate.
  now exists a, s1.
Qed.

Lemma load_ok s l it :
  items s !! l = Some it → load (Some l) s = Ok it s.
Proof. intros E. unfold load. now rewrite E. Qed.

(** Peels one layer off a hypothesis stating that a computation returned. *)
Ltac step_ok :=
  match goal with
  | H : bind _ _ _ = Ok _ _ |- _ =>
      apply bind_inv in H; destruct H as (? & ? & ? & H)
  | H : ret _ _ = Ok _ _ |- _ => unfold ret in H; simplify_eq
  | H : undefined _ = Ok _ _ |- _ => discriminate H
  | H : out_of_fuel _ = Ok _ _ |- _ => discriminate H
  | H : (match ?x with _ => _ end) _ = Ok _ _ |- _ => is_var x; destruct x
  | H : (match ?x with _ => _ end) _ = Ok _ _ |- _ => destruct x eqn:?
  end.


(** ** strncmp *)

Lemma ascii_eqb_refl c : Ascii.eqb c c = true.
Proof. now apply Ascii.eqb_eq. Qed.

(** A stored key that continues after the queried bytes compares equal:
    [strncmp] looks at the queried length only. *)
Lemma strncmp_prefix (key suffix : string) :
  strncmp (key ++ suffix)%string key (String.length key) = 0.
Proof.
  induction key as [|c key IH]; simpl; [reflexivity|].
  rewrite ascii_eqb_refl. destruct (Ascii.eqb c NUL); [reflexivity|exact IH].
Qed.

Lemma strncmp_prefix_sym (key suffix : string) :
  strncmp key (key ++ suffix)%string (String.length key) = 0.
Proof.
  induction key as [|c key IH]; simpl; [reflexivity|].
  rewrite ascii_eqb_refl. destruct (Ascii.eqb c NUL); [reflexivity|exact IH].
Qed.

Lemma string_app_empty (s : string) : (s ++ EmptyString)%string = s.
Proof.
  induction s as [|c s IH]; [reflexivity|].
  change (String c (s ++ EmptyString)%string = String c s). now rewrite IH.
Qed.

Example strncmp_shorter_query : strncmp "abc" "ab" 2 = 0.
Proof. reflexivity. Qed.

Example strncmp_longer_query : strncmp "ab" "abc" 3 = -99.
Proof. reflexivity. Qed.

Example strncmp_other_byte : strncmp "a" "b" 1 = -1.
Proof. reflexivity. Qed.

Lemma strncmp_same (key : string) : strncmp key key (String.length key) = 0.
Proof.
  pose proof (strncmp_prefix key EmptyString) as E.
  now rewrite string_app_empty in E.
Qed.

(** ** Properties of the table, for every hash function and seed *)

Section Properties.

Variable hashlittle : string → Z → Z → Z.
Variable hashtable_seed : Z.

Local Abbreviation slot_index := (slot_index hashlittle hashtable_seed).
Local Abbreviation _hashtable_insert := (_hashtable_insert hashlittle hashtable_seed).
Local Abbreviation _hashtable_grow := (_hashtable_grow hashlittle hashtable_seed).
Local Abbreviation _grow_items := (_grow_items hashlittle hashtable_seed).
Local Abbreviation _grow_slots := (_grow_slots hashlittle hashtable_seed).
Local Abbreviation hashtable_set := (hashtable_set hashlittle hashtable_seed).
Local Abbreviation _hashtable_find := (_hashtable_find hashlittle hashtable_seed).
Local Abbreviation hashtable_get := (hashtable_get hashlittle hashtable_seed).
Local Abbreviation hashtable_exists_pair := (hashtable_exists_pair hashlittle hashtable_seed).
Local Abbreviation _hashtable_remove := (_hashtable_remove hashlittle hashtable_seed).

(** *** The lookup shortcut *)

(** C2 (violated by the code): a bucket holding one item that never
    recorded a collision answers every lookup on its slot with that item,
    whatever the queried key is: [hashtable_get] returns the item's value
    and [hashtable_exists_pair] returns 1 without any key comparison. *)
Theorem find_single_item_ignores_key fuel t key s index bucket l it :
  slot_index t key s = Ok index s →
  buckets t !! index = Some (Some bucket) →
  had_collision bucket = false →
  bucket_size bucket = 1 →
  bucket_head bucket = Some l →
  items s !! l = Some it →
  hashtable_get fuel (Some t) key s = Ok (item_value it) s
  ∧ hashtable_exists_pair fuel (Some t) key s = Ok 1 s.
Proof.
  intros Hidx Hb Hcoll Hsize Hhead Hit.
  unfold hashtable_get, hashtable_exists_pair, _hashtable_find, bind.
  rewrite Hidx, Hb, Hcoll, Hsize, Hhead. simpl.
  rewrite Hit. split; reflexivity.
Qed.

(** *** Key comparison *)

(** A removal whose key compares equal to the head of its bucket unlinks
    that head: [head], [num_items] and the heap change, [tail] and [size]
    do not. *)
Lemma remove_matching_head fuel t key s index bucket l it deallocator :
  num_items t ≠ 0 →
  slot_index t key s = Ok index s →
  buckets t !! index = Some (Some bucket) →
  bucket_head bucket = Some l →
  items s !! l = Some it →
  strncmp key (item_key it) (String.length key) = 0 →
  _hashtable_remove (S fuel) (Some t) key deallocator s
  = Ok (0, Some (removed_table t index bucket it)) (removed_state s l it deallocator).
Proof.
  intros Hn Hidx Hb Hhead Hit Hcmp.
  unfold _hashtable_remove.
  apply Z.eqb_neq in Hn. rewrite Hn.
  rewrite (bind_ok _ _ _ _ _ Hidx), Hb, Hhead.
  unfold bind at 1. simpl.
  rewrite Hhead. unfold bind at 1. rewrite (load_ok _ _ _ Hit), Hcmp. simpl.
  rewrite decide_True by reflexivity.
  unfold bind, load, ret. rewrite Hit.
  unfold removed_state, removed_table.
  destruct deallocator; unfold release; simpl; rewrite Hit; simpl.
  - now rewrite <- app_assoc.
  - reflexivity.
Qed.

(** C1 (violated by the code): every comparison is
    [strncmp(stored, queried, keylen)] on the queried length alone, so a
    stored key that merely starts with the queried bytes is taken for the
    queried key.  With such an item at the head of the key's bucket,
    duplicate detection finds it and the insert is refused, get returns its
    value, exists returns 1 and remove destroys it. *)
Theorem longer_stored_key_is_matched fuel t key suffix v s index bucket l it deallocator :
  num_items t ≠ 0 →
  slot_index t key s = Ok index s →
  buckets t !! index = Some (Some bucket) →
  bucket_head bucket = Some l →
  items s !! l = Some it →
  item_key it = (key ++ suffix)%string →
  _key_in_bucket (S fuel) bucket key s = Ok (Some l) s
  ∧ _hashtable_insert (S fuel) t key v 0 deallocator s = Ok (-1, t) s
  ∧ hashtable_get fuel (Some t) key s = Ok (item_value it) s
  ∧ hashtable_exists_pair fuel (Some t) key s = Ok 1 s
  ∧ _hashtable_remove (S fuel) (Some t) key deallocator s
    = Ok (0, Some (removed_table t index bucket it)) (removed_state s l it deallocator).
Proof.
  intros Hn Hidx Hb Hhead Hit Hkey.
  assert (Hin : _key_in_bucket (S fuel) bucket key s = Ok (Some l) s).
  { unfold _key_in_bucket. rewrite Hhead. simpl.
    rewrite (bind_ok _ _ _ _ _ (load_ok _ _ _ Hit)).
    now rewrite Hkey, strncmp_prefix. }
  split; [exact Hin|]. split.
  { unfold _hashtable_insert.
    rewrite (bind_ok _ _ _ _ _ Hidx), Hb.
    now rewrite (bind_ok _ _ _ _ _ Hin). }
  assert (Hfind : _hashtable_find fuel (Some t) key s = Ok (Some l) s).
  { unfold _hashtable_find.
    rewrite (bind_ok _ _ _ _ _ Hidx), Hb.
    destruct (negb (had_collision bucket) && (bucket_size bucket =? 1)).
    - now rewrite Hhead.
    - rewrite Hhead, (bind_ok _ _ _ _ _ (load_ok _ _ _ Hit)).
      now rewrite Hkey, strncmp_prefix. }
  split; [|split].
  - unfold hashtable_get.
    rewrite (bind_ok _ _ _ _ _ Hfind).
    now rewrite (bind_ok _ _ _ _ _ (load_ok _ _ _ Hit)).
  - unfold hashtable_exists_pair.
    now rewrite (bind_ok _ _ _ _ _ Hfind).
  - apply remove_matching_head; try assumption.
    rewrite Hkey. apply strncmp_prefix_sym.
Qed.


(** *** Removal *)

Lemma remove_loop_stuck fuel t index bucket prev l it key deallocator s :
  items s !! l = Some it →
  strncmp key (item_key it) (String.length key) ≠ 0 →
  _hashtable_remove_loop fuel t index bucket prev (Some l) key deallocator s = OutOfFuel.
Proof.
  intros Hit Hcmp. apply Z.eqb_neq in Hcmp.
  induction fuel as [|fuel IH]; [reflexivity|].
  simpl. rewrite (bind_ok _ _ _ _ _ (load_ok _ _ _ Hit)), Hcmp. exact IH.
Qed.

(** C5 (violated by the code): when the head of the key's bucket does not
    compare equal to the key, the scan of [_hashtable_remove] never leaves
    that head: whatever the fuel, the call does not return, neither with
    NotFound nor with an item found deeper in the chain. *)
Theorem remove_scan_never_advances fuel t key s index bucket l it deallocator :
  num_items t ≠ 0 →
  slot_index t key s = Ok index s →
  buckets t !! index = Some (Some bucket) →
  bucket_head bucket = Some l →
  items s !! l = Some it →
  strncmp key (item_key it) (String.length key) ≠ 0 →
  _hashtable_remove fuel (Some t) key deallocator s = OutOfFuel.
Proof.
  intros Hn Hidx Hb Hhead Hit Hcmp.
  unfold _hashtable_remove.
  apply Z.eqb_neq in Hn. rewrite Hn.
  rewrite (bind_ok _ _ _ _ _ Hidx), Hb, Hhead.
  unfold bind. now rewrite (remove_loop_stuck _ _ _ _ _ _ _ _ _ _ Hit Hcmp).
Qed.

(** *** Insertion and growth leave the counters alone *)

Lemma same_shape_refl t : same_shape t t.
Proof. now repeat split. Qed.

Lemma same_shape_trans t1 t2 t3 :
  same_shape t1 t2 → same_shape t2 t3 → same_shape t1 t3.
Proof. unfold same_shape. intros (?&?&?) (?&?&?). repeat split; congruence. Qed.

Lemma same_shape_set_bucket t index b : same_shape t (set_bucket t index b).
Proof. now repeat split. Qed.

Lemma insert_same_shape fuel t key v override deallocator s r t' s' :
  _hashtable_insert fuel t key v override deallocator s = Ok (r, t') s' →
  same_shape t t'.
Proof.
  unfold _hashtable_insert. intros H.
  repeat step_ok; auto using same_shape_refl, same_shape_set_bucket.
Qed.


Lemma grow_items_same_shape fuel n new_table curr_item s new_table' s' :
  _grow_items fuel n new_table curr_item s = Ok new_table' s' →
  same_shape new_table new_table'.
Proof.
  revert new_table curr_item s.
  induction n as [|n IH]; intros new_table curr_item s H; simpl in H.
  - discriminate H.
  - destruct curr_item as [l|]; [|step_ok; apply same_shape_refl].
    do 5 step_ok.
    eapply same_shape_trans; [eapply insert_same_shape; eassumption|].
    eapply IH; eassumption.
Qed.

Lemma grow_slots_same_shape fuel table count i new_table s new_table' s' :
  _grow_slots fuel table count i new_table s = Ok new_table' s' →
  same_shape new_table new_table'.
Proof.
  revert i new_table s.
  induction count as [|count IH]; intros i new_table s H; simpl in H.
  - step_ok. apply same_shape_refl.
  - destruct (buckets table !! i) as [[curr_bucket|]|]; [| |discriminate H].
    + do 2 step_ok.
      eapply same_shape_trans; [eapply grow_items_same_shape; eassumption|].
      eapply IH; eassumption.
    + eapply IH; eassumption.
Qed.

Lemma create_shape initial_size max_loadfactor s t s' :
  hashtable_create initial_size max_loadfactor s = Ok (Some t) s' →
  table_size t = initial_size ∧ num_items t = 0 ∧ max_load_factor t = max_loadfactor.
Proof.
  unfold hashtable_create. intros H.
  repeat step_ok. now repeat split.
Qed.

(** The table [_hashtable_grow] hands back: twice the slots, the same load
    factor, and the item count [hashtable_create] gave it. *)
Lemma grow_shape fuel t s t' s' :
  _hashtable_grow fuel t s = Ok (Some t') s' →
  table_size t' = wrap_size (table_size t * HASHTABLE_GROWTH_FACTOR)
  ∧ num_items t' = 0
  ∧ max_load_factor t' = max_load_factor t.
Proof.
  unfold _hashtable_grow. intros H.
  step_ok. destruct x as [nt|]; [|step_ok; discriminate].
  do 4 step_ok.
  match goal with E : hashtable_create _ _ _ = _ |- _ =>
    apply create_shape in E; destruct E as (Es & En & Em) end.
  match goal with E : _grow_slots _ _ _ _ _ _ = _ |- _ =>
    apply grow_slots_same_shape in E; destruct E as (Es' & En' & Em') end.
  repeat split; congruence.
Qed.


(** *** [hashtable_set]: result codes and growth *)

Lemma set_after_insert fuel t key v replace deallocator s r t1 s1 :
  _hashtable_insert fuel t key v replace deallocator s = Ok (r, t1) s1 →
  hashtable_set fuel (Some t) key v replace deallocator s
  = (if r =? 0
     then if max_load_factor (incr_num_items t1)
             <=? num_items (incr_num_items t1) / table_size (incr_num_items t1)
          then bind (_hashtable_grow fuel (incr_num_items t1)) (after_grow (incr_num_items t1))
          else ret (-1, Some (incr_num_items t1))
     else ret (-1, Some t1)) s1.
Proof. intros H. unfold hashtable_set. now rewrite (bind_ok _ _ _ _ _ H). Qed.

Lemma grow_fails_on_allocation fuel t s plan :
  alloc_plan s = false :: plan →
  _hashtable_grow fuel t s = Ok None (with_plan plan s).
Proof.
  intros Hp. unfold _hashtable_grow, hashtable_create, bind, malloc.
  now rewrite Hp.
Qed.

(** C4 (violated by the code): [hashtable_set] answers 0 only on the path
    where a growth was run and succeeded.  A call whose insert overwrote
    the value (insert result 1), a call whose insert created the item
    without reaching the threshold, a call whose growth failed on
    allocation and a call whose insert failed all return the same -1; in
    the growth-failure case the table keeps the new item and its
    capacity. *)
Theorem set_returns_error_code_on_success fuel t key v replace deallocator s r t1 s1 :
  _hashtable_insert fuel t key v replace deallocator s = Ok (r, t1) s1 →
  (r = 1 →
     hashtable_set fuel (Some t) key v replace deallocator s = Ok (-1, Some t1) s1)
  ∧ (r = 0 →
     num_items (incr_num_items t1) / table_size t1 < max_load_factor t1 →
     hashtable_set fuel (Some t) key v replace deallocator s
     = Ok (-1, Some (incr_num_items t1)) s1)
  ∧ (r = 0 →
     max_load_factor t1 ≤ num_items (incr_num_items t1) / table_size t1 →
     ∀ plan, alloc_plan s1 = false :: plan →
     hashtable_set fuel (Some t) key v replace deallocator s
     = Ok (-1, Some (incr_num_items t1)) (with_plan plan s1))
  ∧ (r = -1 →
     hashtable_set fuel (Some t) key v replace deallocator s = Ok (-1, Some t1) s1).
Proof.
  intros H. rewrite (set_after_insert _ _ _ _ _ _ _ _ _ _ H).
  repeat split.
  - now intros ->.
  - intros -> Hlt. apply Z.leb_gt in Hlt. simpl in *.
    now rewrite Hlt.
  - intros -> Hle plan Hp. apply Z.leb_le in Hle. simpl in *.
    rewrite Hle.
    unfold bind. now rewrite (grow_fails_on_allocation _ _ _ _ Hp).
  - now intros ->.
Qed.

(** C3 (violated by the code): a [hashtable_set] that returns 0 has grown
    the table, and the table it hands back has [num_items = 0], although
    the table counted [num_items t + 1] items when the growth started. *)
Theorem growth_resets_item_count fuel t key v replace deallocator s t' s' :
  0 ≤ num_items t →
  hashtable_set fuel (Some t) key v replace deallocator s = Ok (0, Some t') s' →
  num_items t' = 0 ∧ num_items t' ≠ num_items t + 1.
Proof.
  intros Hn H.
  assert (E : num_items t' = 0); [|split; [exact E|lia]].
  unfold hashtable_set in H. repeat step_ok.
  match goal with E : _hashtable_grow _ _ _ = _ |- _ =>
    now apply grow_shape in E end.
Qed.

(** *** Duplicate detection *)

Lemma key_in_bucket_finds_stored fuel key s cur n l it :
  chain_reaches (items s) cur n l →
  items s !! l = Some it →
  item_key it = key →
  (n < fuel)%nat →
  ∃ found, _key_in_bucket_loop fuel cur key s = Ok (Some found) s.
Proof.
  intros Hc Hit Hkey. revert fuel.
  induction Hc as [l it' Hl|l it' n l' Hl Hc IH]; intros fuel Hf.
  - destruct fuel as [|fuel]; [lia|]. simpl.
    rewrite (bind_ok _ _ _ _ _ (load_ok _ _ _ Hl)).
    assert (it' = it) as -> by congruence.
    rewrite Hkey, strncmp_same. simpl. eauto.
  - destruct fuel as [|fuel]; [lia|]. simpl.
    rewrite (bind_ok _ _ _ _ _ (load_ok _ _ _ Hl)).
    destruct (strncmp (item_key it') key (String.length key) =? 0).
    + eauto.
    + apply IH; [assumption|lia].
Qed.

(** C8: when the chain of the key's bucket holds an item with exactly this
    key, [hashtable_set] with [replace = 0] returns -1 and changes nothing:
    the table (count, slots, buckets) and the state (every item with its
    value and link, the event log) are the ones it was given. *)
Theorem set_no_replace_keeps_present_key fuel t key v deallocator s index bucket n l it :
  slot_index t key s = Ok index s →
  buckets t !! index = Some (Some bucket) →
  chain_reaches (items s) (bucket_head bucket) n l →
  items s !! l = Some it →
  item_key it = key →
  (n < fuel)%nat →
  hashtable_set fuel (Some t) key v 0 deallocator s = Ok (-1, Some t) s.
Proof.
  intros Hidx Hb Hc Hit Hkey Hf.
  destruct (key_in_bucket_finds_stored _ _ _ _ _ _ _ Hc Hit Hkey Hf) as [found Hfound].
  assert (Hins : _hashtable_insert fuel t key v 0 deallocator s = Ok (-1, t) s).
  { unfold _hashtable_insert.
    rewrite (bind_ok _ _ _ _ _ Hidx), Hb.
    unfold _key_in_bucket. now rewrite (bind_ok _ _ _ _ _ Hfound). }
  now rewrite (set_after_insert _ _ _ _ _ _ _ _ _ _ Hins).
Qed.

(** *** Lookup after removal *)

Lemma slot_index_same_size t t' key s s' index :
  table_size t' = table_size t →
  slot_index t key s = Ok index s →
  slot_index t' key s' = Ok index s'.
Proof.
  unfold slot_index. intros ->.
  destruct (table_size t =? 0); [discriminate|].
  unfold ret. now intros [= <-].
Qed.

(** C6 (violated by the code): removal moves [head] but leaves [tail],
    [size] and [had_collision] as they were.  When the removed key was the
    last item of a bucket that had recorded a collision, the bucket stays in
    its slot with a NULL head, and the next get or exists for that key
    dereferences that NULL head instead of reporting not-found. *)
Theorem lookup_after_removing_last_item fuel t key s index bucket l it deallocator :
  num_items t ≠ 0 →
  slot_index t key s = Ok index s →
  buckets t !! index = Some (Some bucket) →
  bucket_head bucket = Some l →
  items s !! l = Some it →
  item_key it = key →
  item_next it = None →
  had_collision bucket = true →
  _hashtable_remove (S fuel) (Some t) key deallocator s
  = Ok (0, Some (removed_table t index bucket it)) (removed_state s l it deallocator)
  ∧ num_items (removed_table t index bucket it) = wrap_size (num_items t - 1)
  ∧ hashtable_get fuel (Some (removed_table t index bucket it)) key
      (removed_state s l it deallocator) = Undefined
  ∧ hashtable_exists_pair fuel (Some (removed_table t index bucket it)) key
      (removed_state s l it deallocator) = Undefined.
Proof.
  intros Hn Hidx Hb Hhead Hit Hkey Hnext Hcoll.
  split; [|split; [reflexivity|]].
  { apply remove_matching_head; try assumption.
    rewrite Hkey. apply strncmp_same. }
  assert (Hfind : _hashtable_find fuel (Some (removed_table t index bucket it)) key
                    (removed_state s l it deallocator) = Undefined).
  { unfold _hashtable_find.
    rewrite (bind_ok _ _ _ index (removed_state s l it deallocator)).
    2:{ eapply slot_index_same_size; [|exact Hidx]. reflexivity. }
    unfold removed_table. simpl.
    rewrite list_lookup_insert_eq by (eapply lookup_lt_Some; exact Hb).
    simpl. rewrite Hcoll, Hnext. reflexivity. }
  unfold hashtable_get, hashtable_exists_pair, bind.
  now rewrite Hfind.
Qed.


End Properties.

(** ** The seed *)

(** C9 (violated by the code): with the seed still unset, a non-zero
    candidate is not adopted: the seed stays 0.  The other two cases are as
    documented: a zero candidate stores the generated seed, and a seed that
    is set is left alone. *)
Theorem set_hashtable_seed_ignores_candidate env hashtable_seed new_seed :
  (hashtable_seed = 0 → new_seed ≠ 0 →
     set_hashtable_seed env hashtable_seed new_seed = 0)
  ∧ (hashtable_seed = 0 → new_seed = 0 →
     set_hashtable_seed env hashtable_seed new_seed = pid_seed_generate env)
  ∧ (hashtable_seed ≠ 0 →
     set_hashtable_seed env hashtable_seed new_seed = hashtable_seed).
Proof.
  unfold set_hashtable_seed. repeat split.
  - intros -> Hc. apply Z.eqb_neq in Hc. now rewrite Hc.
  - now intros -> ->.
  - intros Hs. apply Z.eqb_neq in Hs. now rewrite Hs.
Qed.

(** ** The concrete tables are reachable *)

Lemma slot_index_one_slot hashlittle hashtable_seed t key s :
  table_size t = 1 → slot_index hashlittle hashtable_seed t key s = Ok 0%nat s.
Proof.
  intros E. unfold slot_index. rewrite E. simpl.
  now rewrite Z.mod_1_r.
Qed.

(** In a one-slot table the hash function plays no part. *)
Lemma insert_one_slot hashlittle hashtable_seed fuel t key v override deallocator s :
  table_size t = 1 →
  _hashtable_insert hashlittle hashtable_seed fuel t key v override deallocator s
  = _hashtable_insert sum_hash 0 fuel t key v override deallocator s.
Proof.
  intros E. unfold _hashtable_insert, bind.
  now rewrite !(slot_index_one_slot _ _ _ _ _ E).
Qed.

Lemma remove_one_slot hashlittle hashtable_seed fuel t key deallocator s :
  table_size t = 1 →
  _hashtable_remove hashlittle hashtable_seed fuel (Some t) key deallocator s
  = _hashtable_remove sum_hash 0 fuel (Some t) key deallocator s.
Proof.
  intros E. unfold _hashtable_remove.
  destruct (num_items t =? 0); [reflexivity|].
  unfold bind. now rewrite !(slot_index_one_slot _ _ _ _ _ E).
Qed.

(** The tables with one slot are what the calls leave for every hash
    function. *)
Lemma one_slot_tables_reached hashlittle hashtable_seed fuel :
  hashtable_create 1 100 initial_state = Ok (Some one_slot_empty) initial_state
  ∧ hashtable_set hashlittle hashtable_seed (S fuel) (Some one_slot_empty) "a" 111 0 false
      initial_state = Ok (-1, Some single_a_table) single_a_state
  ∧ hashtable_set hashlittle hashtable_seed (S fuel) (Some one_slot_empty) "abc" 111 0 false
      initial_state = Ok (-1, Some abc_table) abc_state
  ∧ hashtable_set hashlittle hashtable_seed (S (S fuel)) (Some abc_table) "x" 222 0 false
      abc_state = Ok (-1, Some abc_x_table) abc_x_state
  ∧ hashtable_set hashlittle hashtable_seed (S (S fuel)) (Some single_a_table) "b" 222 0 false
      single_a_state = Ok (-1, Some a_b_table) a_b_state
  ∧ _hashtable_remove hashlittle hashtable_seed (S fuel) (Some a_b_table) "a" false
      a_b_state = Ok (0, Some only_b_table) only_b_state.
Proof.
  split; [vm_compute; reflexivity|].
  split.
  { rewrite (set_after_insert _ _ _ _ _ _ _ _ initial_state 0
               (Table 1 0 100 [Some single_a_bucket]) single_a_state).
    - vm_compute; reflexivity.
    - rewrite insert_one_slot by reflexivity. vm_compute; reflexivity. }
  split.
  { rewrite (set_after_insert _ _ _ _ _ _ _ _ initial_state 0
               (Table 1 0 100 (buckets abc_table)) abc_state).
    - vm_compute; reflexivity.
    - rewrite insert_one_slot by reflexivity. vm_compute; reflexivity. }
  split.
  { rewrite (set_after_insert _ _ _ _ _ _ _ _ abc_state 0
               (Table 1 1 100 (buckets abc_x_table)) abc_x_state).
    - vm_compute; reflexivity.
    - rewrite insert_one_slot by reflexivity. vm_compute; reflexivity. }
  split.
  { rewrite (set_after_insert _ _ _ _ _ _ _ _ single_a_state 0
               (Table 1 1 100 (buckets a_b_table)) a_b_state).
    - vm_compute; reflexivity.
    - rewrite insert_one_slot by reflexivity. vm_compute; reflexivity. }
  rewrite remove_one_slot by reflexivity. vm_compute; reflexivity.
Qed.

(** The tables with two slots, under [sum_hash] and seed 0. *)
Lemma two_slot_tables_reached :
  hashtable_create 2 1 initial_state = Ok (Some two_slot_empty) initial_state
  ∧ hashtable_set sum_hash 0 2 (Some two_slot_empty) "a" 111 0 false initial_state
    = Ok (-1, Some two_slot_a_table) two_slot_a_state
  ∧ _hashtable_insert sum_hash 0 2 two_slot_a_table "b" 222 0 false two_slot_a_state
    = Ok (0, two_slot_full_inserted) two_slot_full_state
  ∧ hashtable_set sum_hash 0 2 (Some two_slot_a_table) "b" 222 0 false two_slot_a_state
    = Ok (0, Some grown_table) grown_state.
Proof.
  split; [vm_compute; reflexivity|].
  split; [vm_compute; reflexivity|].
  split; vm_compute; reflexivity.
Qed.

(** ** The theorems at concrete inputs *)

Ltac by_evaluation := vm_compute; first [reflexivity | discriminate].

(** C1 at a concrete input: the table holds "abc" and "x"; the key "ab" is
    found by duplicate detection, get, exists and remove. *)
Lemma longer_stored_key_is_matched_witness :
  _key_in_bucket 1 abc_x_bucket "ab" abc_x_state = Ok (Some 0%nat) abc_x_state
  ∧ _hashtable_insert sum_hash 0 1 abc_x_table "ab" 333 0 false abc_x_state
    = Ok (-1, abc_x_table) abc_x_state
  ∧ hashtable_get sum_hash 0 0 (Some abc_x_table) "ab" abc_x_state
    = Ok (item_value abc_item) abc_x_state
  ∧ hashtable_exists_pair sum_hash 0 0 (Some abc_x_table) "ab" abc_x_state
    = Ok 1 abc_x_state
  ∧ _hashtable_remove sum_hash 0 1 (Some abc_x_table) "ab" false abc_x_state
    = Ok (0, Some (removed_table abc_x_table 0 abc_x_bucket abc_item))
         (removed_state abc_x_state 0%nat abc_item false).
Proof.
  refine (longer_stored_key_is_matched sum_hash 0 0 abc_x_table "ab" "c" 333
            abc_x_state 0%nat abc_x_bucket 0%nat abc_item false _ _ _ _ _ _);
    by_evaluation.
Defined.

(** C2 at a concrete input: the table holds "a" only; "b" is not stored, and
    get returns the value of "a" for it. *)
Lemma find_single_item_ignores_key_witness :
  hashtable_get sum_hash 0 0 (Some single_a_table) "b" single_a_state
  = Ok (item_value single_a_item) single_a_state
  ∧ hashtable_exists_pair sum_hash 0 0 (Some single_a_table) "b" single_a_state
    = Ok 1 single_a_state.
Proof.
  refine (find_single_item_ignores_key sum_hash 0 0 single_a_table "b" single_a_state
            0%nat single_a_bucket 0%nat single_a_item _ _ _ _ _ _);
    by_evaluation.
Defined.

(** C3 at a concrete input: the set of "b" grows the two-slot table holding
    "a"; the grown table stores both keys and counts none. *)
Lemma growth_resets_item_count_witness :
  num_items grown_table = 0 ∧ num_items grown_table ≠ num_items two_slot_a_table + 1.
Proof.
  refine (growth_resets_item_count sum_hash 0 2 two_slot_a_table "b" 222 0 false
            two_slot_a_state grown_table grown_state _ _);
    by_evaluation.
Defined.

(** C5 at a concrete input: removing "x", stored behind "abc", does not
    return within 1000 passes (nor within any other number). *)
Lemma remove_scan_never_advances_witness :
  _hashtable_remove sum_hash 0 1000 (Some abc_x_table) "x" false abc_x_state = OutOfFuel.
Proof.
  refine (remove_scan_never_advances sum_hash 0 1000 abc_x_table "x" abc_x_state
            0%nat abc_x_bucket 0%nat abc_item false _ _ _ _ _ _);
    by_evaluation.
Defined.

(** C6 at a concrete input: "a" and "b" were stored and "a" removed; removing
    "b" succeeds, and looking "b" up afterwards is undefined. *)
Lemma lookup_after_removing_last_item_witness :
  _hashtable_remove sum_hash 0 1 (Some only_b_table) "b" false only_b_state
  = Ok (0, Some (removed_table only_b_table 0 only_b_bucket only_b_item))
       (removed_state only_b_state 1%nat only_b_item false)
  ∧ num_items (removed_table only_b_table 0 only_b_bucket only_b_item)
    = wrap_size (num_items only_b_table - 1)
  ∧ hashtable_get sum_hash 0 0
      (Some (removed_table only_b_table 0 only_b_bucket only_b_item)) "b"
      (removed_state only_b_state 1%nat only_b_item false) = Undefined
  ∧ hashtable_exists_pair sum_hash 0 0
      (Some (removed_table only_b_table 0 only_b_bucket only_b_item)) "b"
      (removed_state only_b_state 1%nat only_b_item false) = Undefined.
Proof.
  refine (lookup_after_removing_last_item sum_hash 0 0 only_b_table "b" only_b_state
            0%nat only_b_bucket 1%nat only_b_item false _ _ _ _ _ _ _ _);
    by_evaluation.
Defined.

(** C4 at concrete inputs: creating "a" in the empty one-slot table and
    overwriting "a" with replace = 1 both return -1; so does the set of "b"
    whose growth is refused, which leaves "b" stored in the two-slot table. *)
Lemma set_returns_error_code_on_success_witness :
  hashtable_set sum_hash 0 1 (Some one_slot_empty) "a" 111 0 false initial_state
  = Ok (-1, Some (incr_num_items (Table 1 0 100 [Some single_a_bucket]))) single_a_state
  ∧ hashtable_set sum_hash 0 1 (Some single_a_table) "a" 999 1 false single_a_state
    = Ok (-1, Some single_a_table) (State {[ 0%nat := Item None "a" 999 1 ]} 1%nat [] [])
  ∧ hashtable_set sum_hash 0 2 (Some two_slot_a_table) "b" 222 0 false
      (with_plan growth_refused two_slot_a_state)
    = Ok (-1, Some (incr_num_items two_slot_full_inserted))
         (with_plan [] (with_plan [false] two_slot_full_state)).
Proof.
  split; [|split].
  - refine (proj1 (proj2 (set_returns_error_code_on_success sum_hash 0 1 one_slot_empty
                            "a" 111 0 false initial_state 0
                            (Table 1 0 100 [Some single_a_bucket]) single_a_state _))
              _ _); by_evaluation.
  - refine (proj1 (set_returns_error_code_on_success sum_hash 0 1 single_a_table
                     "a" 999 1 false single_a_state 1 single_a_table
                     (State {[ 0%nat := Item None "a" 999 1 ]} 1%nat [] []) _) _);
      by_evaluation.
  - refine (proj1 (proj2 (proj2 (set_returns_error_code_on_success sum_hash 0 2
                     two_slot_a_table "b" 222 0 false
                     (with_plan growth_refused two_slot_a_state) 0 two_slot_full_inserted
                     (with_plan [false] two_slot_full_state) _))) _ _ [] _);
      by_evaluation.
Defined.

(** C8 at a concrete input: "x" is the second item of the bucket; setting it
    again without replace returns -1 and leaves table and state as they
    were. *)
Lemma set_no_replace_keeps_present_key_witness :
  hashtable_set sum_hash 0 2 (Some abc_x_table) "x" 999 0 true abc_x_state
  = Ok (-1, Some abc_x_table) abc_x_state.
Proof.
  refine (set_no_replace_keeps_present_key sum_hash 0 2 abc_x_table "x" 999 true
            abc_x_state 0%nat abc_x_bucket 1%nat 1%nat x_item _ _ _ _ _ _).
  - by_evaluation.
  - by_evaluation.
  - refine (chain_step _ 0%nat abc_item 0%nat 1%nat _ _); [by_evaluation|].
    refine (chain_here _ 1%nat x_item _). by_evaluation.
  - by_evaluation.
  - reflexivity.
  - apply Nat.lt_succ_diag_r.
Defined.

(** C9 at a concrete input: the seed is unset and the candidate is 42; the
    seed is still 0 after the call. *)
Lemma set_hashtable_seed_ignores_candidate_witness :
  set_hashtable_seed (SeedEnv true true false 1700000000 123456 1700000000 4242) 0 42 = 0.
Proof.
  refine (proj1 (set_hashtable_seed_ignores_candidate
                   (SeedEnv true true false 1700000000 123456 1700000000 4242) 0 42) _ _);
    by_evaluation.
Defined.

(** ** Further properties of the code *)

Lemma same_heap_refl s : same_heap s s.
Proof. now repeat split. Qed.

Lemma same_heap_trans s1 s2 s3 : same_heap s1 s2 → same_heap s2 s3 → same_heap s1 s3.
Proof. unfold same_heap. intros (?&?&?) (?&?&?). repeat split; congruence. Qed.

Lemma malloc_same_heap s b s' : malloc s = Ok b s' → same_heap s s'.
Proof.
  unfold malloc. destruct (alloc_plan s); intros [= <- <-]; now repeat split.
Qed.

Lemma malloc_succeeds n s :
  allocations_succeed (S n) s →
  malloc s = Ok true (after_mallocs 1 s) ∧ allocations_succeed n (after_mallocs 1 s).
Proof.
  unfold allocations_succeed, malloc, after_mallocs, with_plan.
  destruct s as [h nl plan ev]. simpl.
  destruct plan as [|b plan]; simpl.
  - intros _. split; [reflexivity|]. rewrite take_nil. constructor.
  - intros H. apply Forall_cons in H as [-> H]. split; [reflexivity|].
    now rewrite drop_0.
Qed.

Lemma key_in_bucket_loop_reads fuel temp key s r s' :
  _key_in_bucket_loop fuel temp key s = Ok r s' → s' = s.
Proof.
  revert temp s. induction fuel as [|fuel IH]; intros temp s H; simpl in H.
  - discriminate H.
  - destruct temp as [l|]; [|now step_ok].
    step_ok. unfold load in *. destruct (items s !! l); [|discriminate].
    simplify_eq. destruct (strncmp _ _ _ =? 0).
    + now step_ok.
    + eauto.
Qed.

(** *** Chains *)

Lemma char_code_inj c1 c2 : char_code c1 = char_code c2 → c1 = c2.
Proof.
  unfold char_code. intros H. apply N2Z.inj in H.
  rewrite <- (ascii_N_embedding c1), <- (ascii_N_embedding c2). now rewrite H.
Qed.

Lemma strncmp_zero_sym s1 s2 n : (strncmp s1 s2 n =? 0) = (strncmp s2 s1 n =? 0).
Proof.
  revert s1 s2. induction n as [|n IH]; intros s1 s2; simpl; [reflexivity|].
  destruct (Ascii.eqb (first_char s1) (first_char s2)) eqn:E.
  - apply Ascii.eqb_eq in E. rewrite E, ascii_eqb_refl.
    destruct (Ascii.eqb (first_char s2) NUL); [reflexivity|apply IH].
  - assert (E' : Ascii.eqb (first_char s2) (first_char s1) = false).
    { apply Ascii.eqb_neq. apply Ascii.eqb_neq in E. congruence. }
    rewrite E'. apply Ascii.eqb_neq in E.
    assert (char_code (first_char s1) ≠ char_code (first_char s2)).
    { intros Hc. apply E. now apply char_code_inj. }
    transitivity false; [|symmetry]; apply Z.eqb_neq; lia.
Qed.

Lemma is_chain_live h p ls l :
  is_chain h p ls → l ∈ ls → is_Some (h !! l).
Proof.
  revert p. induction ls as [|l0 ls IH]; intros p Hc Hin; [set_solver|].
  destruct Hc as (-> & it & Hit & Hc).
  apply elem_of_cons in Hin as [->|Hin]; [eauto|]. eapply IH; eassumption.
Qed.

(** A chain only depends on the links of its own items. *)
Lemma is_chain_ext h h' p ls :
  (∀ l it, l ∈ ls → h !! l = Some it →
           ∃ it', h' !! l = Some it' ∧ item_next it' = item_next it) →
  is_chain h p ls → is_chain h' p ls.
Proof.
  revert p. induction ls as [|l ls IH]; intros p Hext Hc; [exact Hc|].
  destruct Hc as (-> & it & Hit & Hc).
  destruct (Hext l it) as (it' & Hit' & Hn); [set_solver|assumption|].
  split; [reflexivity|]. exists it'. split; [assumption|].
  rewrite Hn. apply IH; [|assumption].
  intros l0 it0 Hin. apply Hext. set_solver.
Qed.

(** The first match only depends on the keys of the chain's items. *)
Lemma first_match_ext h h' key ls :
  (∀ l it, l ∈ ls → h !! l = Some it →
           ∃ it', h' !! l = Some it' ∧ item_key it' = item_key it) →
  (∀ l, l ∈ ls → is_Some (h !! l)) →
  first_match h' key ls = first_match h key ls.
Proof.
  induction ls as [|l ls IH]; intros Hext Hlive; [reflexivity|].
  destruct (Hlive l) as [it Hit]; [set_solver|].
  destruct (Hext l it) as (it' & Hit' & Hk); [set_solver|assumption|].
  simpl. rewrite Hit, Hit'. unfold key_matches. rewrite Hk.
  destruct (strncmp _ _ _ =? 0); [reflexivity|].
  apply IH; intros; [apply Hext|apply Hlive]; set_solver.
Qed.

Lemma first_match_elem h key ls l :
  first_match h key ls = Some l →
  l ∈ ls ∧ ∃ it, h !! l = Some it ∧ key_matches key it = true.
Proof.
  induction ls as [|l0 ls IH]; [discriminate|]. simpl.
  destruct (h !! l0) as [it|] eqn:Hit; [|discriminate].
  destruct (key_matches key it) eqn:Hm.
  - intros [= <-]. split; [set_solver|eauto].
  - intros H. destruct (IH H) as (? & ?). split; [set_solver|assumption].
Qed.

(** [_key_in_bucket] returns the first match of the chain. *)
Lemma key_in_bucket_loop_spec fuel p key s ls :
  is_chain (items s) p ls →
  (List.length ls < fuel)%nat →
  _key_in_bucket_loop fuel p key s = Ok (first_match (items s) key ls) s.
Proof.
  revert fuel p. induction ls as [|l ls IH]; intros fuel p Hc Hf.
  - simpl in Hc. subst p. destruct fuel; [simpl in Hf; lia|reflexivity].
  - destruct Hc as (-> & it & Hit & Hc).
    destruct fuel as [|fuel]; [simpl in Hf; lia|]. simpl.
    rewrite (bind_ok _ _ _ _ _ (load_ok _ _ _ Hit)), Hit.
    unfold key_matches. destruct (strncmp _ _ _ =? 0); [reflexivity|].
    apply IH; [assumption|simpl in Hf; lia].
Qed.

Lemma last_cons_elem (l : loc) ls : ∃ x, last (l :: ls) = Some x ∧ (ls ≠ [] → x ∈ ls).
Proof.
  revert l. induction ls as [|l' ls IH]; intros l.
  - exists l. split; [reflexivity|congruence].
  - destruct (IH l') as (x & Hx & Hin). exists x.
    split; [rewrite last_cons_cons; exact Hx|].
    intros _. destruct ls; [simpl in Hx; set_solver|set_solver].
Qed.

(** The scan of [_hashtable_find] past the head returns the first match of
    the rest of the chain. *)
Lemma find_loop_spec fuel b key s l ls :
  is_chain (items s) (Some l) (l :: ls) →
  NoDup (l :: ls) →
  bucket_tail b = last (l :: ls) →
  (List.length ls < fuel)%nat →
  _hashtable_find_loop fuel b (Some l) key s = Ok (first_match (items s) key ls) s.
Proof.
  revert fuel l. induction ls as [|l' ls IH]; intros fuel l Hc Hnd Ht Hf.
  - destruct fuel as [|fuel]; [simpl in Hf; lia|]. simpl.
    rewrite decide_True by (now rewrite Ht). reflexivity.
  - destruct fuel as [|fuel]; [simpl in Hf; lia|]. simpl.
    destruct Hc as (_ & it & Hit & Hc').
    pose proof Hc' as (Hn & it' & Hit' & Hc'').
    rewrite decide_False.
    2:{ rewrite Ht, last_cons_cons.
        destruct (last_cons_elem l' ls) as (x & Hx & Hin). rewrite Hx.
        intros [= ->]. apply NoDup_cons in Hnd as [Hnotin _].
        apply Hnotin. destruct ls; [simpl in Hx; set_solver|].
        apply elem_of_cons. right. now apply Hin. }
    rewrite (bind_ok _ _ _ _ _ (load_ok _ _ _ Hit)), Hn.
    rewrite (bind_ok _ _ _ _ _ (load_ok _ _ _ Hit')), Hit'.
    unfold key_matches. rewrite (strncmp_zero_sym key).
    destruct (strncmp _ _ _ =? 0); [reflexivity|].
    apply IH.
    + split; [reflexivity|]. exists it'. now split.
    + now apply NoDup_cons in Hnd as [_ ?].
    + now rewrite Ht, last_cons_cons.
    + simpl in Hf; lia.
Qed.

Lemma is_chain_snoc h p ls tl itl nl itn :
  is_chain h p ls →
  NoDup ls →
  last ls = Some tl →
  h !! tl = Some itl →
  nl ∉ ls →
  item_next itn = None →
  is_chain (<[tl := set_next (Some nl) itl]> (<[nl := itn]> h)) p (ls ++ [nl]).
Proof.
  intros Hc Hnd Hl Htl Hnl Hn. revert p Hc Hnd Hl Hnl.
  induction ls as [|l ls IH]; intros p Hc Hnd Hl Hnl; [discriminate|].
  destruct Hc as (-> & it & Hit & Hc).
  apply NoDup_cons in Hnd as [Hnotin Hnd].
  assert (l ≠ nl) by set_solver.
  split; [reflexivity|].
  destruct ls as [|l' ls].
  - simpl in Hl. injection Hl as ->. assert (it = itl) as -> by congruence.
    exists (set_next (Some nl) itl). split; [apply lookup_insert_eq|].
    simpl. split; [reflexivity|]. exists itn. split; [|now rewrite Hn].
    rewrite lookup_insert_ne by congruence. apply lookup_insert_eq.
  - rewrite last_cons_cons in Hl.
    assert (l ≠ tl).
    { intros ->. apply Hnotin. now apply last_Some_elem_of. }
    exists it. split.
    + rewrite !lookup_insert_ne by congruence. exact Hit.
    + apply IH; [assumption..|set_solver].
Qed.

Lemma first_match_app h key ls ls' :
  (∀ l, l ∈ ls → is_Some (h !! l)) →
  first_match h key (ls ++ ls')
  = match first_match h key ls with
    | Some l => Some l
    | None => first_match h key ls'
    end.
Proof.
  induction ls as [|l ls IH]; intros Hlive; [reflexivity|].
  destruct (Hlive l) as [it Hit]; [set_solver|].
  simpl. rewrite Hit. destruct (key_matches key it); [reflexivity|].
  apply IH. intros; apply Hlive; set_solver.
Qed.

Lemma key_matches_created key v : key_matches key (created_item key v) = true.
Proof. unfold key_matches. simpl. now rewrite strncmp_same. Qed.

(** *** Item creation and linking *)

Lemma after_mallocs_twice s :
  after_mallocs 1 (after_mallocs 1 s) = after_mallocs 2 s.
Proof.
  unfold after_mallocs, with_plan. simpl. now rewrite drop_drop.
Qed.

Lemma hash_item_create_succeeds key v s :
  allocations_succeed 2 s →
  _hash_item_create key v s
  = Ok (Some (next_loc s))
       (State (<[next_loc s := created_item key v]> (items s)) (S (next_loc s))
              (drop 2 (alloc_plan s)) (events s)).
Proof.
  intros Ha. unfold _hash_item_create.
  destruct (malloc_succeeds _ _ Ha) as [E1 Ha1].
  rewrite (bind_ok _ _ _ _ _ E1). simpl. unfold _internal_strdup.
  destruct (malloc_succeeds _ _ Ha1) as [E2 _].
  unfold bind at 1. unfold bind at 1. rewrite E2. simpl.
  rewrite after_mallocs_twice. reflexivity.
Qed.

Lemma bucket_insert_links b nl s itn tl itl :
  items s !! nl = Some itn →
  bucket_tail b = Some tl →
  tl ≠ nl →
  items s !! tl = Some itl →
  _bucket_insert b (Some nl) s
  = Ok (0, Bucket (match bucket_head b with None => Some nl | Some _ => bucket_head b end)
                  (Some nl) (wrap_size (bucket_size b + 1))
                  (if (1 <? wrap_size (bucket_size b + 1)) && negb (had_collision b)
                   then true else had_collision b))
       (State (<[tl := set_next (Some nl) itl]> (<[nl := set_next None itn]> (items s)))
              (next_loc s) (alloc_plan s) (events s)).
Proof.
  intros Hn Ht Hne Htl. unfold _bucket_insert, bind, store.
  rewrite Hn, Ht. simpl. rewrite lookup_insert_ne by congruence.
  rewrite Htl. reflexivity.
Qed.

Lemma bucket_insert_stale_tail b nl s itn tl :
  items s !! nl = Some itn →
  bucket_tail b = Some tl →
  tl ≠ nl →
  items s !! tl = None →
  _bucket_insert b (Some nl) s = Undefined.
Proof.
  intros Hn Ht Hne Htl. unfold _bucket_insert, bind, store.
  rewrite Hn, Ht. simpl. rewrite lookup_insert_ne by congruence.
  now rewrite Htl.
Qed.

Lemma bucket_insert_first nl s itn :
  items s !! nl = Some itn →
  _bucket_insert _bucket_init (Some nl) s
  = Ok (0, Bucket (Some nl) (Some nl) 1 false)
       (State (<[nl := set_next None itn]> (items s))
              (next_loc s) (alloc_plan s) (events s)).
Proof.
  intros Hn. unfold _bucket_insert, bind, store. rewrite Hn. reflexivity.
Qed.

(** *** Well-formed tables *)

Lemma bucket_wf_ext h h' b ls :
  (∀ l it, l ∈ ls → h !! l = Some it →
           ∃ it', h' !! l = Some it' ∧ item_next it' = item_next it) →
  bucket_wf h b ls → bucket_wf h' b ls.
Proof.
  intros Hext [Hc Hne Ht Hnd Hsz Hsg].
  split; try assumption. now apply (is_chain_ext h).
Qed.

Lemma slot_wf_ext h h' n n' slot ls :
  (∀ l it, l ∈ ls → h !! l = Some it →
           ∃ it', h' !! l = Some it' ∧ item_next it' = item_next it) →
  (n ≤ n')%nat →
  slot_wf h n slot ls → slot_wf h' n' slot ls.
Proof.
  intros Hext Hn. destruct slot as [b|]; simpl; [|trivial].
  intros [Hwf Hsz]. split; [now apply (bucket_wf_ext h)|lia].
Qed.

Lemma table_wf_slot s t cs i slot :
  table_wf s t cs → buckets t !! i = Some slot →
  ∃ ls, cs !! i = Some ls ∧ slot_wf (items s) (next_loc s) slot ls.
Proof.
  intros Hwf Hb.
  destruct (lookup_lt_is_Some_2 cs i) as [ls Hls].
  { rewrite (twf_chains_len _ _ _ Hwf). eapply lookup_lt_Some; exact Hb. }
  exists ls. split; [assumption|]. eapply twf_chains; eassumption.
Qed.

Lemma table_wf_chain s t cs i ls :
  table_wf s t cs → cs !! i = Some ls →
  ∃ slot, buckets t !! i = Some slot ∧ slot_wf (items s) (next_loc s) slot ls.
Proof.
  intros Hwf Hls.
  destruct (lookup_lt_is_Some_2 (buckets t) i) as [slot Hb].
  { rewrite <- (twf_chains_len _ _ _ Hwf). eapply lookup_lt_Some; exact Hls. }
  exists slot. split; [assumption|]. eapply twf_chains; eassumption.
Qed.

Lemma table_wf_live s t cs i ls l :
  table_wf s t cs → cs !! i = Some ls → l ∈ ls → is_Some (items s !! l).
Proof.
  intros Hwf Hls Hin.
  destruct (table_wf_chain _ _ _ _ _ Hwf Hls) as ([b|] & _ & Hs); simpl in Hs.
  - destruct Hs as [Hb _]. eapply is_chain_live; [apply Hb|assumption].
  - subst. set_solver.
Qed.

(** Replacing the bucket of one slot keeps the table well formed when the
    new bucket is well formed, its chain avoids the other chains and the
    items of the other chains are untouched. *)
Lemma table_wf_update s t cs index b' ls' s1 :
  table_wf s t cs →
  (index < List.length (buckets t))%nat →
  bucket_wf (items s1) b' ls' →
  bucket_size b' ≤ Z.of_nat (next_loc s1) →
  (next_loc s ≤ next_loc s1)%nat →
  (∀ j a l it, j ≠ index → cs !! j = Some a → l ∈ a →
               items s !! l = Some it → items s1 !! l = Some it) →
  (∀ j a l, j ≠ index → cs !! j = Some a → l ∈ a → l ∉ ls') →
  (∀ l, is_Some (items s1 !! l) → (l < next_loc s1)%nat) →
  table_wf s1 (set_bucket t index b') (<[index := ls']> cs).
Proof.
  intros Hwf Hi Hb' Hsz Hnl Hkeep Hdisj Hfresh.
  pose proof (twf_chains_len _ _ _ Hwf) as Hlen.
  split; simpl.
  - apply (twf_size _ _ _ Hwf).
  - rewrite length_insert. apply (twf_slots _ _ _ Hwf).
  - now rewrite !length_insert.
  - intros i slot ls Hs Hc.
    destruct (decide (i = index)) as [->|Hne].
    + rewrite list_lookup_insert_eq in Hs by assumption.
      rewrite list_lookup_insert_eq in Hc by lia.
      simplify_eq. simpl. now split.
    + rewrite list_lookup_insert_ne in Hs by congruence.
      rewrite list_lookup_insert_ne in Hc by congruence.
      eapply slot_wf_ext; [| exact Hnl | eapply twf_chains; eassumption].
      intros l it Hin Hit. exists it. split; [|reflexivity].
      eapply Hkeep; eassumption.
  - intros i j a b l Hij Ha Hb Hin.
    destruct (decide (i = index)) as [->|Hi'];
      destruct (decide (j = index)) as [->|Hj']; try congruence.
    + rewrite list_lookup_insert_eq in Ha by lia.
      rewrite list_lookup_insert_ne in Hb by congruence.
      simplify_eq. intros Hin'. eapply Hdisj; [| exact Hb | exact Hin' | exact Hin].
      congruence.
    + rewrite list_lookup_insert_ne in Ha by congruence.
      rewrite list_lookup_insert_eq in Hb by lia.
      simplify_eq. eapply Hdisj; eassumption.
    + rewrite list_lookup_insert_ne in Ha by congruence.
      rewrite list_lookup_insert_ne in Hb by congruence.
      eapply (twf_disjoint _ _ _ Hwf i j); eassumption.
  - exact Hfresh.
Qed.

Lemma table_wf_next_free s t cs : table_wf s t cs → items s !! next_loc s = None.
Proof.
  intros Hwf. destruct (items s !! next_loc s) eqn:E; [|reflexivity].
  pose proof (twf_fresh _ _ _ Hwf (next_loc s) (mk_is_Some _ _ E)). lia.
Qed.

Lemma table_wf_same_slots s t t' cs :
  table_wf s t cs →
  table_size t' = table_size t →
  buckets t' = buckets t →
  table_wf s t' cs.
Proof.
  intros [H1 H2 H3 H4 H5 H6] Hs Hb. split; rewrite ?Hs, ?Hb; assumption.
Qed.

(** A heap change that keeps every item and its link keeps the table well
    formed. *)
Lemma table_wf_heap_ext s s1 t cs :
  table_wf s t cs →
  (∀ l it, items s !! l = Some it →
           ∃ it', items s1 !! l = Some it' ∧ item_next it' = item_next it) →
  (next_loc s ≤ next_loc s1)%nat →
  (∀ l, is_Some (items s1 !! l) → (l < next_loc s1)%nat) →
  table_wf s1 t cs.
Proof.
  intros [H1 H2 H3 H4 H5 H6] Hext Hn Hfresh. split; try assumption.
  intros i slot ls Hs Hc. eapply slot_wf_ext; [|exact Hn|eapply H4; eassumption].
  intros l it _ Hit. now apply Hext.
Qed.

Lemma first_match_kept h h' key ls :
  items_kept h h' →
  (∀ l, l ∈ ls → is_Some (h !! l)) →
  first_match h' key ls = first_match h key ls.
Proof.
  intros Hk Hlive. apply first_match_ext; [|assumption].
  intros l it _ Hit. destruct (Hk l it Hit) as (it' & ? & ? & _). eauto.
Qed.

(** *** Key comparison *)

Lemma strncmp_step s1 s2 n :
  strncmp s1 s2 (S n)
  = if Ascii.eqb (first_char s1) (first_char s2)
    then if Ascii.eqb (first_char s1) NUL then 0
         else strncmp (next_chars s1) (next_chars s2) n
    else char_code (first_char s1) - char_code (first_char s2).
Proof. reflexivity. Qed.

(** X12: for a queried key without NUL byte, a stored key compares equal
    exactly when it starts with the queried bytes: equal keys match, longer
    stored keys with that prefix match, and nothing else does. *)
Theorem nul_free_key_matches_prefix key stored :
  nul_free key = true →
  strncmp stored key (String.length key) = 0
  ↔ ∃ suffix, stored = (key ++ suffix)%string.
Proof.
  intros Hn. split.
  - revert stored Hn. induction key as [|c key IH]; intros stored Hn H.
    + exists stored. reflexivity.
    + simpl in Hn. apply andb_prop in Hn as [Hc Hn]. apply negb_true_iff in Hc.
      change (String.length (String c key)) with (S (String.length key)) in H.
      rewrite strncmp_step in H. cbn [first_char next_chars] in H.
      destruct (Ascii.eqb (first_char stored) c) eqn:E.
      * apply Ascii.eqb_eq in E. rewrite E, Hc in H.
        destruct stored as [|c' stored]; simpl in E.
        { subst c. now rewrite ascii_eqb_refl in Hc. }
        subst c'. cbn [next_chars] in H.
        destruct (IH stored Hn H) as [suffix ->]. now exists suffix.
      * exfalso. apply Ascii.eqb_neq in E.
        assert (char_code (first_char stored) ≠ char_code c)
          by (intros Hx; now apply char_code_inj in Hx).
        lia.
  - intros [suffix ->]. apply strncmp_prefix.
Qed.

(** X13: the comparison stops at a NUL byte: two keys with the same bytes up
    to and including a NUL compare equal whatever follows, at every
    length. *)
Theorem bytes_after_nul_are_ignored (p r1 r2 : string) (n : nat) :
  strncmp (p ++ String NUL r1)%string (p ++ String NUL r2)%string n = 0.
Proof.
  revert n. induction p as [|c p IH]; intros n.
  - destruct n; reflexivity.
  - destruct n as [|n]; [reflexivity|].
    change (strncmp (String c (p ++ String NUL r1)) (String c (p ++ String NUL r2)) (S n) = 0).
    simpl. rewrite ascii_eqb_refl. destruct (Ascii.eqb c NUL); [reflexivity|apply IH].
Qed.

(** *** The seed *)

Lemma lxor_u32 a b : 0 ≤ a < 2 ^ 32 → 0 ≤ b < 2 ^ 32 → 0 ≤ Z.lxor a b < 2 ^ 32.
Proof.
  intros Ha Hb.
  assert (H0 : 0 ≤ Z.lxor a b) by (apply Z.lxor_nonneg; lia).
  split; [assumption|].
  destruct (Z.eq_dec (Z.lxor a b) 0) as [->|Hne]; [lia|].
  apply Z.log2_lt_pow2; [lia|].
  eapply Z.le_lt_trans; [apply Z.log2_lxor; lia|].
  apply Z.max_lub_lt.
  - destruct (Z.eq_dec a 0) as [->|?]; [simpl; lia|apply Z.log2_lt_pow2; lia].
  - destruct (Z.eq_dec b 0) as [->|?]; [simpl; lia|apply Z.log2_lt_pow2; lia].
Qed.

Lemma wrap_u32_range z : 0 ≤ wrap_u32 z < 2 ^ 32.
Proof. unfold wrap_u32, uint32_max. apply Z.mod_pos_bound. lia. Qed.

(** X14: the generated seed fits in 32 bits, whatever the clock, the process
    id and the build configuration. *)
Theorem generated_seed_is_uint32 env : 0 ≤ pid_seed_generate env < 2 ^ 32.
Proof.
  unfold pid_seed_generate.
  assert (H : 0 ≤ (if HAVE_GETTIMEOFDAY env
                   then Z.lxor (wrap_u32 (tv_sec env)) (wrap_u32 (tv_usec env))
                   else wrap_u32 (time_now env)) < 2 ^ 32).
  { destruct (HAVE_GETTIMEOFDAY env);
      [apply lxor_u32; apply wrap_u32_range|apply wrap_u32_range]. }
  destruct (_WIN32 env); [apply lxor_u32; [exact H|apply wrap_u32_range]|].
  destruct (HAVE_GETPID env); [apply lxor_u32; [exact H|apply wrap_u32_range]|exact H].
Qed.

(** X15: the seed can only be set once per process: once it is not 0, no
    sequence of calls of [set_hashtable_seed], with any candidates at any
    times, changes it. *)
Theorem seed_is_set_once (calls : list (seed_env * Z)) (seed : Z) :
  seed ≠ 0 → fold_left seed_call calls seed = seed.
Proof.
  intros Hs. induction calls as [|call calls IH]; [reflexivity|].
  simpl. unfold seed_call at 2, set_hashtable_seed.
  apply Z.eqb_neq in Hs. rewrite Hs. exact IH.
Qed.

(** *** What a failed insert and a lookup leave alone *)

Lemma hash_item_create_none key v s s' :
  _hash_item_create key v s = Ok None s' → same_heap s s'.
Proof.
  unfold _hash_item_create, _internal_strdup, new_item. intros H.
  repeat step_ok;
    repeat match goal with E : malloc _ = Ok _ _ |- _ => apply malloc_same_heap in E end;
    eauto using same_heap_trans.
Qed.

Lemma bucket_insert_returns_zero b l s r b' s' :
  _bucket_insert b (Some l) s = Ok (r, b') s' → r = 0.
Proof. unfold _bucket_insert. intros H. repeat step_ok; reflexivity. Qed.

Lemma find_loop_reads fuel b cur key s r s' :
  _hashtable_find_loop fuel b cur key s = Ok r s' → s' = s.
Proof.
  revert cur s. induction fuel as [|fuel IH]; intros cur s H; simpl in H.
  - discriminate H.
  - destruct (decide (cur = bucket_tail b)); [now step_ok|].
    unfold bind, load in H.
    destruct cur as [l|]; [|discriminate].
    destruct (items s !! l) as [it|]; [|discriminate].
    destruct (item_next it) as [l'|]; [|discriminate].
    destruct (items s !! l') as [it'|]; [|discriminate].
    destruct (strncmp _ _ _ =? 0); [now step_ok|eauto].
Qed.

(** *** Destruction *)

Lemma lookup_release_all h ls l :
  release_all h ls !! l = if decide (l ∈ ls) then None else h !! l.
Proof.
  revert h. induction ls as [|l0 ls IH]; intros h.
  - case_decide; [set_solver|reflexivity].
  - change (release_all h (l0 :: ls)) with (release_all (delete l0 h) ls).
    rewrite IH. repeat case_decide; try reflexivity.
    + set_solver.
    + assert (l = l0) as -> by set_solver. apply lookup_delete_eq.
    + apply lookup_delete_ne. set_solver.
Qed.

Lemma release_all_app h ls1 ls2 :
  release_all h (ls1 ++ ls2) = release_all (release_all h ls1) ls2.
Proof. unfold release_all. apply fold_left_app. Qed.

Lemma chain_release_events_cons h deallocator l ls :
  chain_release_events h deallocator (l :: ls)
  = item_release_events h deallocator l ++ chain_release_events h deallocator ls.
Proof. reflexivity. Qed.

Lemma chain_release_events_ext h h' deallocator ls :
  (∀ l, l ∈ ls → h' !! l = h !! l) →
  chain_release_events h' deallocator ls = chain_release_events h deallocator ls.
Proof.
  induction ls as [|l ls IH]; intros Hext; [reflexivity|].
  rewrite !chain_release_events_cons. unfold item_release_events.
  rewrite Hext by set_solver.
  f_equal. apply IH. intros; apply Hext; set_solver.
Qed.

(** The loop over a chain frees each of its items once, in order. *)
Lemma destroy_items_spec fuel p deallocator s ls :
  is_chain (items s) p ls →
  NoDup ls →
  (List.length ls < fuel)%nat →
  _destroy_items fuel p deallocator s
  = Ok tt (State (release_all (items s) ls) (next_loc s) (alloc_plan s)
                 (events s ++ chain_release_events (items s) deallocator ls)).
Proof.
  revert fuel p s. induction ls as [|l ls IH]; intros fuel p s Hc Hnd Hf.
  - simpl in Hc. subst p. destruct fuel; [simpl in Hf; lia|].
    simpl. unfold ret. rewrite app_nil_r. now destruct s.
  - destruct Hc as (-> & it & Hit & Hc).
    apply NoDup_cons in Hnd as [Hnotin Hnd].
    destruct fuel as [|fuel]; [simpl in Hf; lia|]. simpl.
    rewrite (bind_ok _ _ _ _ _ (load_ok _ _ _ Hit)).
    set (s1 := State (delete l (items s)) (next_loc s) (alloc_plan s)
                     (events s ++ item_release_events (items s) deallocator l)).
    assert (E : bind (call_deallocator deallocator (item_value it))
                  (λ _, bind (_hash_item_destroy (Some l))
                          (λ _, _destroy_items fuel (item_next it) deallocator)) s
                = _destroy_items fuel (item_next it) deallocator s1).
    { unfold call_deallocator, _hash_item_destroy, release, emit, ret, s1,
        item_release_events.
      unfold bind. rewrite Hit.
      destruct deallocator; simpl; rewrite Hit; simpl.
      - now rewrite <- app_assoc.
      - reflexivity. }
    cbv zeta. etransitivity; [exact E|].
    rewrite IH; [|simpl|assumption|simpl in Hf; lia].
    + simpl.
      rewrite (chain_release_events_ext (items s) (delete l (items s)) deallocator ls).
      * now rewrite <- app_assoc.
      * intros l0 Hin. apply lookup_delete_ne. intros ->. contradiction.
    + apply (is_chain_ext (items s)); [|assumption].
      intros l0 it0 Hin Hit0. exists it0. split; [|reflexivity].
      rewrite lookup_delete_ne; [assumption|]. intros ->. contradiction.
Qed.

Lemma table_release_events_ext h h' deallocator i slots cs :
  (∀ l, l ∈ List.concat cs → h' !! l = h !! l) →
  table_release_events h' deallocator i slots cs
  = table_release_events h deallocator i slots cs.
Proof.
  revert i cs. induction slots as [|slot slots IH]; intros i cs Hext; [reflexivity|].
  destruct cs as [|ls cs]; [reflexivity|]. simpl.
  rewrite IH by (intros l Hin; apply Hext; simpl; set_solver).
  destruct slot; [|reflexivity].
  rewrite (chain_release_events_ext h h') by (intros l Hin; apply Hext; simpl; set_solver).
  reflexivity.
Qed.

Lemma Forall2_impl_elem {A B} (P Q : A → B → Prop) l k :
  Forall2 P l k → (∀ x y, y ∈ k → P x y → Q x y) → Forall2 Q l k.
Proof.
  induction 1 as [|x y l k HP H IH]; intros Himp; constructor.
  - apply Himp; [set_solver|assumption].
  - apply IH. intros x' y' Hin. apply Himp. set_solver.
Qed.

Lemma elem_of_concat_intro (cs : list (list loc)) ls l :
  ls ∈ cs → l ∈ ls → l ∈ List.concat cs.
Proof.
  induction cs as [|a cs IH]; [set_solver|].
  intros Hin Hl. simpl. apply elem_of_app.
  apply elem_of_cons in Hin as [->|Hin]; [now left|right; now apply IH].
Qed.

Lemma drop_cons_inv {A} (l : list A) i x l' :
  drop i l = x :: l' → l !! i = Some x ∧ drop (S i) l = l'.
Proof.
  intros H. split.
  - rewrite <- (Nat.add_0_r i), <- lookup_drop, H. reflexivity.
  - replace (S i) with (i + 1)%nat by lia. rewrite <- drop_drop, H. reflexivity.
Qed.

(** The loop over the slots frees the items of every chain and every
    bucket. *)
Lemma destroy_slots_spec fuel t deallocator slots :
  ∀ cs i s,
    drop i (buckets t) = slots →
    Forall2 (λ slot ls, match slot with
                        | None => ls = []
                        | Some b => is_chain (items s) (bucket_head b) ls
                        end) slots cs →
    NoDup (List.concat cs) →
    Forall (λ ls, (List.length ls < fuel)%nat) cs →
    _destroy_slots fuel t (List.length slots) i deallocator s
    = Ok tt (State (release_all (items s) (List.concat cs)) (next_loc s) (alloc_plan s)
                   (events s ++ table_release_events (items s) deallocator i slots cs)).
Proof.
  induction slots as [|slot slots IH]; intros cs i s Hd H2 Hnd Hf.
  - apply Forall2_nil_inv_l in H2. subst cs. simpl. unfold ret.
    rewrite app_nil_r. now destruct s.
  - apply Forall2_cons_inv_l in H2 as (ls & cs' & Hslot & H2 & ->).
    apply drop_cons_inv in Hd as [Hb Hd].
    simpl in Hnd. apply NoDup_app in Hnd as (Hnd1 & Hdisj & Hnd2).
    apply Forall_cons in Hf as [Hf1 Hf2].
    simpl. rewrite Hb. destruct slot as [b|].
    + rewrite (bind_ok _ _ _ _ _ (destroy_items_spec _ _ deallocator _ _ Hslot Hnd1 Hf1)).
      unfold bind at 1, emit. simpl.
      assert (Hext : ∀ l, l ∈ List.concat cs' → release_all (items s) ls !! l = items s !! l).
      { intros l Hin. rewrite lookup_release_all.
        rewrite decide_False; [reflexivity|]. intros Hin'. now apply (Hdisj l). }
      rewrite (IH cs'); [|assumption| |assumption|assumption].
      * simpl. rewrite release_all_app.
        rewrite (table_release_events_ext (items s) _ _ _ _ _ Hext).
        now rewrite <- !app_assoc.
      * simpl. eapply Forall2_impl_elem; [exact H2|].
        intros [b'|] ls' Hin Hs'; [|exact Hs'].
        apply (is_chain_ext (items s)); [|exact Hs'].
        intros l it Hl Hit. exists it. split; [|reflexivity].
        rewrite Hext; [exact Hit|]. eapply elem_of_concat_intro; eassumption.
    + subst ls. simpl. apply (IH cs'); assumption.
Qed.

Lemma NoDup_concat_pointwise (cs : list (list loc)) :
  (∀ i a, cs !! i = Some a → NoDup a) →
  (∀ i j a b l, i ≠ j → cs !! i = Some a → cs !! j = Some b → l ∈ a → l ∉ b) →
  NoDup (List.concat cs).
Proof.
  induction cs as [|a cs IH]; intros Hnd Hdisj; [constructor|].
  simpl. apply NoDup_app. split; [apply (Hnd 0%nat); reflexivity|]. split.
  - intros l Hin Hin'.
    assert (∃ b, b ∈ cs ∧ l ∈ b) as (b & Hb & Hlb).
    { clear -Hin'. induction cs as [|c cs IH]; [set_solver|].
      simpl in Hin'. apply elem_of_app in Hin' as [H|H].
      - exists c. set_solver.
      - destruct (IH H) as (b & ? & ?). exists b. set_solver. }
    apply list_elem_of_lookup in Hb as [k Hk].
    apply (Hdisj 0%nat (S k) a b l); auto.
  - apply IH.
    + intros i b Hb. apply (Hnd (S i)). exact Hb.
    + intros i j b c l Hij Hb Hc. apply (Hdisj (S i) (S j)); auto.
Qed.

Lemma table_wf_nodup s t cs : table_wf s t cs → NoDup (List.concat cs).
Proof.
  intros Hwf. apply NoDup_concat_pointwise.
  - intros i a Ha.
    destruct (table_wf_chain _ _ _ _ _ Hwf Ha) as ([b|] & _ & Hs); simpl in Hs.
    + apply Hs.
    + subst. constructor.
  - apply (twf_disjoint _ _ _ Hwf).
Qed.

Lemma table_wf_chains s t cs :
  table_wf s t cs →
  Forall2 (λ slot ls, match slot with
                      | None => ls = []
                      | Some b => is_chain (items s) (bucket_head b) ls
                      end) (buckets t) cs.
Proof.
  intros Hwf. apply Forall2_same_length_lookup.
  split; [symmetry; apply (twf_chains_len _ _ _ Hwf)|].
  intros i slot ls Hb Hls.
  pose proof (twf_chains _ _ _ Hwf _ _ _ Hb Hls) as Hs.
  destruct slot as [b|]; simpl in Hs; [apply Hs|exact Hs].
Qed.

(** X20: destroying a well-formed table that counts at least one item frees
    every item of every chain exactly once, in slot and chain order, calling
    the deallocator, if supplied, on each value before the item is freed;
    then each bucket, the slot array and the table.  Items outside the
    chains are left alone. *)
Theorem destroy_frees_every_item fuel t deallocator s cs :
  table_wf s t cs →
  num_items t ≠ 0 →
  Forall (λ ls, (List.length ls < fuel)%nat) cs →
  hashtable_destroy fuel (Some t) deallocator s
  = Ok 0 (State (release_all (items s) (List.concat cs)) (next_loc s) (alloc_plan s)
                (events s ++ table_release_events (items s) deallocator 0 (buckets t) cs
                          ++ [Ev_free_buckets; Ev_free_table]))
  ∧ (∀ l, l ∈ List.concat cs → release_all (items s) (List.concat cs) !! l = None)
  ∧ (∀ l, l ∉ List.concat cs → release_all (items s) (List.concat cs) !! l = items s !! l).
Proof.
  intros Hwf Hn Hf. split; [|split].
  - unfold hashtable_destroy. apply Z.eqb_neq in Hn. rewrite Hn.
    rewrite <- (twf_slots _ _ _ Hwf).
    erewrite bind_ok.
    2:{ apply (destroy_slots_spec fuel t deallocator (buckets t) cs 0%nat s);
          [reflexivity| now apply table_wf_chains | now apply (table_wf_nodup s t)
          | assumption]. }
    unfold bind, emit, ret. simpl. now rewrite <- !app_assoc.
  - intros l Hin. rewrite lookup_release_all. now rewrite decide_True.
  - intros l Hin. rewrite lookup_release_all. now rewrite decide_False.
Qed.

(** *** Facts used by the growth *)

Lemma first_match_none h key ls :
  (∀ l, l ∈ ls → ∃ it, h !! l = Some it ∧ key_matches key it = false) →
  first_match h key ls = None.
Proof.
  induction ls as [|l ls IH]; intros H; [reflexivity|].
  destruct (H l) as (it & Hit & Hm); [set_solver|].
  simpl. rewrite Hit, Hm. apply IH. intros; apply H; set_solver.
Qed.

Lemma first_match_before h key ls1 l ls2 l0 it0 :
  first_match h key (ls1 ++ l :: ls2) = Some l →
  l ∉ ls1 →
  l0 ∈ ls1 →
  h !! l0 = Some it0 →
  key_matches key it0 = false.
Proof.
  induction ls1 as [|x ls1 IH]; intros Hfm Hnotin Hin Hit0; [set_solver|].
  simpl in Hfm. destruct (h !! x) as [itx|] eqn:Hx; [|discriminate].
  destruct (key_matches key itx) eqn:Hm.
  - injection Hfm as ->. set_solver.
  - apply elem_of_cons in Hin as [->|Hin].
    + congruence.
    + apply IH; [assumption|set_solver|assumption|assumption].
Qed.

Lemma length_concat_insert_snoc (cs : list (list loc)) i ls x :
  cs !! i = Some ls →
  List.length (List.concat (<[i := ls ++ [x]]> cs)) = S (List.length (List.concat cs)).
Proof.
  revert i. induction cs as [|a cs IH]; intros i Hi; [discriminate|].
  destruct i as [|i]; simpl in *.
  - injection Hi as ->. rewrite !length_app. simpl. lia.
  - rewrite !length_app, (IH i Hi). lia.
Qed.

Lemma elem_of_concat_insert_snoc (cs : list (list loc)) i ls x l :
  cs !! i = Some ls →
  l ∈ List.concat (<[i := ls ++ [x]]> cs) ↔ l = x ∨ l ∈ List.concat cs.
Proof.
  revert i. induction cs as [|a cs IH]; intros i Hi; [discriminate|].
  destruct i as [|i]; simpl in *.
  - injection Hi as ->. set_solver.
  - rewrite !elem_of_app, (IH i Hi). tauto.
Qed.

Lemma elem_of_concat_lookup (cs : list (list loc)) l :
  l ∈ List.concat cs ↔ ∃ i ls, cs !! i = Some ls ∧ l ∈ ls.
Proof.
  split.
  - induction cs as [|a cs IH]; [set_solver|]. simpl. intros Hin.
    apply elem_of_app in Hin as [Hin|Hin].
    + exists 0%nat, a. now split.
    + destruct (IH Hin) as (i & ls & Hi & Hl). exists (S i), ls. now split.
  - intros (i & ls & Hi & Hl). eapply elem_of_concat_intro; [|exact Hl].
    apply list_elem_of_lookup. eauto.
Qed.

Lemma length_chain_le_concat (cs : list (list loc)) i ls :
  cs !! i = Some ls → (List.length ls ≤ List.length (List.concat cs))%nat.
Proof.
  revert i. induction cs as [|a cs IH]; intros i Hi; [discriminate|].
  destruct i as [|i]; simpl in *; rewrite length_app.
  - injection Hi as ->. lia.
  - specialize (IH i Hi). lia.
Qed.

Lemma allocations_succeed_after n k s s1 :
  allocations_succeed (n + 3) s →
  (k ≤ 3)%nat →
  alloc_plan s1 = drop k (alloc_plan s) →
  allocations_succeed n s1.
Proof.
  unfold allocations_succeed. intros H Hk ->.
  rewrite Forall_forall in *. intros b Hin. apply H.
  apply list_elem_of_lookup in Hin as [i Hi].
  apply lookup_take_Some in Hi as [Hi Hlt].
  rewrite lookup_drop in Hi.
  apply list_elem_of_lookup. exists (k + i)%nat.
  apply lookup_take_Some. split; [assumption|lia].
Qed.

Lemma allocations_succeed_le n m s :
  (n ≤ m)%nat → allocations_succeed m s → allocations_succeed n s.
Proof.
  unfold allocations_succeed. intros Hle H.
  replace (take n (alloc_plan s)) with (take n (take m (alloc_plan s))).
  - now apply Forall_take.
  - rewrite take_take. f_equal. lia.
Qed.

Lemma substring_whole (a b : string) :
  substring 0 (String.length a) (a ++ b)%string = a.
Proof.
  induction a as [|c a IH]; [now destruct b|].
  change (String c a ++ b)%string with (String c (a ++ b)%string).
  simpl. now rewrite IH.
Qed.

Lemma key_matches_same_key key it it' :
  item_key it' = item_key it → key_matches key it' = key_matches key it.
Proof. unfold key_matches. now intros ->. Qed.

(** Deleting an item that is in no chain keeps the table well formed. *)
Lemma table_wf_delete s t cs l s2 :
  table_wf s t cs →
  l ∉ List.concat cs →
  items s2 = delete l (items s) →
  next_loc s2 = next_loc s →
  table_wf s2 t cs.
Proof.
  intros [H1 H2 H3 H4 H5 H6] Hl Hi Hn. split; try assumption.
  - intros i slot ls Hs Hc. rewrite Hi, Hn.
    eapply slot_wf_ext; [|reflexivity|eapply H4; eassumption].
    intros l0 it Hin Hit. exists it. split; [|reflexivity].
    rewrite lookup_delete_ne; [assumption|]. intros <-.
    apply Hl. apply elem_of_concat_lookup. eauto.
  - intros l0 [it Hit]. rewrite Hi in Hit. rewrite Hn.
    destruct (decide (l0 = l)) as [->|Hne].
    + rewrite lookup_delete_eq in Hit. discriminate.
    + rewrite lookup_delete_ne in Hit by congruence. apply H6. eauto.
Qed.

Section Further.

Variable hashlittle : string → Z → Z → Z.
Variable hashtable_seed : Z.

Local Abbreviation slot_index := (slot_index hashlittle hashtable_seed).
Local Abbreviation _hashtable_insert := (_hashtable_insert hashlittle hashtable_seed).
Local Abbreviation _hashtable_grow := (_hashtable_grow hashlittle hashtable_seed).
Local Abbreviation _grow_items := (_grow_items hashlittle hashtable_seed).
Local Abbreviation _grow_slots := (_grow_slots hashlittle hashtable_seed).
Local Abbreviation hashtable_set := (hashtable_set hashlittle hashtable_seed).
Local Abbreviation _hashtable_find := (_hashtable_find hashlittle hashtable_seed).
Local Abbreviation hashtable_get := (hashtable_get hashlittle hashtable_seed).
Local Abbreviation hashtable_exists_pair := (hashtable_exists_pair hashlittle hashtable_seed).
Local Abbreviation _hashtable_remove := (_hashtable_remove hashlittle hashtable_seed).
Local Abbreviation keys_findable := (keys_findable hashlittle hashtable_seed).
Local Abbreviation migrating := (migrating hashlittle hashtable_seed).

(** *** The slot index *)

Lemma slot_index_in_range_aux t key s :
  0 < table_size t →
  ∃ index, slot_index t key s = Ok index s
           ∧ (index < Z.to_nat (table_size t))%nat.
Proof.
  intros Hs. unfold slot_index.
  destruct (table_size t =? 0) eqn:E; [apply Z.eqb_eq in E; lia|].
  eexists. split; [reflexivity|].
  unfold wrap_u32, uint32_max.
  set (h := hashlittle key (keylen_of key) hashtable_seed mod 2 ^ 32).
  pose proof (Z.mod_pos_bound h (table_size t) Hs) as [H0 H1].
  assert (0 ≤ (h mod table_size t) mod 2 ^ 32 ≤ h mod table_size t).
  { split; [apply Z.mod_pos_bound; lia|apply Z.mod_le; lia]. }
  lia.
Qed.

(** *** Lookup on a well-formed bucket *)

Lemma find_spec fuel t key s index b ls :
  slot_index t key s = Ok index s →
  buckets t !! index = Some (Some b) →
  bucket_wf (items s) b ls →
  (List.length ls ≤ fuel)%nat →
  _hashtable_find fuel (Some t) key s
  = Ok (if shortcut b then bucket_head b else first_match (items s) key ls) s.
Proof.
  intros Hidx Hb [Hc Hne Ht Hnd Hsz Hsg] Hf.
  unfold _hashtable_find. rewrite (bind_ok _ _ _ _ _ Hidx), Hb.
  fold (shortcut b). destruct (shortcut b); [reflexivity|].
  destruct ls as [|l ls]; [congruence|].
  pose proof Hc as (Hh & it & Hit & Hc').
  rewrite Hh, (bind_ok _ _ _ _ _ (load_ok _ _ _ Hit)).
  simpl. rewrite Hit. unfold key_matches.
  destruct (strncmp _ _ _ =? 0); [reflexivity|].
  apply find_loop_spec;
    [rewrite <- Hh; exact Hc | assumption | assumption | simpl in Hf; lia].
Qed.

Lemma shortcut_single h b ls :
  bucket_wf h b ls → shortcut b = true → ∃ l, ls = [l] ∧ bucket_head b = Some l.
Proof.
  intros [Hc Hne Ht Hnd Hsz Hsg] Hs. unfold shortcut in Hs.
  apply andb_prop in Hs as [Hs _]. apply negb_true_iff in Hs.
  specialize (Hsg Hs). destruct ls as [|l [|? ?]]; try discriminate.
  exists l. split; [reflexivity|]. now destruct Hc.
Qed.

Lemma find_first_match fuel t key s index b ls l :
  slot_index t key s = Ok index s →
  buckets t !! index = Some (Some b) →
  bucket_wf (items s) b ls →
  first_match (items s) key ls = Some l →
  (List.length ls ≤ fuel)%nat →
  _hashtable_find fuel (Some t) key s = Ok (Some l) s.
Proof.
  intros Hidx Hb Hwf Hfm Hf.
  rewrite (find_spec _ _ _ _ _ _ _ Hidx Hb Hwf Hf).
  destruct (shortcut b) eqn:Hs; [|now rewrite Hfm].
  destruct (shortcut_single _ _ _ Hwf Hs) as (l0 & -> & ->).
  apply first_match_elem in Hfm as [Hin _].
  apply list_elem_of_singleton in Hin. now subst.
Qed.

(** X2: on a well-formed bucket, get returns the value of the first item,
    in chain order, whose stored key compares equal to the queried key, and
    exists returns 1; neither changes the state. *)
Theorem get_returns_first_match fuel t key s index b ls l it :
  slot_index t key s = Ok index s →
  buckets t !! index = Some (Some b) →
  bucket_wf (items s) b ls →
  first_match (items s) key ls = Some l →
  items s !! l = Some it →
  (List.length ls ≤ fuel)%nat →
  hashtable_get fuel (Some t) key s = Ok (item_value it) s
  ∧ hashtable_exists_pair fuel (Some t) key s = Ok 1 s.
Proof.
  intros Hidx Hb Hwf Hfm Hit Hf.
  pose proof (find_first_match _ _ _ _ _ _ _ _ Hidx Hb Hwf Hfm Hf) as E.
  unfold hashtable_get, hashtable_exists_pair.
  rewrite !(bind_ok _ _ _ _ _ E).
  now rewrite (bind_ok _ _ _ _ _ (load_ok _ _ _ Hit)).
Qed.

(** X3: on a well-formed bucket that recorded a collision (or whose size is
    not 1), a key that compares equal to none of the chain's items is
    reported as not found: get returns NULL and exists returns 0. *)
Theorem get_misses_unmatched_key fuel t key s index b ls :
  slot_index t key s = Ok index s →
  buckets t !! index = Some (Some b) →
  bucket_wf (items s) b ls →
  shortcut b = false →
  first_match (items s) key ls = None →
  (List.length ls ≤ fuel)%nat →
  hashtable_get fuel (Some t) key s = Ok 0 s
  ∧ hashtable_exists_pair fuel (Some t) key s = Ok 0 s.
Proof.
  intros Hidx Hb Hwf Hs Hfm Hf.
  pose proof (find_spec _ _ _ _ _ _ _ Hidx Hb Hwf Hf) as E.
  rewrite Hs, Hfm in E.
  unfold hashtable_get, hashtable_exists_pair.
  now rewrite !(bind_ok _ _ _ _ _ E).
Qed.

Lemma get_exists_of_find fuel t key s l it :
  _hashtable_find fuel t key s = Ok (Some l) s →
  items s !! l = Some it →
  hashtable_get fuel t key s = Ok (item_value it) s
  ∧ hashtable_exists_pair fuel t key s = Ok 1 s.
Proof.
  intros E Hit. unfold hashtable_get, hashtable_exists_pair.
  rewrite !(bind_ok _ _ _ _ _ E).
  now rewrite (bind_ok _ _ _ _ _ (load_ok _ _ _ Hit)).
Qed.

Lemma find_ignores_count fuel t key :
  _hashtable_find fuel (Some (incr_num_items t)) key = _hashtable_find fuel (Some t) key.
Proof. reflexivity. Qed.

Lemma set_below_threshold fuel t key v replace deallocator s t1 s1 :
  _hashtable_insert fuel t key v replace deallocator s = Ok (0, t1) s1 →
  num_items (incr_num_items t) / table_size t < max_load_factor t →
  hashtable_set fuel (Some t) key v replace deallocator s
  = Ok (-1, Some (incr_num_items t1)) s1.
Proof.
  intros H Hlt.
  pose proof (insert_same_shape _ _ _ _ _ _ _ _ _ _ _ _ H) as (Es & En & Em).
  rewrite (set_after_insert _ _ _ _ _ _ _ _ _ _ _ _ H). simpl.
  simpl in Hlt. rewrite Es, En, Em.
  apply Z.leb_gt in Hlt. now rewrite Hlt.
Qed.

(** *** Insertion *)

Lemma insert_creates_in_empty_slot fuel t key v override deallocator s index :
  slot_index t key s = Ok index s →
  buckets t !! index = Some None →
  allocations_succeed 3 s →
  _hashtable_insert fuel t key v override deallocator s
  = Ok (0, set_bucket t index (Bucket (Some (next_loc s)) (Some (next_loc s)) 1 false))
       (State (<[next_loc s := created_item key v]> (items s)) (S (next_loc s))
              (drop 3 (alloc_plan s)) (events s)).
Proof.
  intros Hidx Hb Ha. unfold _hashtable_insert.
  rewrite (bind_ok _ _ _ _ _ Hidx), Hb.
  destruct (malloc_succeeds _ _ Ha) as [E1 Ha1].
  rewrite (bind_ok _ _ _ _ _ E1). simpl.
  rewrite (bind_ok _ _ _ _ _ (hash_item_create_succeeds key v _ Ha1)). simpl.
  erewrite bind_ok; [|apply bucket_insert_first; apply lookup_insert_eq].
  simpl. unfold ret. rewrite insert_insert_eq, drop_drop. reflexivity.
Qed.

(** X4: the first key of a slot.  When the key's slot is empty, the three
    allocations succeed and the threshold is not reached, [hashtable_set]
    returns -1 and leaves exactly this: the slot holds a new bucket whose
    head and tail are the new item, with size 1 and no collision; the new
    item stores the key, its length and the value, with a NULL [next]; the
    count is incremented; three allocations were served; no other item, no
    other slot and no event changed.  Get and exists on that table find the
    value. *)
Theorem set_then_get_in_empty_slot fuel t key v replace deallocator s index :
  slot_index t key s = Ok index s →
  buckets t !! index = Some None →
  allocations_succeed 3 s →
  num_items (incr_num_items t) / table_size t < max_load_factor t →
  let t' := incr_num_items
              (set_bucket t index (Bucket (Some (next_loc s)) (Some (next_loc s)) 1 false)) in
  let s' := State (<[next_loc s := Item None key v (keylen_of key)]> (items s))
                  (S (next_loc s)) (drop 3 (alloc_plan s)) (events s) in
  hashtable_set fuel (Some t) key v replace deallocator s = Ok (-1, Some t') s'
  ∧ hashtable_get fuel (Some t') key s' = Ok v s'
  ∧ hashtable_exists_pair fuel (Some t') key s' = Ok 1 s'.
Proof.
  intros Hidx Hb Ha Hlt t' s'.
  pose proof (insert_creates_in_empty_slot fuel t key v replace deallocator s index
                Hidx Hb Ha) as Hins.
  split; [exact (set_below_threshold _ _ _ _ _ _ _ _ _ Hins Hlt)|].
  apply (get_exists_of_find _ _ _ _ (next_loc s) (created_item key v));
    [|apply lookup_insert_eq].
  unfold t'. rewrite find_ignores_count. unfold _hashtable_find.
  erewrite bind_ok; [|eapply slot_index_same_size; [|exact Hidx]; reflexivity].
  simpl. rewrite list_lookup_insert_eq by (eapply lookup_lt_Some; exact Hb).
  reflexivity.
Qed.

Lemma wf_tail_live h b ls :
  bucket_wf h b ls →
  ∃ tl itl, last ls = Some tl ∧ bucket_tail b = Some tl ∧ tl ∈ ls ∧ h !! tl = Some itl.
Proof.
  intros [Hc Hne Ht Hnd Hsz Hsg].
  destruct (last ls) as [tl|] eqn:Hl; [|now apply last_None in Hl].
  pose proof (last_Some_elem_of _ _ Hl) as Hin.
  destruct (is_chain_live _ _ _ _ Hc Hin) as [itl Hitl].
  exists tl, itl. now rewrite Ht.
Qed.

Lemma wf_head h b ls : bucket_wf h b ls → ∃ l, bucket_head b = Some l ∧ head ls = Some l.
Proof.
  intros [Hc Hne _ _ _ _]. destruct ls as [|l ls]; [congruence|].
  exists l. now destruct Hc.
Qed.

Lemma insert_appends fuel t key v override deallocator s index b ls tl itl :
  slot_index t key s = Ok index s →
  buckets t !! index = Some (Some b) →
  bucket_wf (items s) b ls →
  first_match (items s) key ls = None →
  allocations_succeed 2 s →
  items s !! next_loc s = None →
  last ls = Some tl →
  items s !! tl = Some itl →
  (List.length ls < fuel)%nat →
  _hashtable_insert fuel t key v override deallocator s
  = Ok (0, set_bucket t index
             (Bucket (bucket_head b) (Some (next_loc s)) (wrap_size (bucket_size b + 1))
                     (if (1 <? wrap_size (bucket_size b + 1)) && negb (had_collision b)
                      then true else had_collision b)))
       (State (<[tl := set_next (Some (next_loc s)) itl]>
                 (<[next_loc s := created_item key v]> (items s)))
              (S (next_loc s)) (drop 2 (alloc_plan s)) (events s)).
Proof.
  intros Hidx Hb Hwf Hfm Ha Hfresh Hl Htl Hf.
  destruct (wf_head _ _ _ Hwf) as (l0 & Hh & _).
  destruct (wf_tail_live _ _ _ Hwf) as (tl' & itl' & Hl' & Ht & Hin & _).
  assert (tl' = tl) as -> by congruence.
  assert (tl ≠ next_loc s) by congruence.
  unfold _hashtable_insert.
  rewrite (bind_ok _ _ _ _ _ Hidx), Hb. unfold _key_in_bucket.
  rewrite (bind_ok _ _ _ _ _ (key_in_bucket_loop_spec _ _ _ _ _ (wf_chain _ _ _ Hwf) Hf)).
  rewrite Hfm.
  rewrite (bind_ok _ _ _ _ _ (hash_item_create_succeeds key v _ Ha)).
  erewrite bind_ok.
  2:{ eapply bucket_insert_links; [apply lookup_insert_eq|exact Ht|assumption|].
      simpl. rewrite lookup_insert_ne by congruence. exact Htl. }
  simpl. unfold ret. rewrite insert_insert_eq, Hh. reflexivity.
Qed.

Lemma appended_bucket_wf h b ls tl itl nl key v :
  bucket_wf h b ls →
  h !! nl = None →
  last ls = Some tl →
  h !! tl = Some itl →
  bucket_size b < size_max - 1 →
  bucket_wf (<[tl := set_next (Some nl) itl]> (<[nl := created_item key v]> h))
            (Bucket (bucket_head b) (Some nl) (wrap_size (bucket_size b + 1))
                    (if (1 <? wrap_size (bucket_size b + 1)) && negb (had_collision b)
                     then true else had_collision b))
            (ls ++ [nl]).
Proof.
  intros Hwf Hfresh Hl Htl Hsz.
  pose proof Hwf as [Hc Hne Ht Hnd Hs Hsg].
  assert (Hnotin : nl ∉ ls).
  { intros Hin. destruct (is_chain_live _ _ _ _ Hc Hin) as [? ?]. congruence. }
  assert (Hw : wrap_size (bucket_size b + 1) = bucket_size b + 1).
  { unfold wrap_size. apply Z.mod_small. lia. }
  split; simpl.
  - now apply is_chain_snoc.
  - now destruct ls.
  - now rewrite last_snoc.
  - apply NoDup_app. split; [assumption|]. split; [|apply NoDup_singleton].
    intros x Hx Hx'. apply list_elem_of_singleton in Hx'. now subst.
  - lia.
  - rewrite Hw. replace (1 <? bucket_size b + 1) with true
      by (symmetry; apply Z.ltb_lt; lia).
    simpl. destruct (had_collision b); discriminate.
Qed.

Lemma first_match_after_append h key v ls tl itl nl :
  (∀ l, l ∈ ls → is_Some (h !! l)) →
  h !! tl = Some itl →
  tl ∈ ls →
  nl ∉ ls →
  first_match (<[tl := set_next (Some nl) itl]> (<[nl := created_item key v]> h))
              key (ls ++ [nl])
  = match first_match h key ls with
    | Some l => Some l
    | None => Some nl
    end.
Proof.
  intros Hlive Htl Htin Hnl.
  set (h' := <[tl := set_next (Some nl) itl]> (<[nl := created_item key v]> h)).
  assert (Hext : ∀ l it, l ∈ ls → h !! l = Some it →
                         ∃ it', h' !! l = Some it' ∧ item_key it' = item_key it).
  { intros l it Hin Hit. unfold h'.
    destruct (decide (l = tl)) as [->|Hne].
    - rewrite lookup_insert_eq. assert (it = itl) as -> by congruence. eauto.
    - rewrite lookup_insert_ne by congruence.
      rewrite lookup_insert_ne by (intros ->; contradiction). eauto. }
  rewrite first_match_app.
  2:{ intros l Hin. destruct (Hlive l Hin) as [it Hit].
      destruct (Hext l it Hin Hit) as (it' & -> & _). eauto. }
  rewrite (first_match_ext h h' key ls Hext Hlive).
  destruct (first_match h key ls); [reflexivity|].
  assert (tl ≠ nl) by (intros ->; contradiction).
  simpl. unfold h'. rewrite lookup_insert_ne by assumption.
  now rewrite lookup_insert_eq, key_matches_created.
Qed.

(** The table-level effect of an insert that creates an item: the new item
    is appended to the chain of the key's slot and nothing else moves. *)
Lemma insert_created_wf fuel t key v override deallocator s cs index ls :
  table_wf s t cs →
  slot_index t key s = Ok index s →
  cs !! index = Some ls →
  first_match (items s) key ls = None →
  allocations_succeed 3 s →
  Z.of_nat (next_loc s) < size_max - 1 →
  (List.length ls < fuel)%nat →
  ∃ t1 s1 k,
    _hashtable_insert fuel t key v override deallocator s = Ok (0, t1) s1
    ∧ table_wf s1 t1 (<[index := ls ++ [next_loc s]]> cs)
    ∧ same_shape t t1
    ∧ items s1 !! next_loc s = Some (created_item key v)
    ∧ items_kept (items s) (items s1)
    ∧ next_loc s1 = S (next_loc s)
    ∧ events s1 = events s
    ∧ (k ≤ 3)%nat ∧ alloc_plan s1 = drop k (alloc_plan s)
    ∧ (∀ l, l ∉ ls → l ≠ next_loc s → items s1 !! l = items s !! l).
Proof.
  intros Hwf Hidx Hls Hfm Ha Hbound Hf.
  pose proof (table_wf_next_free _ _ _ Hwf) as Hfree.
  destruct (table_wf_chain _ _ _ _ _ Hwf Hls) as (slot & Hb & Hslot).
  pose proof (lookup_lt_Some _ _ _ Hb) as Hi.
  destruct slot as [b|]; simpl in Hslot.
  - destruct Hslot as [Hbwf Hsz].
    destruct (wf_tail_live _ _ _ Hbwf) as (tl & itl & Hl & Ht & Htin & Htl).
    assert (Ha2 : allocations_succeed 2 s).
    { unfold allocations_succeed in *.
      replace (take 2 (alloc_plan s)) with (take 2 (take 3 (alloc_plan s)))
        by (rewrite take_take; reflexivity).
      now apply Forall_take. }
    assert (Htlne : tl ≠ next_loc s) by congruence.
    pose proof (wf_size _ _ _ Hbwf) as Hsz1.
    eexists _, _, 2%nat.
    split; [eapply insert_appends; eassumption|].
    split.
    { apply table_wf_update with (s := s); simpl; try assumption.
      - apply appended_bucket_wf; try assumption. lia.
      - unfold wrap_size. rewrite Z.mod_small by lia. lia.
      - lia.
      - intros j a l it Hj Haj Hin Hit.
        assert (l ≠ tl).
        { intros ->. eapply (twf_disjoint _ _ _ Hwf j index); eassumption. }
        assert (l ≠ next_loc s) by congruence.
        now rewrite !lookup_insert_ne by congruence.
      - intros j a l Hj Haj Hin Hin'.
        apply elem_of_app in Hin' as [Hin'|Hin'].
        + eapply (twf_disjoint _ _ _ Hwf j index); eassumption.
        + apply list_elem_of_singleton in Hin'. subst.
          destruct (table_wf_live _ _ _ _ _ _ Hwf Haj Hin) as [? ?]. congruence.
      - intros l [it Hit].
        destruct (decide (l = tl)) as [->|Hne1].
        { pose proof (twf_fresh _ _ _ Hwf tl (mk_is_Some _ _ Htl)). lia. }
        rewrite lookup_insert_ne in Hit by congruence.
        destruct (decide (l = next_loc s)) as [->|Hne2]; [lia|].
        rewrite lookup_insert_ne in Hit by congruence.
        pose proof (twf_fresh _ _ _ Hwf l (mk_is_Some _ _ Hit)). lia. }
    split; [apply same_shape_set_bucket|].
    simpl. split.
    { rewrite lookup_insert_ne by congruence. apply lookup_insert_eq. }
    split.
    { intros l it Hit.
      destruct (decide (l = tl)) as [->|Hne1].
      - rewrite lookup_insert_eq. assert (it = itl) as -> by congruence.
        eexists. split; [reflexivity|]. now repeat split.
      - rewrite lookup_insert_ne by congruence.
        rewrite lookup_insert_ne by congruence.
        exists it. now repeat split. }
    do 4 (split; [first [reflexivity|lia]|]).
    intros l Hnotin Hne. rewrite !lookup_insert_ne; [reflexivity|congruence|].
    intros <-. contradiction.
  - subst ls.
    eexists _, _, 3%nat.
    split; [eapply insert_creates_in_empty_slot; eassumption|].
    split.
    { apply table_wf_update with (s := s); simpl; try assumption.
      - split; simpl.
        + split; [reflexivity|]. eexists. split; [apply lookup_insert_eq|reflexivity].
        + discriminate.
        + reflexivity.
        + apply NoDup_singleton.
        + lia.
        + reflexivity.
      - lia.
      - lia.
      - intros j a l it Hj Haj Hin Hit.
        rewrite lookup_insert_ne by congruence. exact Hit.
      - intros j a l Hj Haj Hin Hin'.
        apply list_elem_of_singleton in Hin'. subst.
        destruct (table_wf_live _ _ _ _ _ _ Hwf Haj Hin) as [? ?]. congruence.
      - intros l [it Hit].
        destruct (decide (l = next_loc s)) as [->|Hne2]; [lia|].
        rewrite lookup_insert_ne in Hit by congruence.
        pose proof (twf_fresh _ _ _ Hwf l (mk_is_Some _ _ Hit)). lia. }
    split; [apply same_shape_set_bucket|].
    simpl. split; [apply lookup_insert_eq|].
    split.
    { intros l it Hit. rewrite lookup_insert_ne by congruence.
      exists it. now repeat split. }
    do 4 (split; [first [reflexivity|lia]|]).
    intros l _ Hne. now rewrite lookup_insert_ne by congruence.
Qed.

(** On a well-formed table, lookup is the first match of the chain of the
    key's slot. *)
Lemma find_in_table fuel t key s cs index ls l :
  table_wf s t cs →
  slot_index t key s = Ok index s →
  cs !! index = Some ls →
  first_match (items s) key ls = Some l →
  (List.length ls ≤ fuel)%nat →
  _hashtable_find fuel (Some t) key s = Ok (Some l) s.
Proof.
  intros Hwf Hidx Hls Hfm Hf.
  destruct (table_wf_chain _ _ _ _ _ Hwf Hls) as ([b|] & Hb & Hslot); simpl in Hslot.
  - destruct Hslot as [Hbwf _]. eapply find_first_match; eassumption.
  - subst ls. discriminate Hfm.
Qed.

Lemma table_wf_incr s t cs : table_wf s t cs → table_wf s (incr_num_items t) cs.
Proof. intros H. now apply (table_wf_same_slots s t). Qed.



Lemma find_empty_slot fuel t key s index :
  slot_index t key s = Ok index s →
  buckets t !! index = Some None →
  _hashtable_find fuel (Some t) key s = Ok None s.
Proof.
  intros Hidx Hb. unfold _hashtable_find.
  now rewrite (bind_ok _ _ _ _ _ Hidx), Hb.
Qed.

(** *** Overwriting *)

Lemma insert_overwrites fuel t key v override deallocator s index b ls l it :
  slot_index t key s = Ok index s →
  buckets t !! index = Some (Some b) →
  is_chain (items s) (bucket_head b) ls →
  first_match (items s) key ls = Some l →
  items s !! l = Some it →
  override ≠ 0 →
  (List.length ls < fuel)%nat →
  _hashtable_insert fuel t key v override deallocator s
  = Ok (1, t) (overwritten_state s l it v deallocator).
Proof.
  intros Hidx Hb Hc Hfm Hit Ho Hf.
  unfold _hashtable_insert, overwritten_state.
  rewrite (bind_ok _ _ _ _ _ Hidx), Hb. unfold _key_in_bucket.
  rewrite (bind_ok _ _ _ _ _ (key_in_bucket_loop_spec _ _ _ _ _ Hc Hf)), Hfm.
  apply Z.eqb_neq in Ho. rewrite Ho.
  rewrite (bind_ok _ _ _ _ _ (load_ok _ _ _ Hit)).
  unfold bind, call_deallocator, emit, store, ret.
  destruct deallocator; simpl; now rewrite Hit.
Qed.

(** X7: replacing a value.  When the chain of the key's slot has a first
    match and [replace] is not 0, [hashtable_set] stores the new value in
    that item and returns -1: the table, its count and the allocator are
    untouched, the chain keeps its items and links, the deallocator, if
    supplied, is called once, on the old value, and get and exists find the
    new value. *)
Theorem set_replaces_value fuel t key v replace deallocator s cs index ls l it :
  table_wf s t cs →
  slot_index t key s = Ok index s →
  cs !! index = Some ls →
  first_match (items s) key ls = Some l →
  items s !! l = Some it →
  replace ≠ 0 →
  (List.length ls < fuel)%nat →
  let s' := overwritten_state s l it v deallocator in
  hashtable_set fuel (Some t) key v replace deallocator s = Ok (-1, Some t) s'
  ∧ table_wf s' t cs
  ∧ hashtable_get fuel (Some t) key s' = Ok v s'
  ∧ hashtable_exists_pair fuel (Some t) key s' = Ok 1 s'.
Proof.
  intros Hwf Hidx Hls Hfm Hit Ho Hf s'.
  destruct (table_wf_chain _ _ _ _ _ Hwf Hls) as ([b|] & Hb & Hslot); simpl in Hslot;
    [|subst ls; discriminate Hfm].
  destruct Hslot as [Hbwf _].
  pose proof (insert_overwrites fuel t key v replace deallocator s index b ls l it
                Hidx Hb (wf_chain _ _ _ Hbwf) Hfm Hit Ho Hf) as Hins.
  fold s' in Hins.
  assert (Hkeys : ∀ l0 it0, l0 ∈ ls → items s !! l0 = Some it0 →
            ∃ it', items s' !! l0 = Some it' ∧ item_key it' = item_key it0).
  { intros l0 it0 _ Hit0. simpl. destruct (decide (l0 = l)) as [->|Hne].
    - rewrite lookup_insert_eq. assert (it0 = it) as -> by congruence. eauto.
    - rewrite lookup_insert_ne by congruence. eauto. }
  assert (Hwf' : table_wf s' t cs).
  { apply (table_wf_heap_ext s); [assumption| |simpl; lia|].
    - intros l0 it0 Hit0. simpl. destruct (decide (l0 = l)) as [->|Hne].
      + rewrite lookup_insert_eq. assert (it0 = it) as -> by congruence. eauto.
      + rewrite lookup_insert_ne by congruence. eauto.
    - intros l0 [it0 Hit0]. simpl in *. destruct (decide (l0 = l)) as [->|Hne].
      + apply (twf_fresh _ _ _ Hwf). eauto.
      + rewrite lookup_insert_ne in Hit0 by congruence.
        apply (twf_fresh _ _ _ Hwf). eauto. }
  split.
  { rewrite (set_after_insert _ _ _ _ _ _ _ _ _ _ _ _ Hins). reflexivity. }
  split; [exact Hwf'|].
  apply (get_exists_of_find _ _ _ _ l (set_value v it)); [|apply lookup_insert_eq].
  eapply find_in_table; [exact Hwf'| | exact Hls | | lia].
  - eapply slot_index_same_size; [reflexivity|exact Hidx].
  - rewrite (first_match_ext (items s) (items s') key ls Hkeys); [exact Hfm|].
    intros l0 Hin. eapply table_wf_live; eassumption.
Qed.

(** *** Creation *)

(** X8: a created table is well formed and holds no key.  When its two
    allocations succeed, [hashtable_create] with a positive size returns a
    table of that many empty slots, without touching the items; on that
    table get returns NULL and exists returns 0 for every key, and remove
    returns -1. *)
Theorem created_table_is_empty initial_size max_loadfactor s :
  0 < initial_size →
  allocations_succeed 2 s →
  (∀ l, is_Some (items s !! l) → (l < next_loc s)%nat) →
  ∃ t s',
    hashtable_create initial_size max_loadfactor s = Ok (Some t) s'
    ∧ same_heap s s'
    ∧ table_size t = initial_size ∧ num_items t = 0
    ∧ max_load_factor t = max_loadfactor
    ∧ table_wf s' t (replicate (Z.to_nat initial_size) [])
    ∧ ∀ fuel key deallocator s2,
        hashtable_get fuel (Some t) key s2 = Ok 0 s2
        ∧ hashtable_exists_pair fuel (Some t) key s2 = Ok 0 s2
        ∧ _hashtable_remove fuel (Some t) key deallocator s2 = Ok (-1, Some t) s2.
Proof.
  intros Hn Ha Hfresh.
  destruct (malloc_succeeds _ _ Ha) as [E1 Ha1].
  destruct (malloc_succeeds _ _ Ha1) as [E2 _].
  eexists _, _. split.
  { unfold hashtable_create. rewrite (bind_ok _ _ _ _ _ E1). simpl.
    rewrite (bind_ok _ _ _ _ _ E2). reflexivity. }
  split; [now repeat split|].
  do 3 (split; [reflexivity|]).
  split.
  { split; simpl.
    - exact Hn.
    - apply length_replicate.
    - now rewrite !length_replicate.
    - intros i slot ls Hs Hc.
      apply lookup_replicate in Hs as [-> _].
      apply lookup_replicate in Hc as [-> _]. reflexivity.
    - intros i j a b l _ Ha' _ Hin.
      apply lookup_replicate in Ha' as [-> _]. set_solver.
    - exact Hfresh. }
  intros fuel key deallocator s2.
  destruct (slot_index_in_range_aux
              (Table initial_size 0 max_loadfactor
                     (replicate (Z.to_nat initial_size) None)) key s2 Hn)
    as (index & Hidx & Hlt).
  assert (Hb : replicate (Z.to_nat initial_size) (@None bucket_t) !! index = Some None).
  { apply lookup_replicate. split; [reflexivity|exact Hlt]. }
  pose proof (find_empty_slot fuel _ key s2 index Hidx Hb) as E.
  split; [|split].
  - unfold hashtable_get. now rewrite (bind_ok _ _ _ _ _ E).
  - unfold hashtable_exists_pair. now rewrite (bind_ok _ _ _ _ _ E).
  - reflexivity.
Qed.

(** *** Removal *)

Lemma key_matches_sym key it :
  key_matches key it = true → strncmp key (item_key it) (String.length key) = 0.
Proof.
  unfold key_matches. rewrite strncmp_zero_sym. apply Z.eqb_eq.
Qed.

Lemma removed_bucket_wf h b l ls' it :
  bucket_wf h b (l :: ls') →
  h !! l = Some it →
  ls' ≠ [] →
  bucket_wf (delete l h)
            (Bucket (item_next it) (bucket_tail b) (bucket_size b) (had_collision b))
            ls'.
Proof.
  intros [Hc Hne Ht Hnd Hsz Hsg] Hit Hne'.
  destruct Hc as (Hh & it0 & Hit0 & Hc).
  assert (it0 = it) as -> by congruence.
  apply NoDup_cons in Hnd as [Hnotin Hnd].
  split; simpl; try assumption.
  - apply (is_chain_ext h); [|assumption].
    intros l0 it0 Hin Hit0'. exists it0. split; [|reflexivity].
    rewrite lookup_delete_ne; [assumption|]. intros ->. contradiction.
  - rewrite Ht. destruct ls'; [congruence|]. apply last_cons_cons.
  - intros Hh'. specialize (Hsg Hh'). destruct ls'; [congruence|discriminate].
Qed.

(** X9: removing the head of a chain that holds more items.  The call
    returns 0, frees exactly that item (after calling the deallocator, if
    supplied, on its value), decrements the count and leaves a well-formed
    table whose chain lost its first item; if none of the remaining items of
    the chain compares equal to the key, get then returns NULL and exists
    returns 0. *)
Theorem remove_unlinks_head fuel fuel2 t key deallocator s cs index b l ls' it :
  table_wf s t cs →
  num_items t ≠ 0 →
  slot_index t key s = Ok index s →
  buckets t !! index = Some (Some b) →
  cs !! index = Some (l :: ls') →
  ls' ≠ [] →
  items s !! l = Some it →
  key_matches key it = true →
  let t' := removed_table t index b it in
  let s' := removed_state s l it deallocator in
  _hashtable_remove (S fuel) (Some t) key deallocator s = Ok (0, Some t') s'
  ∧ table_wf s' t' (<[index := ls']> cs)
  ∧ num_items t' = wrap_size (num_items t - 1)
  ∧ (first_match (items s) key ls' = None →
     (List.length ls' ≤ fuel2)%nat →
     hashtable_get fuel2 (Some t') key s' = Ok 0 s'
     ∧ hashtable_exists_pair fuel2 (Some t') key s' = Ok 0 s').
Proof.
  intros Hwf Hn Hidx Hb Hls Hne Hit Hm t' s'.
  pose proof (twf_chains _ _ _ Hwf _ _ _ Hb Hls) as [Hbwf Hsz]. 
  pose proof (wf_head _ _ _ Hbwf) as (l0 & Hh & [= <-]).
  pose proof (wf_nodup _ _ _ Hbwf) as Hnd. apply NoDup_cons in Hnd as [Hnotin Hnd].
  pose proof (lookup_lt_Some _ _ _ Hb) as Hi.
  assert (Hb' : bucket_wf (items s')
                  (Bucket (item_next it) (bucket_tail b) (bucket_size b)
                          (had_collision b)) ls').
  { now apply removed_bucket_wf. }
  assert (Hwf' : table_wf s' t' (<[index := ls']> cs)).
  { apply (table_wf_same_slots s' (set_bucket t index
             (Bucket (item_next it) (bucket_tail b) (bucket_size b) (had_collision b))));
      [|reflexivity|reflexivity].
    apply table_wf_update with (s := s); simpl; try assumption.
    - lia.
    - intros j a l1 it1 Hj Haj Hin Hit1.
      rewrite lookup_delete_ne; [assumption|]. intros <-.
      eapply (twf_disjoint _ _ _ Hwf j index); [assumption|exact Haj|exact Hls|exact Hin|].
      set_solver.
    - intros j a l1 Hj Haj Hin Hin'.
      eapply (twf_disjoint _ _ _ Hwf j index); [assumption|exact Haj|exact Hls|exact Hin|].
      set_solver.
    - intros l1 [it1 Hit1]. destruct (decide (l1 = l)) as [->|Hne1].
      + rewrite lookup_delete_eq in Hit1. discriminate.
      + rewrite lookup_delete_ne in Hit1 by congruence.
        apply (twf_fresh _ _ _ Hwf). eauto. }
  split.
  { apply remove_matching_head; try assumption. now apply key_matches_sym. }
  split; [exact Hwf'|]. split; [reflexivity|].
  intros Hfm Hf2.
  assert (E : _hashtable_find fuel2 (Some t') key s' = Ok None s').
  { erewrite find_spec;
      [| eapply slot_index_same_size; [|exact Hidx]; reflexivity
       | unfold t', removed_table; simpl; apply list_lookup_insert_eq; exact Hi
       | exact Hb' | exact Hf2].
    assert (Hs : shortcut (Bucket (item_next it) (bucket_tail b) (bucket_size b)
                                  (had_collision b)) = false).
    { unfold shortcut. simpl. destruct (had_collision b) eqn:Hh'; [reflexivity|].
      pose proof (wf_single _ _ _ Hbwf Hh') as Hlen.
      destruct ls'; [congruence|discriminate]. }
    rewrite Hs.
    rewrite (first_match_ext (items s) (items s') key ls'); [now rewrite Hfm| |].
    - intros l1 it1 Hin Hit1. exists it1. split; [|reflexivity].
      simpl. rewrite lookup_delete_ne; [assumption|]. intros <-. contradiction.
    - intros l1 Hin. eapply (table_wf_live _ _ _ index (l :: ls')); [eassumption..|].
      set_solver. }
  unfold hashtable_get, hashtable_exists_pair.
  now rewrite !(bind_ok _ _ _ _ _ E).
Qed.

(** X10: removing the only item of a bucket leaves the bucket in its slot
    with a NULL head and a tail that points at the freed item.  If the bucket
    never recorded a collision, every later get on that slot returns NULL and
    exists returns 0; and every later insert into that slot whose
    allocations succeed writes through the stale tail pointer. *)
Theorem remove_only_item_leaves_stale_tail fuel fuel2 t key deallocator s index b l it :
  num_items t ≠ 0 →
  slot_index t key s = Ok index s →
  buckets t !! index = Some (Some b) →
  bucket_head b = Some l →
  bucket_tail b = Some l →
  items s !! l = Some it →
  item_next it = None →
  key_matches key it = true →
  let t' := removed_table t index b it in
  let s' := removed_state s l it deallocator in
  _hashtable_remove (S fuel) (Some t) key deallocator s = Ok (0, Some t') s'
  ∧ (shortcut b = true →
     ∀ key2, slot_index t key2 s = Ok index s →
       hashtable_get fuel2 (Some t') key2 s' = Ok 0 s'
       ∧ hashtable_exists_pair fuel2 (Some t') key2 s' = Ok 0 s')
  ∧ (∀ key2 v override deallocator2 s2,
       slot_index t key2 s = Ok index s →
       items s2 = items s' →
       next_loc s2 ≠ l →
       allocations_succeed 2 s2 →
       _hashtable_insert (S fuel2) t' key2 v override deallocator2 s2 = Undefined).
Proof.
  intros Hn Hidx Hb Hh Ht Hit Hnext Hm t' s'.
  pose proof (lookup_lt_Some _ _ _ Hb) as Hi.
  assert (Hb' : buckets t' !! index
                = Some (Some (Bucket None (Some l) (bucket_size b) (had_collision b)))).
  { unfold t', removed_table. simpl. rewrite list_lookup_insert_eq by exact Hi.
    now rewrite Hnext, Ht. }
  split; [|split].
  - apply remove_matching_head; try assumption. now apply key_matches_sym.
  - intros Hs key2 Hidx2.
    assert (E : _hashtable_find fuel2 (Some t') key2 s' = Ok None s').
    { unfold _hashtable_find.
      erewrite bind_ok; [|eapply slot_index_same_size; [|exact Hidx2]; reflexivity].
      rewrite Hb'. simpl. unfold shortcut in Hs. now rewrite Hs. }
    unfold hashtable_get, hashtable_exists_pair.
    now rewrite !(bind_ok _ _ _ _ _ E).
  - intros key2 v override deallocator2 s2 Hidx2 Hitems Hnl Ha.
    unfold _hashtable_insert.
    erewrite bind_ok; [|eapply slot_index_same_size; [|exact Hidx2]; reflexivity].
    rewrite Hb'. unfold _key_in_bucket. simpl.
    unfold bind at 1. simpl.
    rewrite (bind_ok _ _ _ _ _ (hash_item_create_succeeds key2 v _ Ha)).
    unfold bind at 1.
    erewrite bucket_insert_stale_tail;
      [reflexivity | apply lookup_insert_eq | reflexivity | congruence |].
    simpl. rewrite lookup_insert_ne by congruence.
    rewrite Hitems. unfold s', removed_state. simpl.
    apply lookup_delete_eq.
Qed.

(** X11: a table handed back by a set that grew it refuses every removal:
    its count is 0, so [_hashtable_remove] returns -1 before looking at any
    bucket, for keys that are stored as for any other. *)
Theorem remove_fails_after_growth fuel t key v replace deallocator s t' s' :
  hashtable_set fuel (Some t) key v replace deallocator s = Ok (0, Some t') s' →
  ∀ fuel2 key2 deallocator2 s2,
    _hashtable_remove fuel2 (Some t') key2 deallocator2 s2 = Ok (-1, Some t') s2.
Proof.
  intros H fuel2 key2 deallocator2 s2.
  assert (E : num_items t' = 0).
  { unfold hashtable_set in H. repeat step_ok.
    match goal with E : _hashtable_grow _ _ _ = _ |- _ =>
      now apply grow_shape in E end. }
  unfold _hashtable_remove. now rewrite E.
Qed.

(** *** Failure and read-only paths *)

Lemma slot_index_reads t key s index s' :
  slot_index t key s = Ok index s' → s' = s.
Proof.
  unfold slot_index. destruct (table_size t =? 0); [discriminate|].
  unfold ret. now intros [= _ <-].
Qed.

Lemma find_reads fuel t key s r s' :
  _hashtable_find fuel t key s = Ok r s' → s' = s.
Proof.
  unfold _hashtable_find. destruct t as [t|]; [|now intros; step_ok].
  intros H. apply bind_inv in H as (index & s0 & Hidx & H).
  apply slot_index_reads in Hidx. subst s0.
  destruct (buckets t !! index) as [[b|]|]; [| now step_ok | discriminate].
  destruct (negb (had_collision b) && (bucket_size b =? 1)); [now step_ok|].
  unfold bind, load in H.
  destruct (bucket_head b) as [l|]; [|discriminate].
  destruct (items s !! l) as [it|]; [|discriminate].
  destruct (strncmp _ _ _ =? 0); [now step_ok|].
  eapply find_loop_reads; exact H.
Qed.

(** X16: lookups only read: whenever get or exists returns, the state
    (items, allocator, event log) is the one it was called in, and exists
    returns 1 exactly when get found an item. *)
Theorem lookups_only_read fuel t key s :
  (∀ v s', hashtable_get fuel t key s = Ok v s' → s' = s)
  ∧ (∀ r s', hashtable_exists_pair fuel t key s = Ok r s' →
       s' = s ∧ ((r = 1 ∧ ∃ l, _hashtable_find fuel t key s = Ok (Some l) s)
                 ∨ (r = 0 ∧ _hashtable_find fuel t key s = Ok None s))).
Proof.
  split.
  - intros v s' H. unfold hashtable_get in H.
    apply bind_inv in H as (pair & s1 & Hf & H).
    pose proof (find_reads _ _ _ _ _ _ Hf). subst s1.
    destruct pair as [l|]; [|now step_ok].
    unfold bind, load in H. destruct (items s !! l); [|discriminate]. now step_ok.
  - intros r s' H. unfold hashtable_exists_pair in H.
    apply bind_inv in H as (pair & s1 & Hf & H).
    pose proof (find_reads _ _ _ _ _ _ Hf). subst s1.
    destruct pair as [l|]; step_ok; split; eauto.
Qed.

(** X17: an insert that returns -1 (the key is present and [override] is 0,
    or an allocation failed) leaves the table as it was and changes neither
    the items nor the event log: no bucket, link, value or count is touched
    and no deallocator is called. *)
Theorem failed_insert_changes_nothing fuel t key v override deallocator s t' s' :
  _hashtable_insert fuel t key v override deallocator s = Ok (-1, t') s' →
  t' = t ∧ same_heap s s'.
Proof.
  unfold _hashtable_insert. intros H.
  apply bind_inv in H as (index & s0 & Hidx & H).
  apply slot_index_reads in Hidx. subst s0.
  destruct (buckets t !! index) as [[b|]|]; [| |discriminate].
  - apply bind_inv in H as (found & s1 & Hk & H).
    apply key_in_bucket_loop_reads in Hk. subst s1.
    destruct found as [l|].
    + destruct (override =? 0); [step_ok; split; [reflexivity|apply same_heap_refl]|].
      repeat step_ok.
    + apply bind_inv in H as (new_pair & s1 & Hc & H).
      destruct new_pair as [nl|].
      * apply bind_inv in H as ([r b'] & s2 & Hi & H).
        apply bucket_insert_returns_zero in Hi. subst r. step_ok.
      * step_ok. split; [reflexivity|]. eapply hash_item_create_none; eassumption.
  - apply bind_inv in H as (ok & s1 & Hm & H).
    pose proof (malloc_same_heap _ _ _ Hm) as Hsame.
    destruct ok; simpl in H.
    + apply bind_inv in H as (new_pair & s2 & Hc & H).
      destruct new_pair as [nl|].
      * repeat step_ok.
      * step_ok. split; [reflexivity|].
        eapply same_heap_trans; [eassumption|].
        eapply hash_item_create_none; eassumption.
    + step_ok. now split.
Qed.


(** X19: [_hashtable_grow] returns NULL only because [hashtable_create]
    failed, before any slot was visited: the items and the event log are
    the ones of the call, nothing was migrated or freed. *)
Theorem failed_growth_changes_nothing fuel t s s' :
  _hashtable_grow fuel t s = Ok None s' → same_heap s s'.
Proof.
  unfold _hashtable_grow. intros H.
  apply bind_inv in H as (new_table & s1 & Hc & H).
  destruct new_table as [nt|]; [repeat step_ok|].
  step_ok. unfold hashtable_create in Hc.
  apply bind_inv in Hc as (ok1 & s2 & Hm1 & Hc).
  pose proof (malloc_same_heap _ _ _ Hm1).
  destruct ok1; simpl in Hc; [|now step_ok].
  apply bind_inv in Hc as (ok2 & s3 & Hm2 & Hc).
  pose proof (malloc_same_heap _ _ _ Hm2).
  destruct ok2; simpl in Hc; step_ok. eauto using same_heap_trans.
Qed.

(** X1: for a table with at least one slot the index computation returns,
    changes nothing, and its result is below [table_size]: with a slot array
    of [table_size] entries no access is out of bounds. *)
Theorem slot_index_in_range t key s :
  0 < table_size t →
  ∃ index, slot_index t key s = Ok index s
           ∧ (index < Z.to_nat (table_size t))%nat.
Proof. apply slot_index_in_range_aux. Qed.

(** *** Stored keys stay findable *)

Lemma slot_index_any_state t key s s' index :
  slot_index t key s = Ok index s → slot_index t key s' = Ok index s'.
Proof. apply slot_index_same_size. reflexivity. Qed.

(** An insert that creates an item keeps every item findable by its own
    key, the new one included. *)
Lemma insert_created_findable t key v s cs index ls t1 s1 :
  table_wf s t cs →
  keys_findable s t cs →
  slot_index t key s = Ok index s →
  cs !! index = Some ls →
  first_match (items s) key ls = None →
  same_shape t t1 →
  items s1 !! next_loc s = Some (created_item key v) →
  items_kept (items s) (items s1) →
  keys_findable s1 t1 (<[index := ls ++ [next_loc s]]> cs).
Proof.
  intros Hwf Hkf Hidx Hls Hfm (Es & _ & _) Hnew Hkept i ls_i l it1 Hi Hin Hit1.
  pose proof (table_wf_next_free _ _ _ Hwf) as Hfree.
  pose proof (lookup_lt_Some _ _ _ Hls) as Hlt.
  assert (Hlive : ∀ l0, l0 ∈ ls → is_Some (items s !! l0)).
  { intros l0 Hl0. eapply table_wf_live; eassumption. }
  assert (Hlive1 : ∀ l0, l0 ∈ ls → is_Some (items s1 !! l0)).
  { intros l0 Hl0. destruct (Hlive l0 Hl0) as [it0 Hit0].
    destruct (Hkept l0 it0 Hit0) as (it0' & -> & _). eauto. }
  destruct (decide (l = next_loc s)) as [->|Hne].
  - assert (i = index) as ->.
    { destruct (decide (i = index)) as [|Hne]; [assumption|exfalso].
      rewrite list_lookup_insert_ne in Hi by congruence.
      destruct (table_wf_live _ _ _ _ _ _ Hwf Hi Hin) as [? ?]. congruence. }
    rewrite list_lookup_insert_eq in Hi by exact Hlt. simplify_eq.
    split; [eapply slot_index_same_size; [exact Es|exact Hidx]|].
    split; [|reflexivity]. simpl.
    rewrite first_match_app by exact Hlive1.
    rewrite (first_match_kept (items s) (items s1) key ls Hkept Hlive), Hfm.
    simpl. now rewrite Hnew, key_matches_created.
  - assert (Hold : ∃ ls0, cs !! i = Some ls0 ∧ l ∈ ls0
                     ∧ (∀ k, first_match (items s1) k ls0 = Some l →
                             first_match (items s1) k ls_i = Some l)).
    { destruct (decide (i = index)) as [->|Hne'].
      - rewrite list_lookup_insert_eq in Hi by exact Hlt. simplify_eq.
        exists ls. split; [assumption|]. split; [set_solver|].
        intros k Hk. now rewrite first_match_app, Hk by exact Hlive1.
      - rewrite list_lookup_insert_ne in Hi by congruence.
        exists ls_i. now repeat split. }
    destruct Hold as (ls0 & Hls0 & Hin0 & Hfm0).
    destruct (table_wf_live _ _ _ _ _ _ Hwf Hls0 Hin0) as [it Hit].
    destruct (Hkept l it Hit) as (it' & Hit' & Hk & _ & Hkl).
    assert (it' = it1) as -> by congruence.
    destruct (Hkf i ls0 l it Hls0 Hin0 Hit) as (Hs & Hf & Hl).
    rewrite Hk, Hkl. split; [eapply slot_index_same_size; [exact Es|exact Hs]|].
    split; [|exact Hl]. apply Hfm0.
    rewrite (first_match_kept (items s) (items s1)); [exact Hf|exact Hkept|].
    intros l0 Hl0. eapply table_wf_live; eassumption.
Qed.

(** X21: on a well-formed table whose items are all findable, every stored
    key is found: get returns the value of the item that stores exactly this
    key and exists returns 1. *)
Theorem stored_keys_are_found fuel t s cs i ls l it :
  table_wf s t cs →
  keys_findable s t cs →
  cs !! i = Some ls →
  l ∈ ls →
  items s !! l = Some it →
  (List.length ls ≤ fuel)%nat →
  hashtable_get fuel (Some t) (item_key it) s = Ok (item_value it) s
  ∧ hashtable_exists_pair fuel (Some t) (item_key it) s = Ok 1 s.
Proof.
  intros Hwf Hkf Hls Hin Hit Hf.
  destruct (Hkf i ls l it Hls Hin Hit) as (Hs & Hfm & _).
  apply (get_exists_of_find _ _ _ _ l it); [|exact Hit].
  eapply find_in_table; eassumption.
Qed.

(** *** Facts used by the growth *)

Lemma slot_index_value t key s :
  0 < table_size t →
  slot_index t key s
  = Ok (Z.to_nat (wrap_u32 (hashlittle key (keylen_of key) hashtable_seed)
                  mod table_size t)) s.
Proof.
  intros Hs. unfold slot_index.
  destruct (table_size t =? 0) eqn:E; [apply Z.eqb_eq in E; lia|].
  unfold ret. do 2 f_equal.
  pose proof (wrap_u32_range (hashlittle key (keylen_of key) hashtable_seed)) as Hh.
  set (h := wrap_u32 (hashlittle key (keylen_of key) hashtable_seed)) in *.
  pose proof (Z.mod_pos_bound h (table_size t) Hs).
  assert (h mod table_size t ≤ h) by (apply Z.mod_le; lia).
  unfold wrap_u32, uint32_max. apply Z.mod_small. lia.
Qed.

(** Two keys that share a slot in a table of twice the size shared one
    before. *)
Lemma slot_index_doubling t nt k1 k2 s s' j i1 i2 :
  0 < table_size t →
  table_size nt = 2 * table_size t →
  slot_index nt k1 s = Ok j s →
  slot_index nt k2 s = Ok j s →
  slot_index t k1 s' = Ok i1 s' →
  slot_index t k2 s' = Ok i2 s' →
  i1 = i2.
Proof.
  intros Hs Hd H1 H2 H3 H4.
  rewrite slot_index_value in H1, H2 by lia.
  rewrite slot_index_value in H3, H4 by lia.
  set (h1 := wrap_u32 (hashlittle k1 (keylen_of k1) hashtable_seed)) in *.
  set (h2 := wrap_u32 (hashlittle k2 (keylen_of k2) hashtable_seed)) in *.
  injection H1 as H1. injection H2 as H2. injection H3 as <-. injection H4 as <-.
  assert (E : h1 mod table_size nt = h2 mod table_size nt).
  { pose proof (Z.mod_pos_bound h1 (table_size nt)).
    pose proof (Z.mod_pos_bound h2 (table_size nt)).
    apply Z2Nat.inj; lia. }
  f_equal.
  rewrite <- (Z.mod_mod_divide h1 (table_size nt) (table_size t)) by (exists 2; lia).
  rewrite <- (Z.mod_mod_divide h2 (table_size nt) (table_size t)) by (exists 2; lia).
  now rewrite E.
Qed.

Lemma stored_key_arg_ok it s :
  item_keylen it = keylen_of (item_key it) →
  stored_key_arg it s = Ok (item_key it) s.
Proof.
  intros E. unfold stored_key_arg. rewrite E. unfold keylen_of.
  replace (0 <=? Z.of_nat (String.length (item_key it))) with true
    by (symmetry; apply Z.leb_le; lia).
  replace (Z.of_nat (String.length (item_key it))
           <=? Z.of_nat (String.length (item_key it)) + 1) with true
    by (symmetry; apply Z.leb_le; lia).
  simpl. unfold ret. now rewrite Nat2Z.id, substring_whole.
Qed.

Lemma keys_findable_delete s t cs l s2 :
  table_wf s t cs →
  keys_findable s t cs →
  l ∉ List.concat cs →
  items s2 = delete l (items s) →
  keys_findable s2 t cs.
Proof.
  intros Hwf Hkf Hl Hi i ls l0 it0 Hls Hin Hit0.
  assert (Hne : ∀ x, x ∈ ls → x ≠ l).
  { intros x Hx ->. apply Hl. apply elem_of_concat_lookup. eauto. }
  rewrite Hi, lookup_delete_ne in Hit0 by (intros E; apply (Hne l0 Hin); congruence).
  destruct (Hkf i ls l0 it0 Hls Hin Hit0) as (Hs & Hfm & Hkl).
  split; [eapply slot_index_any_state; exact Hs|]. split; [|exact Hkl].
  rewrite Hi. rewrite (first_match_ext (items s)); [exact Hfm| |].
  - intros x itx Hx Hitx. exists itx. split; [|reflexivity].
    rewrite lookup_delete_ne; [assumption|]. intros E. apply (Hne x Hx). congruence.
  - intros x Hx. eapply table_wf_live; eassumption.
Qed.

(** One pass of the migration loop: the item at the head of what is left
    is inserted into the new table as a new item, then freed. *)
Lemma migrate_item fuel t s0 cs i c1 l c2 P R nt sc ncs it :
  table_wf s0 t cs →
  keys_findable s0 t cs →
  cs !! i = Some (c1 ++ l :: c2) →
  (∀ l0, l0 ∈ P → l0 ∈ c1 ∨ ∃ j c, j ≠ i ∧ cs !! j = Some c ∧ l0 ∈ c) →
  l ∉ R →
  migrating t (items s0) P (l :: R) nt sc ncs →
  items s0 !! l = Some it →
  (List.length P < fuel)%nat →
  ∃ nt1 s1 s2 ncs1,
    stored_key_arg it sc = Ok (item_key it) sc
    ∧ _hashtable_insert fuel nt (item_key it) (item_value it) 0 false sc = Ok (0, nt1) s1
    ∧ _hash_item_destroy (Some l) s1 = Ok 0 s2
    ∧ migrating t (items s0) (P ++ [l]) R nt1 s2 ncs1
    ∧ same_shape nt nt1.
Proof.
  intros Hwf0 Hkf0 Hci HP HlR Hmg Hit Hfuel.
  destruct Hmg as [Hwf Hkf Hsize Hrest Hgone Hapart Hmoved Horigin Hcount Halloc Hbound].
  assert (Hc1 : l ∈ c1 ++ l :: c2) by set_solver.
  destruct (Hkf0 i _ l it Hci Hc1 Hit) as (Hs0 & Hfm0 & Hkl0).
  assert (Hlc1 : l ∉ c1).
  { destruct (table_wf_chain _ _ _ _ _ Hwf0 Hci) as ([b|] & _ & Hslot); simpl in Hslot.
    - destruct Hslot as [Hb _]. pose proof (wf_nodup _ _ _ Hb) as Hnd.
      apply NoDup_app in Hnd as (_ & Hd & _). intros Hin. apply (Hd l Hin). set_solver.
    - destruct c1; discriminate. }
  pose proof (twf_size _ _ _ Hwf0) as Hts.
  pose proof (twf_size _ _ _ Hwf) as Hnts.
  destruct (slot_index_in_range_aux nt (item_key it) sc Hnts) as (j & Hj & Hjlt).
  destruct (lookup_lt_is_Some_2 ncs j) as [ls' Hls'].
  { rewrite (twf_chains_len _ _ _ Hwf), (twf_slots _ _ _ Hwf). exact Hjlt. }
  destruct (Hrest l) as (it_l & Hit_l & Hlive_l); [set_solver|].
  assert (it_l = it) as -> by congruence.
  pose proof (table_wf_next_free _ _ _ Hwf) as Hfree.
  assert (Hlnl : l ≠ next_loc sc) by congruence.
  assert (Hl_notin : l ∉ List.concat ncs) by (apply Hapart; set_solver).
  assert (Hsub : ∀ x, x ∈ ls' → x ∈ List.concat ncs).
  { intros x Hx. apply elem_of_concat_lookup. eauto. }
  (* no item of the target chain compares equal to the key *)
  assert (Hfm : first_match (items sc) (item_key it) ls' = None).
  { apply first_match_none. intros l' Hl'.
    destruct (table_wf_live _ _ _ _ _ _ Hwf Hls' Hl') as [it' Hit'].
    exists it'. split; [assumption|].
    destruct (Horigin j ls' l' it' Hls' Hl' Hit') as (lp & itp & HlpP & Hitp & Hkey).
    destruct (Hkf j ls' l' it' Hls' Hl' Hit') as (Hsj & _ & _).
    rewrite (key_matches_same_key _ itp it') by (symmetry; exact Hkey).
    destruct (HP lp HlpP) as [Hin1|(a & c & Ha & Hca & Hinc)].
    - eapply first_match_before; eassumption.
    - exfalso. destruct (Hkf0 a c lp itp Hca Hinc Hitp) as (Hsa & _ & _).
      apply Ha. symmetry. rewrite <- Hkey in Hsj.
      exact (slot_index_doubling t nt _ _ sc s0 j i a Hts Hsize Hj Hsj Hs0 Hsa). }
  assert (Hlenls : (List.length ls' < fuel)%nat).
  { pose proof (length_chain_le_concat _ _ _ Hls'). lia. }
  destruct (insert_created_wf fuel nt (item_key it) (item_value it) 0 false sc ncs j ls'
              Hwf Hj Hls' Hfm)
    as (nt1 & s1 & k & Hins & Hwf1 & Hshape & Hnew & Hkept & Hnl & Hev & Hk & Hplan & Hframe).
  { eapply allocations_succeed_le; [|exact Halloc]. simpl. lia. }
  { simpl in Hbound. lia. }
  { exact Hlenls. }
  pose proof (insert_created_findable nt (item_key it) (item_value it) sc ncs j ls' nt1 s1
                Hwf Hkf Hj Hls' Hfm Hshape Hnew Hkept) as Hkf1.
  assert (Hl1 : items s1 !! l = Some it).
  { rewrite Hframe; [exact Hlive_l| |exact Hlnl]. intros Hin. apply Hl_notin. auto. }
  set (s2 := State (delete l (items s1)) (next_loc s1) (alloc_plan s1)
                   (events s1 ++ [Ev_free_key l; Ev_free_item l])).
  assert (Hl_notin1 : l ∉ List.concat (<[j := ls' ++ [next_loc sc]]> ncs)).
  { rewrite elem_of_concat_insert_snoc by exact Hls'. intros [?|?]; congruence || auto. }
  exists nt1, s1, s2, (<[j := ls' ++ [next_loc sc]]> ncs).
  split; [now apply stored_key_arg_ok|]. split; [exact Hins|].
  split. { unfold _hash_item_destroy, bind, release. now rewrite Hl1. }
  split; [|exact Hshape].
  assert (Hold_kept : ∀ x, x ∈ List.concat ncs → ∀ itx, items sc !! x = Some itx →
            ∃ itx', items s2 !! x = Some itx' ∧ item_key itx' = item_key itx
                    ∧ item_value itx' = item_value itx).
  { intros x Hx itx Hitx. destruct (Hkept x itx Hitx) as (itx' & Hx' & Hk' & Hv' & _).
    exists itx'. split; [|now split]. simpl.
    rewrite lookup_delete_ne; [exact Hx'|]. intros <-. contradiction. }
  split.
  - eapply table_wf_delete; [exact Hwf1|exact Hl_notin1|reflexivity|reflexivity].
  - eapply keys_findable_delete; [exact Hwf1|exact Hkf1|exact Hl_notin1|reflexivity].
  - destruct Hshape as (Es & _). lia.
  - intros x Hx. destruct (Hrest x) as (itx & Hx0 & Hxc); [set_solver|].
    exists itx. split; [exact Hx0|]. simpl.
    rewrite lookup_delete_ne by (intros <-; contradiction).
    rewrite Hframe; [exact Hxc| |congruence].
    intros Hin. apply (Hapart x); [set_solver|auto].
  - intros x Hx. apply elem_of_app in Hx as [Hx|Hx].
    + destruct (Hgone x Hx) as [Hnone Hlt]. simpl. split; [|lia].
      destruct (decide (x = l)) as [->|Hne]; [apply lookup_delete_eq|].
      rewrite lookup_delete_ne by congruence.
      rewrite Hframe; [exact Hnone| |lia].
      intros Hin. destruct (table_wf_live _ _ _ _ _ _ Hwf Hls' Hin) as [? H].
      pose proof (eq_trans (eq_sym Hnone) H). discriminate.
    + apply list_elem_of_singleton in Hx. subst x. simpl.
      split; [apply lookup_delete_eq|].
      pose proof (twf_fresh _ _ _ Hwf l (mk_is_Some _ _ Hlive_l)). lia.
  - intros x Hx. rewrite elem_of_concat_insert_snoc by exact Hls'.
    destruct (Hrest x) as (itx & _ & Hxc); [set_solver|].
    intros [->|Hin]; [congruence|]. apply (Hapart x); [set_solver|exact Hin].
  - intros x itx Hx Hitx. apply elem_of_app in Hx as [Hx|Hx].
    + destruct (Hmoved x itx Hx Hitx) as (j0 & ls0 & x' & itx' & Hj0 & Hin0 & Hx' & Hk' & Hv').
      destruct (Hold_kept x' (elem_of_concat_intro _ _ _
                  (proj2 (list_elem_of_lookup _ _) (ex_intro _ j0 Hj0)) Hin0) itx' Hx')
        as (itx2 & Hx2 & Hk2 & Hv2).
      destruct (decide (j0 = j)) as [->|Hne].
      * assert (ls0 = ls') as -> by congruence.
        exists j, (ls' ++ [next_loc sc]), x', itx2.
        split; [apply list_lookup_insert_eq; eapply lookup_lt_Some; exact Hls'|].
        split; [set_solver|]. split; [exact Hx2|]. split; congruence.
      * exists j0, ls0, x', itx2.
        split; [rewrite list_lookup_insert_ne by congruence; exact Hj0|].
        split; [exact Hin0|]. split; [exact Hx2|]. split; congruence.
    + apply list_elem_of_singleton in Hx. subst x. assert (itx = it) as -> by congruence.
      exists j, (ls' ++ [next_loc sc]), (next_loc sc), (created_item (item_key it) (item_value it)).
      split; [apply list_lookup_insert_eq; eapply lookup_lt_Some; exact Hls'|].
      split; [set_solver|]. split; [|now split].
      simpl. rewrite lookup_delete_ne by congruence. exact Hnew.
  - intros j0 ls0 x' itx' Hj0 Hin0 Hx'.
    simpl in Hx'.
    assert (Hx'ne : x' ≠ l).
    { intros ->. rewrite lookup_delete_eq in Hx'. discriminate. }
    rewrite lookup_delete_ne in Hx' by congruence.
    destruct (decide (x' = next_loc sc)) as [->|Hne].
    + exists l, it. split; [set_solver|]. split; [exact Hit|].
      rewrite Hnew in Hx'. now injection Hx' as <-.
    + assert (Hold : ∃ ls1, ncs !! j0 = Some ls1 ∧ x' ∈ ls1).
      { destruct (decide (j0 = j)) as [->|Hne'].
        - rewrite list_lookup_insert_eq in Hj0 by (eapply lookup_lt_Some; exact Hls').
          injection Hj0 as <-. exists ls'. split; [assumption|set_solver].
        - rewrite list_lookup_insert_ne in Hj0 by congruence. eauto. }
      destruct Hold as (ls1 & Hls1 & Hin1).
      destruct (table_wf_live _ _ _ _ _ _ Hwf Hls1 Hin1) as [itx Hitx].
      destruct (Hkept x' itx Hitx) as (itx2 & Hx2 & Hk2 & _).
      assert (itx2 = itx') as -> by congruence.
      destruct (Horigin j0 ls1 x' itx Hls1 Hin1 Hitx) as (lp & itp & HlpP & Hitp & Hkey).
      exists lp, itp. split; [set_solver|]. split; [exact Hitp|congruence].
  - rewrite length_concat_insert_snoc by exact Hls'.
    rewrite length_app. simpl. lia.
  - simpl. eapply (allocations_succeed_after _ k sc); [|exact Hk|exact Hplan].
    eapply allocations_succeed_le; [|exact Halloc]. simpl. lia.
  - simpl in *. lia.
Qed.


(** The growth invariant does not read the allocation plan's past nor the
    event log. *)
Lemma migrating_events t h0 P R nt sc ncs sc' :
  migrating t h0 P R nt sc ncs →
  items sc' = items sc → next_loc sc' = next_loc sc → alloc_plan sc' = alloc_plan sc →
  migrating t h0 P R nt sc' ncs.
Proof.
  intros [Hwf Hkf Hsize Hrest Hgone Hapart Hmoved Horigin Hcount Halloc Hbound] Ei En Ea.
  split.
  - eapply table_wf_heap_ext; [exact Hwf| | |].
    + intros l it Hl. exists it. now rewrite Ei.
    + lia.
    + intros l Hl. rewrite Ei in Hl. rewrite En. now apply (twf_fresh _ _ _ Hwf).
  - intros i ls l it Hi Hl Hit. rewrite Ei in *.
    destruct (Hkf i ls l it Hi Hl Hit) as (H1 & H2 & H3).
    split; [|now split]. eapply slot_index_any_state; exact H1.
  - exact Hsize.
  - intros l Hl. rewrite Ei. auto.
  - intros l Hl. rewrite Ei, En. auto.
  - exact Hapart.
  - intros l it Hl Hit. rewrite Ei. eauto.
  - intros j ls' l' it' Hj Hl' Hit'. rewrite Ei in Hit'. eauto.
  - exact Hcount.
  - unfold allocations_succeed in *. now rewrite Ea.
  - now rewrite En.
Qed.

(** The item loop of the growth on the chain of slot [i]: [c1] is the part
    already migrated, [c2] the part still linked from [p]. *)
Lemma grow_items_loop fuel t s0 cs i :
  table_wf s0 t cs →
  keys_findable s0 t cs →
  ∀ c2 n c1 p P R nt sc ncs,
    cs !! i = Some (c1 ++ c2) →
    is_chain (items s0) p c2 →
    (∀ l0, l0 ∈ P → l0 ∈ c1 ∨ ∃ j c, j ≠ i ∧ cs !! j = Some c ∧ l0 ∈ c) →
    NoDup (c2 ++ R) →
    migrating t (items s0) P (c2 ++ R) nt sc ncs →
    (List.length P + List.length c2 < fuel)%nat →
    (List.length c2 < n)%nat →
    ∃ nt1 s1 ncs1,
      _grow_items fuel n nt p sc = Ok nt1 s1
      ∧ migrating t (items s0) (P ++ c2) R nt1 s1 ncs1
      ∧ same_shape nt nt1.
Proof.
  intros Hwf0 Hkf0.
  induction c2 as [|l c2 IH]; intros n c1 p P R nt sc ncs Hci Hch HP Hnd Hmg Hfuel Hn.
  - simpl in Hch. subst p. destruct n; [simpl in Hn; lia|].
    exists nt, sc, ncs. rewrite app_nil_r. simpl.
    split; [reflexivity|]. split; [exact Hmg|apply same_shape_refl].
  - destruct Hch as (-> & it & Hit & Hch).
    destruct n as [|n]; [simpl in Hn; lia|].
    simpl in Hnd. apply NoDup_cons in Hnd as [HlR Hnd].
    destruct (migrate_item fuel t s0 cs i c1 l c2 P (c2 ++ R) nt sc ncs it
                Hwf0 Hkf0 Hci HP HlR Hmg Hit)
      as (nt1 & s1 & s2 & ncs1 & Hkey & Hins & Hdel & Hmg1 & Hshape1); [simpl in Hfuel; lia|].
    destruct (mg_rest _ _ _ _ _ _ _ _ _ Hmg l) as (it' & Hit0 & Hitc); [set_solver|].
    assert (it' = it) as -> by congruence.
    destruct (IH n (c1 ++ [l]) (item_next it) (P ++ [l]) R nt1 s2 ncs1)
      as (nt2 & s3 & ncs2 & Hrun & Hmg2 & Hshape2).
    + rewrite <- app_assoc. exact Hci.
    + exact Hch.
    + intros l0 Hl0. apply elem_of_app in Hl0 as [Hl0|Hl0].
      * destruct (HP l0 Hl0) as [?|?]; [left; set_solver|now right].
      * left. set_solver.
    + exact Hnd.
    + exact Hmg1.
    + rewrite length_app. simpl in *. lia.
    + simpl in Hn. lia.
    + exists nt2, s3, ncs2. split; [|split].
      * cbn [_grow_items].
        rewrite (bind_ok _ _ _ _ _ (load_ok _ _ _ Hitc)).
        rewrite (bind_ok _ _ _ _ _ Hkey).
        rewrite (bind_ok _ _ _ _ _ Hins).
        rewrite (bind_ok _ _ _ _ _ Hdel).
        exact Hrun.
      * rewrite <- app_assoc in Hmg2. exact Hmg2.
      * eapply same_shape_trans; eassumption.
Qed.

(** The slot loop of the growth, with the slots before [i] migrated. *)
Lemma grow_slots_loop fuel t s0 cs :
  table_wf s0 t cs →
  keys_findable s0 t cs →
  (List.length (List.concat cs) < fuel)%nat →
  ∀ count i nt sc ncs,
    (i + count)%nat = List.length (buckets t) →
    migrating t (items s0) (List.concat (take i cs)) (List.concat (drop i cs)) nt sc ncs →
    ∃ nt1 s1 ncs1,
      _grow_slots fuel t count i nt sc = Ok nt1 s1
      ∧ migrating t (items s0) (List.concat cs) [] nt1 s1 ncs1
      ∧ same_shape nt nt1.
Proof.
  intros Hwf0 Hkf0 Hfuel.
  pose proof (twf_chains_len _ _ _ Hwf0) as Hlen.
  induction count as [|count IH]; intros i nt sc ncs Hi Hmg.
  - exists nt, sc, ncs. split; [reflexivity|]. split; [|apply same_shape_refl].
    rewrite take_ge, drop_ge in Hmg by lia. exact Hmg.
  - destruct (lookup_lt_is_Some_2 cs i) as [ls Hls]; [lia|].
    destruct (table_wf_chain _ _ _ _ _ Hwf0 Hls) as (slot & Hslot & Hswf).
    rewrite (drop_S _ _ _ Hls) in Hmg. simpl in Hmg.
    assert (Htake : List.concat (take (S i) cs) = List.concat (take i cs) ++ ls).
    { rewrite (take_S_r _ _ _ Hls), concat_app. simpl. now rewrite app_nil_r. }
    cbn [_grow_slots]. rewrite Hslot. destruct slot as [b|]; simpl in Hswf.
    + destruct Hswf as [Hb _].
      assert (Hnd : NoDup (ls ++ List.concat (drop (S i) cs))).
      { pose proof (table_wf_nodup _ _ _ Hwf0) as Hnd.
        rewrite <- (take_drop i cs), concat_app in Hnd.
        apply NoDup_app in Hnd as (_ & _ & Hnd).
        rewrite (drop_S _ _ _ Hls) in Hnd. exact Hnd. }
      assert (Hcount : (List.length (List.concat (take i cs)) + List.length ls
                        ≤ List.length (List.concat cs))%nat).
      { assert (E : List.length (List.concat cs)
                      = List.length (List.concat (take i cs ++ drop i cs)))
          by now rewrite take_drop.
        rewrite E, concat_app, length_app.
        rewrite (drop_S _ _ _ Hls). simpl. rewrite length_app. lia. }
      destruct (grow_items_loop fuel t s0 cs i Hwf0 Hkf0 ls fuel [] (bucket_head b)
                  (List.concat (take i cs)) (List.concat (drop (S i) cs)) nt sc ncs)
        as (nt1 & s1 & ncs1 & Hrun & Hmg1 & Hshape1).
      * exact Hls.
      * exact (wf_chain _ _ _ Hb).
      * intros l0 Hl0. right. apply elem_of_concat_lookup in Hl0 as (j & c & Hj & Hin).
        apply lookup_take_Some in Hj as [Hj Hlt]. exists j, c.
        split; [lia|]. now split.
      * exact Hnd.
      * exact Hmg.
      * lia.
      * lia.
      * rewrite (bind_ok _ _ _ _ _ Hrun). unfold bind at 1, emit.
        destruct (IH (S i) nt1
                    (State (items s1) (next_loc s1) (alloc_plan s1)
                           (events s1 ++ [Ev_free_bucket i])) ncs1)
          as (nt2 & s2 & ncs2 & Hrun2 & Hmg2 & Hshape2).
        { lia. }
        { rewrite Htake. eapply migrating_events; [exact Hmg1|reflexivity..]. }
        exists nt2, s2, ncs2. split; [exact Hrun2|]. split; [exact Hmg2|].
        eapply same_shape_trans; eassumption.
    + subst ls. apply (IH (S i) nt sc ncs); [lia|]. rewrite Htake, app_nil_r. exact Hmg.
Qed.

(** What a growth with enough allocations does to a well-formed table. *)
Lemma grow_migrates fuel t s cs :
  table_wf s t cs →
  keys_findable s t cs →
  table_size t * HASHTABLE_GROWTH_FACTOR < size_max →
  allocations_succeed (2 + 3 * List.length (List.concat cs)) s →
  Z.of_nat (next_loc s + List.length (List.concat cs)) < size_max - 1 →
  (List.length (List.concat cs) < fuel)%nat →
  ∃ t' s' cs',
    _hashtable_grow fuel t s = Ok (Some t') s'
    ∧ table_wf s' t' cs'
    ∧ keys_findable s' t' cs'
    ∧ table_size t' = 2 * table_size t
    ∧ max_load_factor t' = max_load_factor t
    ∧ List.length (List.concat cs') = List.length (List.concat cs)
    ∧ ∀ l it, l ∈ List.concat cs → items s !! l = Some it →
        items s' !! l = None
        ∧ hashtable_get fuel (Some t') (item_key it) s' = Ok (item_value it) s'
        ∧ hashtable_exists_pair fuel (Some t') (item_key it) s' = Ok 1 s'.
Proof.
  intros Hwf Hkf Hsz Ha Hbound Hfuel.
  pose proof (twf_size _ _ _ Hwf) as Hts.
  assert (Ha2 : allocations_succeed 2 s).
  { eapply allocations_succeed_le; [|exact Ha]. lia. }
  destruct (malloc_succeeds _ _ Ha2) as [E1 Ha1].
  destruct (malloc_succeeds _ _ Ha1) as [E2 _].
  rewrite after_mallocs_twice in E2.
  assert (Hw : wrap_size (table_size t * HASHTABLE_GROWTH_FACTOR) = 2 * table_size t).
  { unfold wrap_size, HASHTABLE_GROWTH_FACTOR in *. rewrite Z.mod_small; lia. }
  set (nt := Table (2 * table_size t) 0 (max_load_factor t)
                   (replicate (Z.to_nat (2 * table_size t)) None)).
  assert (Hcreate : hashtable_create (wrap_size (table_size t * HASHTABLE_GROWTH_FACTOR))
                      (max_load_factor t) s = Ok (Some nt) (after_mallocs 2 s)).
  { rewrite Hw. unfold hashtable_create. rewrite (bind_ok _ _ _ _ _ E1). simpl.
    rewrite (bind_ok _ _ _ _ _ E2). reflexivity. }
  assert (Hmg0 : migrating t (items s) [] (List.concat cs) nt (after_mallocs 2 s)
                   (replicate (Z.to_nat (2 * table_size t)) [])).
  { split.
    - split; simpl.
      + lia.
      + apply length_replicate.
      + now rewrite !length_replicate.
      + intros i slot ls Hs Hc.
        apply lookup_replicate in Hs as [-> _].
        apply lookup_replicate in Hc as [-> _]. reflexivity.
      + intros i j a b l _ Ha' _ Hin.
        apply lookup_replicate in Ha' as [-> _]. set_solver.
      + exact (twf_fresh _ _ _ Hwf).
    - intros i ls l it Hi Hl. apply lookup_replicate in Hi as [-> _]. set_solver.
    - reflexivity.
    - intros l Hl. apply elem_of_concat_lookup in Hl as (i & ls & Hi & Hl).
      destruct (table_wf_live _ _ _ _ _ _ Hwf Hi Hl) as [it Hit]. eauto.
    - intros l Hl. set_solver.
    - intros l _ Hin. apply elem_of_concat_lookup in Hin as (i & ls & Hi & Hl).
      apply lookup_replicate in Hi as [-> _]. set_solver.
    - intros l it Hl. set_solver.
    - intros j ls' l' it' Hj Hl'. apply lookup_replicate in Hj as [-> _]. set_solver.
    - assert (Hz : ∀ k, List.length (List.concat (replicate k (@nil loc))) = 0%nat)
        by (clear; induction k as [|k IHk]; [reflexivity|exact IHk]).
      apply Hz.
    - clear -Ha. unfold allocations_succeed, after_mallocs, with_plan in *. simpl.
      rewrite Forall_forall in *. intros b Hin. apply Ha.
      apply list_elem_of_lookup in Hin as [i Hi].
      apply lookup_take_Some in Hi as [Hi Hlt].
      rewrite lookup_drop in Hi.
      apply list_elem_of_lookup. exists (2 + i)%nat.
      apply lookup_take_Some. split; [assumption|lia].
    - exact Hbound. }
  destruct (grow_slots_loop fuel t s cs Hwf Hkf Hfuel (Z.to_nat (table_size t)) 0 nt
              (after_mallocs 2 s) _ (eq_sym (twf_slots _ _ _ Hwf)) Hmg0)
    as (nt1 & s1 & ncs1 & Hrun & Hmg & Hshape).
  destruct Hmg as [Hwf1 Hkf1 Hsize Hrest Hgone Hapart Hmoved Horigin Hcount _ _].
  set (s' := State (items s1) (next_loc s1) (alloc_plan s1)
                   ((events s1 ++ [Ev_free_buckets]) ++ [Ev_free_table])).
  assert (Hwf' : table_wf s' nt1 ncs1).
  { eapply table_wf_heap_ext; [exact Hwf1| | |].
    - intros l it Hl. exists it. now split.
    - simpl. lia.
    - exact (twf_fresh _ _ _ Hwf1). }
  assert (Hkf' : keys_findable s' nt1 ncs1).
  { intros i ls l it Hi Hl Hit. destruct (Hkf1 i ls l it Hi Hl Hit) as (H1 & H2 & H3).
    split; [|now split]. eapply slot_index_any_state; exact H1. }
  exists nt1, s', ncs1.
  split.
  { unfold _hashtable_grow. rewrite (bind_ok _ _ _ _ _ Hcreate).
    rewrite (bind_ok _ _ _ _ _ Hrun). reflexivity. }
  split; [exact Hwf'|]. split; [exact Hkf'|]. split; [exact Hsize|].
  split; [now destruct Hshape as (_ & _ & ->)|]. split; [exact Hcount|].
  intros l it Hl Hit.
  split; [exact (proj1 (Hgone l Hl))|].
  destruct (Hmoved l it Hl Hit) as (j & ls' & l' & it' & Hj & Hl' & Hit' & Hk & Hv).
  destruct (Hkf' j ls' l' it' Hj Hl' Hit') as (Hidx & Hfm & _).
  rewrite <- Hk, <- Hv.
  eapply get_exists_of_find; [|exact Hit'].
  eapply find_in_table; [exact Hwf'|exact Hidx|exact Hj|exact Hfm|].
  pose proof (length_chain_le_concat _ _ _ Hj). lia.
Qed.

(** *** Growth *)

(** X22: growth keeps every stored pair.  On a well-formed table whose
    items are findable, with the doubled size representable and enough
    allocations and fuel, [_hashtable_grow] returns a well-formed table of
    twice the slots and the same load factor in which findability holds
    again; every item of the old table is freed, and get and exists on the
    new table find its key with its value.  The new table holds as many
    items as the old one. *)
Theorem growth_keeps_stored_pairs fuel t s cs :
  table_wf s t cs →
  keys_findable s t cs →
  table_size t * HASHTABLE_GROWTH_FACTOR < size_max →
  allocations_succeed (2 + 3 * List.length (List.concat cs)) s →
  Z.of_nat (next_loc s + List.length (List.concat cs)) < size_max - 1 →
  (List.length (List.concat cs) < fuel)%nat →
  ∃ t' s' cs',
    _hashtable_grow fuel t s = Ok (Some t') s'
    ∧ table_wf s' t' cs'
    ∧ keys_findable s' t' cs'
    ∧ table_size t' = 2 * table_size t
    ∧ max_load_factor t' = max_load_factor t
    ∧ List.length (List.concat cs') = List.length (List.concat cs)
    ∧ ∀ l it, l ∈ List.concat cs → items s !! l = Some it →
        items s' !! l = None
        ∧ hashtable_get fuel (Some t') (item_key it) s' = Ok (item_value it) s'
        ∧ hashtable_exists_pair fuel (Some t') (item_key it) s' = Ok 1 s'.
Proof. apply grow_migrates. Qed.

(** X23: a set that triggers the growth loses no pair.  When a new key is
    stored in a well-formed table with findable items and the count reaches
    the threshold, [hashtable_set] returns 0 with a table of twice the
    slots, well formed and with findable items, in which the new key is
    found with its value and every key stored before with the value it
    had. *)
Theorem set_with_growth_keeps_all_pairs fuel t key v replace deallocator s cs index ls :
  table_wf s t cs →
  keys_findable s t cs →
  slot_index t key s = Ok index s →
  cs !! index = Some ls →
  first_match (items s) key ls = None →
  max_load_factor t ≤ num_items (incr_num_items t) / table_size t →
  table_size t * HASHTABLE_GROWTH_FACTOR < size_max →
  allocations_succeed (8 + 3 * List.length (List.concat cs)) s →
  Z.of_nat (next_loc s + List.length (List.concat cs) + 2) < size_max - 1 →
  (S (List.length (List.concat cs)) < fuel)%nat →
  ∃ t' s' cs',
    hashtable_set fuel (Some t) key v replace deallocator s = Ok (0, Some t') s'
    ∧ table_wf s' t' cs'
    ∧ keys_findable s' t' cs'
    ∧ table_size t' = 2 * table_size t
    ∧ List.length (List.concat cs') = S (List.length (List.concat cs))
    ∧ hashtable_get fuel (Some t') key s' = Ok v s'
    ∧ hashtable_exists_pair fuel (Some t') key s' = Ok 1 s'
    ∧ ∀ l it, l ∈ List.concat cs → items s !! l = Some it →
        hashtable_get fuel (Some t') (item_key it) s' = Ok (item_value it) s'
        ∧ hashtable_exists_pair fuel (Some t') (item_key it) s' = Ok 1 s'.
Proof.
  intros Hwf Hkf Hidx Hls Hfm Hthr Hsz Ha Hbound Hfuel.
  pose proof (length_chain_le_concat _ _ _ Hls) as Hlen.
  destruct (insert_created_wf fuel t key v replace deallocator s cs index ls
              Hwf Hidx Hls Hfm)
    as (t1 & s1 & k & Hins & Hwf1 & Hshape & Hnew & Hkept & Hnl & Hev & Hk & Hplan & Hframe).
  { eapply allocations_succeed_le; [|exact Ha]. lia. }
  { lia. }
  { lia. }
  pose proof (insert_created_findable t key v s cs index ls t1 s1
                Hwf Hkf Hidx Hls Hfm Hshape Hnew Hkept) as Hkf1.
  destruct Hshape as (Es & En & Em).
  set (cs1 := <[index := ls ++ [next_loc s]]> cs) in *.
  assert (Hlen1 : List.length (List.concat cs1) = S (List.length (List.concat cs))).
  { unfold cs1. now rewrite length_concat_insert_snoc by exact Hls. }
  assert (Hkf2 : keys_findable s1 (incr_num_items t1) cs1).
  { intros i ls_i l it Hi Hl Hit. destruct (Hkf1 i ls_i l it Hi Hl Hit) as (H1 & H2 & H3).
    split; [|now split]. eapply slot_index_same_size; [|exact H1]. reflexivity. }
  destruct (grow_migrates fuel (incr_num_items t1) s1 cs1 (table_wf_incr _ _ _ Hwf1) Hkf2)
    as (t' & s' & cs' & Hgrow & Hwf' & Hkf' & Hsize & _ & Hcount & Hall).
  { simpl. rewrite Es. exact Hsz. }
  { rewrite Hlen1.
    eapply (allocations_succeed_after _ k s); [|exact Hk|exact Hplan].
    eapply allocations_succeed_le; [|exact Ha]. lia. }
  { rewrite Hlen1, Hnl. lia. }
  { rewrite Hlen1. exact Hfuel. }
  exists t', s', cs'.
  split.
  { rewrite (set_after_insert _ _ _ _ _ _ _ _ _ _ _ _ Hins). simpl.
    simpl in Hthr. rewrite Es, En, Em.
    apply Z.leb_le in Hthr. rewrite Hthr.
    now rewrite (bind_ok _ _ _ _ _ Hgrow). }
  split; [exact Hwf'|]. split; [exact Hkf'|].
  split; [simpl in Hsize; now rewrite Es in Hsize|].
  split; [now rewrite Hcount|].
  assert (Hin_new : next_loc s ∈ List.concat cs1).
  { unfold cs1. rewrite elem_of_concat_insert_snoc by exact Hls. now left. }
  split; [exact (proj1 (proj2 (Hall _ _ Hin_new Hnew)))|].
  split; [exact (proj2 (proj2 (Hall _ _ Hin_new Hnew)))|].
  intros l it Hl Hit.
  destruct (Hkept l it Hit) as (it' & Hit' & Hk' & Hv' & _).
  rewrite <- Hk', <- Hv'.
  apply (proj2 (Hall l it' (proj2 (elem_of_concat_insert_snoc _ _ _ _ _ Hls) (or_intror Hl)) Hit')).
Qed.

(** *** NULL handles and vacant slots *)

(** X24: a NULL table handle is rejected by every entry point without any
    effect: set, remove and destroy return -1, get returns NULL and exists
    returns 0. *)
Theorem null_table_is_rejected fuel key v replace deallocator s :
  hashtable_set fuel None key v replace deallocator s = Ok (-1, None) s
  ∧ hashtable_get fuel None key s = Ok 0 s
  ∧ hashtable_exists_pair fuel None key s = Ok 0 s
  ∧ _hashtable_remove fuel None key deallocator s = Ok (-1, None) s
  ∧ hashtable_destroy fuel None deallocator s = Ok (-1) s.
Proof. repeat split. Qed.

Lemma remove_vacant fuel t key deallocator s index :
  slot_index t key s = Ok index s →
  buckets t !! index = Some None
  ∨ (∃ b, buckets t !! index = Some (Some b) ∧ bucket_head b = None) →
  _hashtable_remove fuel (Some t) key deallocator s = Ok (-1, Some t) s.
Proof.
  intros Hidx Hslot. unfold _hashtable_remove.
  destruct (num_items t =? 0); [reflexivity|].
  rewrite (bind_ok _ _ _ _ _ Hidx).
  destruct Hslot as [->|(b & -> & ->)]; reflexivity.
Qed.

(** X25: removing a key whose slot never held a bucket, or whose bucket
    was emptied, returns -1 and changes neither the table nor the state,
    whatever the fuel. *)
Theorem remove_from_vacant_slot fuel t key deallocator s index :
  slot_index t key s = Ok index s →
  buckets t !! index = Some None
  ∨ (∃ b, buckets t !! index = Some (Some b) ∧ bucket_head b = None) →
  _hashtable_remove fuel (Some t) key deallocator s = Ok (-1, Some t) s.
Proof. apply remove_vacant. Qed.

(** X26: removing a key twice.  When the key matches the only item of its
    bucket, the first removal returns 0 and frees the item; a second
    removal of the same key returns -1 and leaves table and state as the
    first one left them: the deallocator is not called again and nothing is
    freed twice. *)
Theorem second_remove_reports_absent fuel fuel2 t key deallocator deallocator2 s index b l it :
  num_items t ≠ 0 →
  slot_index t key s = Ok index s →
  buckets t !! index = Some (Some b) →
  bucket_head b = Some l →
  items s !! l = Some it →
  item_next it = None →
  key_matches key it = true →
  let t' := removed_table t index b it in
  let s' := removed_state s l it deallocator in
  _hashtable_remove (S fuel) (Some t) key deallocator s = Ok (0, Some t') s'
  ∧ _hashtable_remove fuel2 (Some t') key deallocator2 s' = Ok (-1, Some t') s'.
Proof.
  intros Hn Hidx Hb Hh Hit Hnext Hm t' s'.
  split.
  - apply remove_matching_head; try assumption. now apply key_matches_sym.
  - apply (remove_vacant _ _ _ _ _ index).
    + eapply slot_index_same_size; [|exact Hidx]. reflexivity.
    + right. exists (Bucket (item_next it) (bucket_tail b) (bucket_size b) (had_collision b)).
      split; [|exact Hnext].
      unfold t', removed_table. simpl.
      apply list_lookup_insert_eq. eapply lookup_lt_Some; exact Hb.
Qed.

(** *** The count after a growth *)

(** A set that returned 0 handed back the result of a growth. *)
Lemma set_grew fuel t key v replace deallocator s t1 s1 :
  hashtable_set fuel (Some t) key v replace deallocator s = Ok (0, Some t1) s1 →
  ∃ t0 s0, _hashtable_grow fuel t0 s0 = Ok (Some t1) s1.
Proof.
  intros H. unfold hashtable_set in H. repeat step_ok.
  match goal with E : _hashtable_grow _ ?t0 ?s0 = _ |- _ => exists t0, s0; exact E end.
Qed.

(** A doubled size that is not 0 is at least 2, also after the wrap. *)
Lemma doubled_size_ge_2 n : 0 < wrap_size (n * HASHTABLE_GROWTH_FACTOR) →
  2 ≤ wrap_size (n * HASHTABLE_GROWTH_FACTOR).
Proof.
  unfold wrap_size, HASHTABLE_GROWTH_FACTOR, size_max.
  change (2 ^ 64) with (2 * 2 ^ 63). rewrite (Z.mul_comm n 2).
  rewrite Z.mul_mod_distr_l by lia. lia.
Qed.

(** C7 (violated by the code): the threshold test of [hashtable_set] reads
    [num_items], which a growth resets to 0 while the grown table keeps the
    migrated items.  So after a set that grew the table, the set of a
    further new key that brings the stored items up to (or beyond) the load
    factor times the capacity returns without any growth: the capacity is
    unchanged, the table holds one more item than before, the count says 1,
    and [items / table_size < max_load_factor] is false. *)
Theorem load_threshold_passed_without_growth
    fuel t key v replace deallocator s t1 s1 cs1 key2 v2 replace2 deallocator2 index ls :
  hashtable_set fuel (Some t) key v replace deallocator s = Ok (0, Some t1) s1 →
  table_wf s1 t1 cs1 →
  0 < max_load_factor t1 →
  slot_index t1 key2 s1 = Ok index s1 →
  cs1 !! index = Some ls →
  first_match (items s1) key2 ls = None →
  allocations_succeed 3 s1 →
  Z.of_nat (next_loc s1) < size_max - 1 →
  (List.length ls < fuel)%nat →
  max_load_factor t1 ≤ Z.of_nat (S (List.length (List.concat cs1))) / table_size t1 →
  ∃ t2 s2,
    hashtable_set fuel (Some t1) key2 v2 replace2 deallocator2 s1 = Ok (-1, Some t2) s2
    ∧ table_size t2 = table_size t1
    ∧ max_load_factor t2 = max_load_factor t1
    ∧ num_items t2 = 1
    ∧ table_wf s2 t2 (<[index := ls ++ [next_loc s1]]> cs1)
    ∧ List.length (List.concat (<[index := ls ++ [next_loc s1]]> cs1))
      = S (List.length (List.concat cs1))
    ∧ items_kept (items s1) (items s2)
    ∧ items s2 !! next_loc s1 = Some (created_item key2 v2)
    ∧ ¬ (Z.of_nat (List.length (List.concat (<[index := ls ++ [next_loc s1]]> cs1)))
         / table_size t2 < max_load_factor t2).
Proof.
  intros Hset Hwf Hm Hidx Hls Hfm Ha Hbound Hf Hload.
  destruct (set_grew _ _ _ _ _ _ _ _ _ Hset) as (t0 & s0 & Hg).
  destruct (grow_shape _ _ _ _ _ _ _ Hg) as (Gs & Gn & _).
  pose proof (twf_size _ _ _ Hwf) as Hpos.
  assert (H2 : 2 ≤ table_size t1) by (rewrite Gs in *; now apply doubled_size_ge_2).
  destruct (insert_created_wf fuel t1 key2 v2 replace2 deallocator2 s1 cs1 index ls
              Hwf Hidx Hls Hfm Ha Hbound Hf)
    as (t2 & s2 & k & Hins & Hwf2 & (Es & En & Em) & Hnew & Hkept & _).
  assert (Hcount : num_items (incr_num_items t1) = 1).
  { simpl. rewrite Gn. reflexivity. }
  assert (Hlt : num_items (incr_num_items t1) / table_size t1 < max_load_factor t1).
  { rewrite Hcount, Z.div_small by lia. exact Hm. }
  exists (incr_num_items t2), s2.
  split; [exact (set_below_threshold _ _ _ _ _ _ _ _ _ Hins Hlt)|].
  split; [exact Es|]. split; [exact Em|].
  split; [simpl; rewrite En, Gn; reflexivity|].
  split; [now apply table_wf_incr|].
  split; [now apply length_concat_insert_snoc|].
  split; [exact Hkept|]. split; [exact Hnew|].
  rewrite (length_concat_insert_snoc _ _ _ _ Hls). simpl. rewrite Es, Em. lia.
Qed.

(** C10: a table whose [num_items] is 0 is destroyed by freeing the slot
    array and the table object only: no bucket is visited, no item is
    freed, the deallocator is not called, whatever the slots hold.  And
    that state is reached with items stored: the growth of a well-formed
    table with findable items whose allocations succeed returns a table
    with [num_items = 0] whose chains hold as many live items as the old
    table had, every old key still found with its value; destroying that
    table leaves every one of these items in the heap and calls no
    deallocator. *)
Theorem destroy_skips_buckets_when_count_is_zero :
  (∀ fuel t deallocator s,
      num_items t = 0 →
      hashtable_destroy fuel (Some t) deallocator s
      = Ok 0 (State (items s) (next_loc s) (alloc_plan s)
                    (events s ++ [Ev_free_buckets; Ev_free_table])))
  ∧ (∀ fuel t s cs,
      table_wf s t cs →
      keys_findable s t cs →
      table_size t * HASHTABLE_GROWTH_FACTOR < size_max →
      allocations_succeed (2 + 3 * List.length (List.concat cs)) s →
      Z.of_nat (next_loc s + List.length (List.concat cs)) < size_max - 1 →
      (List.length (List.concat cs) < fuel)%nat →
      ∃ t' s' cs',
        _hashtable_grow fuel t s = Ok (Some t') s'
        ∧ num_items t' = 0
        ∧ table_wf s' t' cs'
        ∧ List.length (List.concat cs') = List.length (List.concat cs)
        ∧ (∀ l it, l ∈ List.concat cs → items s !! l = Some it →
             hashtable_get fuel (Some t') (item_key it) s' = Ok (item_value it) s')
        ∧ ∀ fuel2 deallocator,
            ∃ s'', hashtable_destroy fuel2 (Some t') deallocator s' = Ok 0 s''
                   ∧ events s'' = events s' ++ [Ev_free_buckets; Ev_free_table]
                   ∧ ∀ l, l ∈ List.concat cs' → is_Some (items s'' !! l)).
Proof.
  assert (Hskip : ∀ fuel t deallocator s,
      num_items t = 0 →
      hashtable_destroy fuel (Some t) deallocator s
      = Ok 0 (State (items s) (next_loc s) (alloc_plan s)
                    (events s ++ [Ev_free_buckets; Ev_free_table]))).
  { intros fuel t deallocator s Hn.
    unfold hashtable_destroy. rewrite Hn. simpl.
    unfold bind, ret, emit. simpl. now rewrite <- app_assoc. }
  split; [exact Hskip|].
  intros fuel t s cs Hwf Hkf Hsz Ha Hbound Hfuel.
  destruct (grow_migrates fuel t s cs Hwf Hkf Hsz Ha Hbound Hfuel)
    as (t' & s' & cs' & Hg & Hwf' & _ & _ & _ & Hcount & Hall).
  destruct (grow_shape _ _ _ _ _ _ _ Hg) as (_ & Gn & _).
  exists t', s', cs'.
  split; [exact Hg|]. split; [exact Gn|]. split; [exact Hwf'|]. split; [exact Hcount|].
  split; [intros l it Hl Hit; exact (proj1 (proj2 (Hall l it Hl Hit)))|].
  intros fuel2 deallocator. eexists. split; [apply Hskip; exact Gn|].
  split; [reflexivity|].
  intros l Hl. simpl. apply elem_of_concat_lookup in Hl as (i & ls & Hi & Hl).
  eapply table_wf_live; eassumption.
Qed.

End Further.

(** ** The further properties at concrete inputs *)

(** Building [table_wf] for a concrete table: the slots one by one, the
    chains without repetition, and every live item below [next_loc]. *)
Lemma NoDup_concat_disjoint (cs : list (list loc)) :
  NoDup (List.concat cs) →
  ∀ i j a b l, i ≠ j → cs !! i = Some a → cs !! j = Some b → l ∈ a → l ∉ b.
Proof.
  induction cs as [|c cs IH]; intros Hnd i j a b l Hij Hi Hj Ha Hb; [discriminate|].
  simpl in Hnd. apply NoDup_app in Hnd as (_ & Hd & Hnd).
  destruct i as [|i], j as [|j]; simpl in Hi, Hj.
  - congruence.
  - injection Hi as ->. apply (Hd l Ha).
    apply elem_of_concat_lookup. eauto.
  - injection Hj as ->. apply (Hd l Hb).
    apply elem_of_concat_lookup. eauto.
  - apply (IH Hnd i j a b l); auto.
Qed.

Lemma table_wf_intro s t cs :
  0 < table_size t →
  List.length (buckets t) = Z.to_nat (table_size t) →
  Forall2 (slot_wf (items s) (next_loc s)) (buckets t) cs →
  NoDup (List.concat cs) →
  map_Forall (λ l _, (l < next_loc s)%nat) (items s) →
  table_wf s t cs.
Proof.
  intros Hs Hl H2 Hnd Hf. split.
  - exact Hs.
  - exact Hl.
  - symmetry. eapply Forall2_length; exact H2.
  - intros i slot ls Hi Hc. eapply Forall2_lookup_lr; eassumption.
  - now apply NoDup_concat_disjoint.
  - intros l [it Hit]. exact (Hf l it Hit).
Qed.

(** Tactics that settle the hypotheses of a theorem at a concrete table by
    evaluation. *)
Ltac chain_by_evaluation :=
  simpl;
  repeat (split; [reflexivity|]; eexists; split; [vm_compute; reflexivity|]; simpl);
  reflexivity.

Ltac bucket_by_evaluation :=
  split;
  [ chain_by_evaluation
  | discriminate
  | reflexivity
  | repeat constructor; set_solver
  | vm_compute; discriminate
  | first [discriminate | reflexivity | intros _; reflexivity] ].

Ltac table_by_evaluation :=
  apply table_wf_intro;
  [ reflexivity
  | reflexivity
  | repeat (constructor; [first [reflexivity | split; [bucket_by_evaluation | vm_compute; discriminate]]|]);
    constructor
  | vm_compute; repeat constructor; set_solver
  | apply map_Forall_to_list; vm_compute; repeat constructor ].

Lemma a_b_wf : table_wf a_b_state a_b_table [[0; 1]%nat].
Proof. table_by_evaluation. Qed.

Lemma single_a_wf : table_wf single_a_state single_a_table [[0%nat]].
Proof. table_by_evaluation. Qed.

Lemma one_slot_empty_wf : table_wf initial_state one_slot_empty [[]].
Proof. table_by_evaluation. Qed.

Lemma two_slot_a_wf : table_wf two_slot_a_state two_slot_a_table [[]; [0%nat]].
Proof. table_by_evaluation. Qed.

Lemma two_slot_full_wf : table_wf two_slot_full_state two_slot_full_table [[1%nat]; [0%nat]].
Proof. table_by_evaluation. Qed.

Lemma unit_factor_grown_wf :
  table_wf unit_factor_grown_state unit_factor_grown_table [[]; [1%nat]].
Proof. table_by_evaluation. Qed.

Ltac findable_by_evaluation :=
  let i := fresh "i" in let ls := fresh "ls" in let l := fresh "l" in
  let it := fresh "it" in let Hi := fresh "Hi" in let Hl := fresh "Hl" in
  let Hit := fresh "Hit" in
  intros i ls l it Hi Hl Hit;
  repeat (destruct i as [|i]; simpl in Hi;
          [injection Hi as <-;
           repeat (apply elem_of_cons in Hl as [->|Hl];
                   [vm_compute in Hit; injection Hit as <-;
                    split; [vm_compute; reflexivity|split; vm_compute; reflexivity]|]);
           apply elem_of_nil in Hl; contradiction|]);
  discriminate.

Lemma a_b_findable : keys_findable sum_hash 0 a_b_state a_b_table [[0; 1]%nat].
Proof. findable_by_evaluation. Qed.

Lemma two_slot_a_findable : keys_findable sum_hash 0 two_slot_a_state two_slot_a_table [[]; [0%nat]].
Proof. findable_by_evaluation. Qed.

Lemma two_slot_full_findable :
  keys_findable sum_hash 0 two_slot_full_state two_slot_full_table [[1%nat]; [0%nat]].
Proof. findable_by_evaluation. Qed.

Ltac allocations_by_evaluation :=
  unfold allocations_succeed; simpl; repeat constructor.

(** X1 at a concrete input: the key "a" in the empty two-slot table. *)
Lemma slot_index_in_range_witness :
  ∃ index, slot_index sum_hash 0 two_slot_empty "a" initial_state = Ok index initial_state
           ∧ (index < Z.to_nat (table_size two_slot_empty))%nat.
Proof. refine (slot_index_in_range sum_hash 0 two_slot_empty "a" initial_state _). by_evaluation. Defined.

(** X2 at a concrete input: "b" is the second item of the bucket holding "a" and "b". *)
Lemma get_returns_first_match_witness :
  hashtable_get sum_hash 0 2 (Some a_b_table) "b" a_b_state = Ok 222 a_b_state
  ∧ hashtable_exists_pair sum_hash 0 2 (Some a_b_table) "b" a_b_state = Ok 1 a_b_state.
Proof.
  refine (get_returns_first_match sum_hash 0 2 a_b_table "b" a_b_state 0%nat
            (Bucket (Some 0%nat) (Some 1%nat) 2 true) [0; 1]%nat 1%nat
            (Item None "b" 222 1) _ _ _ _ _ _).
  - by_evaluation.
  - by_evaluation.
  - bucket_by_evaluation.
  - by_evaluation.
  - by_evaluation.
  - apply Nat.le_refl.
Defined.

(** X3 at a concrete input: "c" in the bucket holding "a" and "b". *)
Lemma get_misses_unmatched_key_witness :
  hashtable_get sum_hash 0 2 (Some a_b_table) "c" a_b_state = Ok 0 a_b_state
  ∧ hashtable_exists_pair sum_hash 0 2 (Some a_b_table) "c" a_b_state = Ok 0 a_b_state.
Proof.
  refine (get_misses_unmatched_key sum_hash 0 2 a_b_table "c" a_b_state 0%nat
            (Bucket (Some 0%nat) (Some 1%nat) 2 true) [0; 1]%nat _ _ _ _ _ _).
  - by_evaluation.
  - by_evaluation.
  - bucket_by_evaluation.
  - by_evaluation.
  - by_evaluation.
  - apply Nat.le_refl.
Defined.

(** X4 at a concrete input: set("a", 111) on the empty one-slot table. *)
Lemma set_then_get_in_empty_slot_witness :
  hashtable_set sum_hash 0 2 (Some one_slot_empty) "a" 111 0 false initial_state
  = Ok (-1, Some single_a_table) single_a_state
  ∧ hashtable_get sum_hash 0 2 (Some single_a_table) "a" single_a_state
    = Ok 111 single_a_state
  ∧ hashtable_exists_pair sum_hash 0 2 (Some single_a_table) "a" single_a_state
    = Ok 1 single_a_state.
Proof.
  refine (set_then_get_in_empty_slot sum_hash 0 2 one_slot_empty "a" 111 0 false
            initial_state 0%nat _ _ _ _).
  - by_evaluation.
  - by_evaluation.
  - allocations_by_evaluation.
  - by_evaluation.
Defined.



(** X7 at a concrete input: set("a", 999) with replace and a deallocator on the one-slot table holding "a". *)
Lemma set_replaces_value_witness :
  hashtable_set sum_hash 0 2 (Some single_a_table) "a" 999 1 true single_a_state
  = Ok (-1, Some single_a_table) (overwritten_state single_a_state 0%nat single_a_item 999 true)
  ∧ table_wf (overwritten_state single_a_state 0%nat single_a_item 999 true)
             single_a_table [[0%nat]]
  ∧ hashtable_get sum_hash 0 2 (Some single_a_table) "a"
      (overwritten_state single_a_state 0%nat single_a_item 999 true)
    = Ok 999 (overwritten_state single_a_state 0%nat single_a_item 999 true)
  ∧ hashtable_exists_pair sum_hash 0 2 (Some single_a_table) "a"
      (overwritten_state single_a_state 0%nat single_a_item 999 true)
    = Ok 1 (overwritten_state single_a_state 0%nat single_a_item 999 true).
Proof.
  refine (set_replaces_value sum_hash 0 2 single_a_table "a" 999 1 true single_a_state
            [[0%nat]] 0%nat [0%nat] 0%nat single_a_item single_a_wf _ _ _ _ _ _).
  - by_evaluation.
  - reflexivity.
  - by_evaluation.
  - by_evaluation.
  - discriminate.
  - apply Nat.lt_succ_diag_r.
Defined.

(** X8 at a concrete input: hashtable_create(1, 100) in the initial state. *)
Lemma created_table_is_empty_witness :
  ∃ t s',
    hashtable_create 1 100 initial_state = Ok (Some t) s'
    ∧ same_heap initial_state s'
    ∧ table_size t = 1 ∧ num_items t = 0
    ∧ max_load_factor t = 100
    ∧ table_wf s' t (replicate (Z.to_nat 1) [])
    ∧ ∀ fuel key deallocator s2,
        hashtable_get sum_hash 0 fuel (Some t) key s2 = Ok 0 s2
        ∧ hashtable_exists_pair sum_hash 0 fuel (Some t) key s2 = Ok 0 s2
        ∧ _hashtable_remove sum_hash 0 fuel (Some t) key deallocator s2 = Ok (-1, Some t) s2.
Proof.
  refine (created_table_is_empty sum_hash 0 1 100 initial_state _ _ _).
  - reflexivity.
  - allocations_by_evaluation.
  - intros l [it H]. discriminate H.
Defined.

(** X9 at a concrete input: remove("a") on the one-slot table holding "a" and "b". *)
Lemma remove_unlinks_head_witness :
  let b := Bucket (Some 0%nat) (Some 1%nat) 2 true in
  let it := Item (Some 1%nat) "a" 111 1 in
  let t' := removed_table a_b_table 0 b it in
  let s' := removed_state a_b_state 0%nat it true in
  _hashtable_remove sum_hash 0 1 (Some a_b_table) "a" true a_b_state = Ok (0, Some t') s'
  ∧ table_wf s' t' (<[0%nat := [1%nat]]> [[0; 1]%nat])
  ∧ num_items t' = wrap_size (num_items a_b_table - 1)
  ∧ (first_match (items a_b_state) "a" [1%nat] = None →
     (List.length [1%nat] ≤ 2)%nat →
     hashtable_get sum_hash 0 2 (Some t') "a" s' = Ok 0 s'
     ∧ hashtable_exists_pair sum_hash 0 2 (Some t') "a" s' = Ok 0 s').
Proof.
  refine (remove_unlinks_head sum_hash 0 0 2 a_b_table "a" true a_b_state [[0; 1]%nat]
            0%nat (Bucket (Some 0%nat) (Some 1%nat) 2 true) 0%nat [1%nat]
            (Item (Some 1%nat) "a" 111 1) a_b_wf _ _ _ _ _ _ _).
  - by_evaluation.
  - by_evaluation.
  - by_evaluation.
  - reflexivity.
  - discriminate.
  - by_evaluation.
  - by_evaluation.
Defined.

(** X10 at a concrete input: remove("a") on the one-slot table holding "a". *)
Lemma remove_only_item_leaves_stale_tail_witness :
  let t' := removed_table single_a_table 0 single_a_bucket single_a_item in
  let s' := removed_state single_a_state 0%nat single_a_item false in
  _hashtable_remove sum_hash 0 1 (Some single_a_table) "a" false single_a_state
  = Ok (0, Some t') s'
  ∧ (shortcut single_a_bucket = true →
     ∀ key2, slot_index sum_hash 0 single_a_table key2 single_a_state = Ok 0%nat single_a_state →
       hashtable_get sum_hash 0 2 (Some t') key2 s' = Ok 0 s'
       ∧ hashtable_exists_pair sum_hash 0 2 (Some t') key2 s' = Ok 0 s')
  ∧ (∀ key2 v override deallocator2 s2,
       slot_index sum_hash 0 single_a_table key2 single_a_state = Ok 0%nat single_a_state →
       items s2 = items s' →
       next_loc s2 ≠ 0%nat →
       allocations_succeed 2 s2 →
       _hashtable_insert sum_hash 0 3 t' key2 v override deallocator2 s2 = Undefined).
Proof.
  refine (remove_only_item_leaves_stale_tail sum_hash 0 0 2 single_a_table "a" false
            single_a_state 0%nat single_a_bucket 0%nat single_a_item _ _ _ _ _ _ _ _).
  - by_evaluation.
  - by_evaluation.
  - by_evaluation.
  - reflexivity.
  - reflexivity.
  - by_evaluation.
  - reflexivity.
  - by_evaluation.
Defined.

(** X11 at a concrete input: the table grown by set("b", 222) refuses remove("a"). *)
Lemma remove_fails_after_growth_witness :
  _hashtable_remove sum_hash 0 2 (Some grown_table) "a" false grown_state
  = Ok (-1, Some grown_table) grown_state.
Proof.
  refine (remove_fails_after_growth sum_hash 0 2 two_slot_a_table "b" 222 0 false
            two_slot_a_state grown_table grown_state _ 2%nat "a" false grown_state).
  by_evaluation.
Defined.

(** X12 at a concrete input: the queried key "ab" and the stored key "abc". *)
Lemma nul_free_key_matches_prefix_witness :
  strncmp "abc" "ab" (String.length "ab") = 0 ↔ ∃ suffix, "abc"%string = ("ab" ++ suffix)%string.
Proof. refine (nul_free_key_matches_prefix "ab" "abc" _). by_evaluation. Defined.

(** X15 at a concrete input: two calls on the seed 7. *)
Lemma seed_is_set_once_witness :
  fold_left seed_call [(SeedEnv true true false 1 2 3 4, 5); (SeedEnv false false false 9 8 7 6, 0)] 7
  = 7.
Proof.
  refine (seed_is_set_once [(SeedEnv true true false 1 2 3 4, 5);
                            (SeedEnv false false false 9 8 7 6, 0)] 7 _).
  discriminate.
Defined.

(** X17 at a concrete input: the insert of "a" without override into the table holding "a". *)
Lemma failed_insert_changes_nothing_witness :
  single_a_table = single_a_table ∧ same_heap single_a_state single_a_state.
Proof.
  refine (failed_insert_changes_nothing sum_hash 0 2 single_a_table "a" 999 0 true
            single_a_state single_a_table single_a_state _).
  by_evaluation.
Defined.


(** X19 at a concrete input: a growth whose first allocation is refused. *)
Lemma failed_growth_changes_nothing_witness :
  same_heap (with_plan [false] single_a_state) (with_plan [] single_a_state).
Proof.
  refine (failed_growth_changes_nothing sum_hash 0 2 single_a_table
            (with_plan [false] single_a_state) (with_plan [] single_a_state) _).
  by_evaluation.
Defined.

(** X20 at a concrete input: destroying the one-slot table holding "a" and "b" with a deallocator. *)
Lemma destroy_frees_every_item_witness :
  hashtable_destroy 3 (Some a_b_table) true a_b_state
  = Ok 0 (State (release_all (items a_b_state) (List.concat [[0; 1]%nat]))
                (next_loc a_b_state) (alloc_plan a_b_state)
                (events a_b_state
                 ++ table_release_events (items a_b_state) true 0 (buckets a_b_table)
                      [[0; 1]%nat]
                 ++ [Ev_free_buckets; Ev_free_table]))
  ∧ (∀ l, l ∈ List.concat [[0; 1]%nat] →
          release_all (items a_b_state) (List.concat [[0; 1]%nat]) !! l = None)
  ∧ (∀ l, l ∉ List.concat [[0; 1]%nat] →
          release_all (items a_b_state) (List.concat [[0; 1]%nat]) !! l
          = items a_b_state !! l).
Proof.
  refine (destroy_frees_every_item 3 a_b_table true a_b_state [[0; 1]%nat] a_b_wf _ _).
  - by_evaluation.
  - repeat constructor.
Defined.

(** X21 at a concrete input: "b" in the one-slot table holding "a" and "b". *)
Lemma stored_keys_are_found_witness :
  hashtable_get sum_hash 0 2 (Some a_b_table) "b" a_b_state = Ok 222 a_b_state
  ∧ hashtable_exists_pair sum_hash 0 2 (Some a_b_table) "b" a_b_state = Ok 1 a_b_state.
Proof.
  refine (stored_keys_are_found sum_hash 0 2 a_b_table a_b_state [[0; 1]%nat] 0%nat
            [0; 1]%nat 1%nat (Item None "b" 222 1) a_b_wf a_b_findable _ _ _ _).
  - reflexivity.
  - set_solver.
  - by_evaluation.
  - apply Nat.le_refl.
Defined.

(** X22 at a concrete input: growing the two-slot table holding "a" and "b". *)
Lemma growth_keeps_stored_pairs_witness :
  ∃ t' s' cs',
    _hashtable_grow sum_hash 0 3 two_slot_full_table two_slot_full_state = Ok (Some t') s'
    ∧ table_wf s' t' cs'
    ∧ keys_findable sum_hash 0 s' t' cs'
    ∧ table_size t' = 2 * table_size two_slot_full_table
    ∧ max_load_factor t' = max_load_factor two_slot_full_table
    ∧ List.length (List.concat cs') = List.length (List.concat [[1%nat]; [0%nat]])
    ∧ ∀ l it, l ∈ List.concat [[1%nat]; [0%nat]] → items two_slot_full_state !! l = Some it →
        items s' !! l = None
        ∧ hashtable_get sum_hash 0 3 (Some t') (item_key it) s' = Ok (item_value it) s'
        ∧ hashtable_exists_pair sum_hash 0 3 (Some t') (item_key it) s' = Ok 1 s'.
Proof.
  refine (growth_keeps_stored_pairs sum_hash 0 3 two_slot_full_table two_slot_full_state
            [[1%nat]; [0%nat]] two_slot_full_wf two_slot_full_findable _ _ _ _).
  - by_evaluation.
  - allocations_by_evaluation.
  - by_evaluation.
  - apply Nat.lt_succ_diag_r.
Defined.

(** X23 at a concrete input: set("b", 222) on the two-slot table holding "a", which reaches the threshold. *)
Lemma set_with_growth_keeps_all_pairs_witness :
  ∃ t' s' cs',
    hashtable_set sum_hash 0 3 (Some two_slot_a_table) "b" 222 0 false two_slot_a_state
    = Ok (0, Some t') s'
    ∧ table_wf s' t' cs'
    ∧ keys_findable sum_hash 0 s' t' cs'
    ∧ table_size t' = 2 * table_size two_slot_a_table
    ∧ List.length (List.concat cs') = S (List.length (List.concat [[]; [0%nat]]))
    ∧ hashtable_get sum_hash 0 3 (Some t') "b" s' = Ok 222 s'
    ∧ hashtable_exists_pair sum_hash 0 3 (Some t') "b" s' = Ok 1 s'
    ∧ ∀ l it, l ∈ List.concat [[]; [0%nat]] → items two_slot_a_state !! l = Some it →
        hashtable_get sum_hash 0 3 (Some t') (item_key it) s' = Ok (item_value it) s'
        ∧ hashtable_exists_pair sum_hash 0 3 (Some t') (item_key it) s' = Ok 1 s'.
Proof.
  refine (set_with_growth_keeps_all_pairs sum_hash 0 3 two_slot_a_table "b" 222 0 false
            two_slot_a_state [[]; [0%nat]] 0%nat [] two_slot_a_wf two_slot_a_findable
            _ _ _ _ _ _ _ _).
  - by_evaluation.
  - reflexivity.
  - by_evaluation.
  - by_evaluation.
  - by_evaluation.
  - allocations_by_evaluation.
  - by_evaluation.
  - apply Nat.lt_succ_diag_r.
Defined.

(** X25 at a concrete input: remove("b") on the two-slot table holding "a": slot 0 is empty. *)
Lemma remove_from_vacant_slot_witness :
  _hashtable_remove sum_hash 0 0 (Some two_slot_a_table) "b" false two_slot_a_state
  = Ok (-1, Some two_slot_a_table) two_slot_a_state.
Proof.
  refine (remove_from_vacant_slot sum_hash 0 0 two_slot_a_table "b" false two_slot_a_state
            0%nat _ _).
  - by_evaluation.
  - left. reflexivity.
Defined.

(** X26 at a concrete input: remove("a") twice on the one-slot table holding "a". *)
Lemma second_remove_reports_absent_witness :
  let t' := removed_table single_a_table 0 single_a_bucket single_a_item in
  let s' := removed_state single_a_state 0%nat single_a_item true in
  _hashtable_remove sum_hash 0 1 (Some single_a_table) "a" true single_a_state
  = Ok (0, Some t') s'
  ∧ _hashtable_remove sum_hash 0 0 (Some t') "a" true s' = Ok (-1, Some t') s'.
Proof.
  refine (second_remove_reports_absent sum_hash 0 0 0 single_a_table "a" true true
            single_a_state 0%nat single_a_bucket 0%nat single_a_item _ _ _ _ _ _ _).
  - by_evaluation.
  - by_evaluation.
  - by_evaluation.
  - reflexivity.
  - by_evaluation.
  - reflexivity.
  - by_evaluation.
Defined.

(** C7 at a concrete input: [hashtable_create(1, 1)], then the set of "a",
    which grows the table to 2 slots and resets the count, then the set of
    "b": it returns without growth and leaves 2 items in 2 slots under a
    load factor of 1. *)
Lemma load_threshold_passed_without_growth_witness :
  (hashtable_create 1 1 initial_state = Ok (Some unit_factor_empty) initial_state
   ∧ hashtable_set sum_hash 0 2 (Some unit_factor_empty) "a" 111 0 false initial_state
     = Ok (0, Some unit_factor_grown_table) unit_factor_grown_state
   ∧ hashtable_set sum_hash 0 2 (Some unit_factor_grown_table) "b" 222 0 false
       unit_factor_grown_state
     = Ok (-1, Some unit_factor_full_table) unit_factor_full_state)
  ∧ ∃ t2 s2,
      hashtable_set sum_hash 0 2 (Some unit_factor_grown_table) "b" 222 0 false
        unit_factor_grown_state
      = Ok (-1, Some t2) s2
      ∧ table_size t2 = table_size unit_factor_grown_table
      ∧ max_load_factor t2 = max_load_factor unit_factor_grown_table
      ∧ num_items t2 = 1
      ∧ table_wf s2 t2 (<[0%nat := [] ++ [next_loc unit_factor_grown_state]]> [[]; [1%nat]])
      ∧ List.length (List.concat (<[0%nat := [] ++ [next_loc unit_factor_grown_state]]>
                                    [[]; [1%nat]]))
        = S (List.length (List.concat [[]; [1%nat]]))
      ∧ items_kept (items unit_factor_grown_state) (items s2)
      ∧ items s2 !! next_loc unit_factor_grown_state = Some (created_item "b" 222)
      ∧ ¬ (Z.of_nat (List.length (List.concat
                        (<[0%nat := [] ++ [next_loc unit_factor_grown_state]]>
                           [[]; [1%nat]])))
           / table_size t2 < max_load_factor t2).
Proof.
  split; [split; [by_evaluation|split; by_evaluation]|].
  refine (load_threshold_passed_without_growth sum_hash 0 2 unit_factor_empty "a" 111 0
            false initial_state unit_factor_grown_table unit_factor_grown_state
            [[]; [1%nat]] "b" 222 0 false 0%nat [] _ unit_factor_grown_wf _ _ _ _ _ _ _ _).
  - by_evaluation.
  - by_evaluation.
  - by_evaluation.
  - reflexivity.
  - by_evaluation.
  - allocations_by_evaluation.
  - by_evaluation.
  - apply Nat.lt_0_succ.
  - by_evaluation.
Defined.

(** C10 at a concrete input: the growth of the two-slot table holding "a"
    and "b" returns a table that holds both and counts no item; destroying
    it with a deallocator frees the slot array and the table, leaves both
    items in the heap and never calls the deallocator. *)
Lemma destroy_skips_buckets_when_count_is_zero_witness :
  (_hashtable_grow sum_hash 0 3 two_slot_full_table two_slot_full_state
   = Ok (Some grown_table) grown_state
   ∧ hashtable_destroy 3 (Some grown_table) true grown_state
     = Ok 0 (State (items grown_state) (next_loc grown_state) (alloc_plan grown_state)
                   (events grown_state ++ [Ev_free_buckets; Ev_free_table]))
   ∧ items grown_state !! 2%nat = Some (Item None "b" 222 1)
   ∧ items grown_state !! 3%nat = Some (Item None "a" 111 1))
  ∧ ∃ t' s' cs',
      _hashtable_grow sum_hash 0 3 two_slot_full_table two_slot_full_state
      = Ok (Some t') s'
      ∧ num_items t' = 0
      ∧ table_wf s' t' cs'
      ∧ List.length (List.concat cs') = List.length (List.concat [[1%nat]; [0%nat]])
      ∧ (∀ l it, l ∈ List.concat [[1%nat]; [0%nat]] →
           items two_slot_full_state !! l = Some it →
           hashtable_get sum_hash 0 3 (Some t') (item_key it) s' = Ok (item_value it) s')
      ∧ ∀ fuel2 deallocator,
          ∃ s'', hashtable_destroy fuel2 (Some t') deallocator s' = Ok 0 s''
                 ∧ events s'' = events s' ++ [Ev_free_buckets; Ev_free_table]
                 ∧ ∀ l, l ∈ List.concat cs' → is_Some (items s'' !! l).
Proof.
  split.
  - split; [by_evaluation|]. split; [|split; by_evaluation].
    refine (proj1 (destroy_skips_buckets_when_count_is_zero sum_hash 0)
              3%nat grown_table true grown_state _).
    by_evaluation.
  - refine (proj2 (destroy_skips_buckets_when_count_is_zero sum_hash 0)
              3%nat two_slot_full_table two_slot_full_state [[1%nat]; [0%nat]]
              two_slot_full_wf two_slot_full_findable _ _ _ _).
    + by_evaluation.
    + allocations_by_evaluation.
    + by_evaluation.
    + apply Nat.lt_succ_diag_r.
Defined.
